(** * Swapp switch manager: cache, command executor, parser and range compressor

    Shallow embedding of
      - [swappLast/cache_manager.py]   (CacheEntry, ThreadSafeCache)
      - [swappLast/cisco_manager.py]   (send_command, _send_config_command_safe,
                                        _create_interface_ranges,
                                        _create_port_ranges, bulk_*_optimized)
      - [swappLast/cisco_parsers.py]   (CiscoParser.parse_basic_interfaces,
                                        CiscoParser.parse_mac_table)
      - [swappLast/cisco_decorators.py] (retry_on_failure, cache_result)

    Conventions.
      - Python [int] is [Z]; Python [str] is [string], its characters being
        8-bit code points (the Latin-1 range of Unicode).
      - [time.time()] readings are passed in as arguments and are exact
        integers of a fixed clock tick; [ttl] is counted in the same tick.
      - [logger.*] and the [time.sleep] calls with a constant argument have
        no effect on the results and are left out; the sleep between the
        attempts of [retry_on_failure] takes a computed argument and can
        raise, and is part of the model.
      - A Python exception is an explicit result ([None], or a constructor of
        an outcome type), never a missing case. *)

From Stdlib Require Import ZArith Ascii String DecimalString.
From Stdlib Require DecimalPos.
From stdpp Require Import base tactics option list list_numbers sorting strings gmap.

Local Open Scope string_scope.
Local Open Scope list_scope.
Local Open Scope Z_scope.

(** ** Python string methods *)

Module PyStr.

Definition code (c : ascii) : nat := nat_of_ascii c.

(** [str.isspace] on one character: TAB..CR, FS..US, SPACE, NEL, NBSP. *)
Definition is_space (c : ascii) : bool :=
  let n := code c in
  ((9 <=? n) && (n <=? 13) || (28 <=? n) && (n <=? 31)
   || (n =? 32) || (n =? 133) || (n =? 160))%nat.

(** [\d] of [re] on these code points. *)
Definition is_digit (c : ascii) : bool :=
  let n := code c in ((48 <=? n) && (n <=? 57))%nat.

(** [[A-Za-z]]. *)
Definition is_alpha (c : ascii) : bool :=
  let n := code c in
  ((65 <=? n) && (n <=? 90) || (97 <=? n) && (n <=? 122))%nat.

Fixpoint lstrip (s : string) : string :=
  match s with
  | "" => ""
  | String c s' => if is_space c then lstrip s' else s
  end.

Fixpoint rstrip (s : string) : string :=
  match s with
  | "" => ""
  | String c s' =>
      match rstrip s' with
      | "" => if is_space c then "" else String c ""
      | r => String c r
      end
  end.

(** [s.strip()] *)
Definition strip (s : string) : string := rstrip (lstrip s).

(** [s.split(sep)] for a one-character separator. *)
Fixpoint split (sep : ascii) (s : string) : list string :=
  match s with
  | "" => [""]
  | String c s' =>
      if Ascii.eqb c sep then "" :: split sep s'
      else match split sep s' with
           | w :: ws => String c w :: ws
           | [] => [String c ""]
           end
  end.

(** [s.split(sep, 1)[1]]: what follows the first separator. *)
Fixpoint after_first (sep : ascii) (s : string) : option string :=
  match s with
  | "" => None
  | String c s' => if Ascii.eqb c sep then Some s' else after_first sep s'
  end.

(** [s.split()]: the maximal runs of non-space characters. *)
Fixpoint split_ws (s : string) : list string :=
  match s with
  | "" => []
  | String c s' =>
      if is_space c then split_ws s'
      else match s' with
           | "" => [String c ""]
           | String c' _ =>
               if is_space c' then String c "" :: split_ws s'
               else match split_ws s' with
                    | w :: ws => String c w :: ws
                    | [] => [String c ""]
                    end
           end
  end.



(** [s.startswith(p)] *)
Definition startswith (p s : string) : bool := String.prefix p s.

(** [s.endswith(suf)] *)
Definition endswith (suf s : string) : bool :=
  (String.length suf <=? String.length s)%nat
  && String.eqb
       (String.substring (String.length s - String.length suf)
                         (String.length suf) s) suf.

(** [sub in s] *)
Fixpoint contains (sub s : string) : bool :=
  String.prefix sub s
  || match s with
     | "" => false
     | String _ s' => contains sub s'
     end.

Definition lower_char (c : ascii) : ascii :=
  let n := code c in
  if ((65 <=? n) && (n <=? 90)
      || (192 <=? n) && (n <=? 222) && negb (n =? 215))%nat
  then ascii_of_nat (n + 32) else c.

(** [s.lower()] *)
Fixpoint lower (s : string) : string :=
  match s with
  | "" => ""
  | String c s' => String (lower_char c) (lower s')
  end.

(** [s.replace(old, new)] for a non-empty [old]: occurrences are replaced
    from the left and do not overlap; [skip] counts the characters of a
    replaced occurrence still to be passed over. *)
Fixpoint replace_go (old new : string) (skip : nat) (s : string) : string :=
  match s with
  | "" => ""
  | String c s' =>
      match skip with
      | S k => replace_go old new k s'
      | O =>
          if String.prefix old s
          then new +:+ replace_go old new (String.length old - 1) s'
          else String c (replace_go old new 0 s')
      end
  end.

Definition replace (old new s : string) : string := replace_go old new 0 s.

(** [sep.join(l)] *)
Definition join (sep : string) (l : list string) : string := String.concat sep l.

(** [str(n)] for an [int]. *)
Definition str_int (n : Z) : string := NilZero.string_of_int (Z.to_int n).

Definition digit_val (c : ascii) : option Z :=
  if is_digit c then Some (Z.of_nat (code c) - 48) else None.

(** Digits of an [int] literal: single underscores may separate digits. *)
Fixpoint int_digits (acc : Z) (after_digit : bool) (s : string) : option Z :=
  match s with
  | "" => if after_digit then Some acc else None
  | String c s' =>
      match digit_val c with
      | Some d => int_digits (10 * acc + d) true s'
      | None =>
          if Ascii.eqb c "_" && after_digit then int_digits acc false s'
          else None
      end
  end.

(** [int(s)]; [None] is [ValueError]. *)
Definition int (s : string) : option Z :=
  match strip s with
  | String "+" r => int_digits 0 false r
  | String "-" r => Z.opp <$> int_digits 0 false r
  | t => int_digits 0 false t
  end.

(** One or more characters of a class, as the greedy [c+] of a regular
    expression consumes them; [None] when there is none. *)
Fixpoint skip_while (p : ascii -> bool) (s : string) : string :=
  match s with
  | "" => ""
  | String c s' => if p c then skip_while p s' else s
  end.

Definition skip_plus (p : ascii -> bool) (s : string) : option string :=
  match s with
  | "" => None
  | String c s' => if p c then Some (skip_while p s') else None
  end.

Definition skip_lit (lit : string) (s : string) : option string :=
  if String.prefix lit s
  then Some (String.substring (String.length lit)
                              (String.length s - String.length lit) s)
  else None.

End PyStr.

(** ** Range compressor: [CiscoManager._create_port_ranges] *)

Module Ranges.

Import PyStr.

(** The f-strings [gi{slot}/{start}] and [gi{slot}/{start}-{end}]. *)
Definition fmt_range (slot_prefix : string) (r : Z * Z) : string :=
  if r.1 =? r.2
  then "gi" +:+ slot_prefix +:+ "/" +:+ str_int r.1
  else "gi" +:+ slot_prefix +:+ "/" +:+ str_int r.1 +:+ "-" +:+ str_int r.2.

(** Loop state: [ranges] and the pair
    [(current_range_start, current_range_end)], [None] while both are
    [None]. *)
Record scan := Scan {
  ranges : list string;
  current_range : option (Z * Z)
}.

Definition scan_step (slot_prefix : string) (st : scan) (port : Z) : scan :=
  match current_range st with
  | None => Scan (ranges st) (Some (port, port))
  | Some (s, e) =>
      if port =? e + 1
      then Scan (ranges st) (Some (s, port))
      else Scan (ranges st ++ [fmt_range slot_prefix (s, e)]) (Some (port, port))
  end.

(** The "add final range" step after the loop. *)
Definition close_scan (slot_prefix : string) (st : scan) : list string :=
  match current_range st with
  | None => ranges st
  | Some r => ranges st ++ [fmt_range slot_prefix r]
  end.

Definition _create_port_ranges (slot_prefix : string) (ports : list Z)
  : list string :=
  close_scan slot_prefix (foldl (scan_step slot_prefix) (Scan [] None) ports).

(** [ports.sort()] on a list of ints. *)
Definition sort (ports : list Z) : list Z := merge_sort Z.le ports.

(** The same scan on (start, end) pairs, before they are rendered. *)
Fixpoint runs_from (s e : Z) (ports : list Z) : list (Z * Z) :=
  match ports with
  | [] => [(s, e)]
  | p :: ps => if p =? e + 1 then runs_from s p ps else (s, e) :: runs_from p p ps
  end.

Definition port_runs (ports : list Z) : list (Z * Z) :=
  match ports with
  | [] => []
  | p :: ps => runs_from p p ps
  end.

(** Two ranges with room for at least one port between them. *)
Definition gap (r1 r2 : Z * Z) : Prop := r1.2 + 1 < r2.1.

(** Every port number a list of ranges stands for. *)
Definition expand (runs : list (Z * Z)) : list Z :=
  r ← runs; seqZ r.1 (r.2 - r.1 + 1).

(** *** [CiscoManager._create_interface_ranges] *)

(** [interface_groups]: a dict from slot prefix to the ports seen so far,
    kept in insertion order, which is the order [items()] yields. *)
Abbreviation groups := (list (string * list Z)).

Fixpoint group_append (slot_prefix : string) (port_num : Z) (g : groups) : groups :=
  match g with
  | [] => [(slot_prefix, [port_num])]
  | (k, ports) :: g' =>
      if String.eqb k slot_prefix then (k, ports ++ [port_num]) :: g'
      else (k, ports) :: group_append slot_prefix port_num g'
  end.

(** The two guards of the first loop: [startswith('Gi')] and three
    slash-separated parts once every 'Gi' is removed. *)
Definition gi_parts (interface : string) : option (string * string * string) :=
  if startswith "Gi" interface then
    match split "/" (replace "Gi" "" interface) with
    | [a; b; c] => Some (a, b, c)
    | _ => None
    end
  else None.

(** One turn of the first loop; [None] once an exception has been raised
    ([int] is the only call that can raise). *)
Definition group_step (acc : option groups) (interface : string) : option groups :=
  g ← acc;
  match gi_parts interface with
  | Some (a, b, c) =>
      port_num ← int c;
      Some (group_append (a +:+ "/" +:+ b) port_num g)
  | None => Some g
  end.

Definition _create_interface_ranges (interfaces : list string) : list string :=
  match foldl group_step (Some []) interfaces with
  | Some g => p ← g; _create_port_ranges p.1 (sort p.2)
  | None => (λ interface, "gi" +:+ replace "Gi" "" interface) <$> interfaces
  end.

End Ranges.

(** ** Cache: [cache_manager.py] *)

Module Cache.

Abbreviation bytes := (list Byte.byte).

(** What the cache uses of the Python runtime: [pickle.dumps],
    [pickle.loads], [zlib.compress], [zlib.decompress] and
    [hashlib.md5(..).hexdigest()].  [None] is a raised exception. *)
Class Codec (V : Type) := {
  pickle_dumps : V → option bytes;
  pickle_loads : bytes → option V;
  zlib_compress : bytes → option bytes;
  zlib_decompress : bytes → option bytes;
  md5_hexdigest : string → string
}.

(** What is loaded is what was dumped; decompressing undoes compressing. *)
Class CodecLaws (V : Type) `{Codec V} : Prop := {
  loads_dumps : ∀ v b, pickle_dumps v = Some b → pickle_loads b = Some v;
  decompress_compress : ∀ b c, zlib_compress b = Some c → zlib_decompress c = Some b
}.

Record CacheEntry := mkEntry {
  data : bytes;
  timestamp : Z;
  ttl : Z;
  access_count : Z;
  compressed : bool
}.

(** [CacheEntry.is_expired], read at clock value [now]. *)
Definition is_expired (now : Z) (e : CacheEntry) : bool :=
  now - timestamp e >? ttl e.

(** [CacheEntry.age] *)
Definition age (now : Z) (e : CacheEntry) : Z := now - timestamp e.

Record Stats := mkStats {
  hits : Z;
  misses : Z;
  evictions : Z;
  compressions : Z;
  total_requests : Z
}.

(** An [OrderedDict] from key to entry: oldest first, keys distinct. *)
Abbreviation odict := (list (string * CacheEntry)).

Record ThreadSafeCache := mkCache {
  max_size : Z;
  default_ttl : Z;
  compress_threshold : Z;
  cache : odict;
  stats : Stats
}.

(** [ThreadSafeCache(max_size, default_ttl, compress_threshold)] *)
Definition init (max_size default_ttl compress_threshold : Z) : ThreadSafeCache :=
  mkCache max_size default_ttl compress_threshold [] (mkStats 0 0 0 0 0).

Definition with_cache (d : odict) (c : ThreadSafeCache) : ThreadSafeCache :=
  mkCache (max_size c) (default_ttl c) (compress_threshold c) d (stats c).

Definition with_stats (s : Stats) (c : ThreadSafeCache) : ThreadSafeCache :=
  mkCache (max_size c) (default_ttl c) (compress_threshold c) (cache c) s.

Definition add_hit (s : Stats) : Stats :=
  mkStats (hits s + 1) (misses s) (evictions s) (compressions s) (total_requests s).
Definition add_miss (s : Stats) : Stats :=
  mkStats (hits s) (misses s + 1) (evictions s) (compressions s) (total_requests s).
Definition add_eviction (s : Stats) : Stats :=
  mkStats (hits s) (misses s) (evictions s + 1) (compressions s) (total_requests s).
Definition add_compression (s : Stats) : Stats :=
  mkStats (hits s) (misses s) (evictions s) (compressions s + 1) (total_requests s).
Definition add_request (s : Stats) : Stats :=
  mkStats (hits s) (misses s) (evictions s) (compressions s) (total_requests s + 1).

(** [d[key]] / [key in d] *)
Fixpoint od_lookup (key : string) (d : odict) : option CacheEntry :=
  match d with
  | [] => None
  | (k, e) :: d' => if String.eqb k key then Some e else od_lookup key d'
  end.

(** [del d[key]]: no binding of [key] is left. *)
Definition od_delete (key : string) (d : odict) : odict :=
  filter (λ p, p.1 ≠ key) d.

(** [d[key] = e]: in place when the key is there, at the end otherwise. *)
Fixpoint od_store (key : string) (e : CacheEntry) (d : odict) : odict :=
  match d with
  | [] => [(key, e)]
  | (k, e') :: d' =>
      if String.eqb k key then (k, e) :: d' else (k, e') :: od_store key e d'
  end.

(** [d.move_to_end(key)] for a key that is there. *)
Definition od_move_to_end (key : string) (d : odict) : odict :=
  match od_lookup key d with
  | Some e => od_delete key d ++ [(key, e)]
  | None => d
  end.

Definition od_keys (d : odict) : list string := d.*1.

(** The keys of a dict are distinct. *)
Definition well_formed (c : ThreadSafeCache) : Prop := NoDup (od_keys (cache c)).


Section codec.
Context {V : Type} `{Codec V}.

(** [_generate_key]; the parts are given by their [str()]. *)
Definition _generate_key (key_parts : list string) : string :=
  md5_hexdigest (PyStr.join "|" key_parts).

(** [_compress_data].  The handler calls [pickle.dumps] a second time, so
    a value that cannot be pickled raises out of it ([None]); a failing
    [zlib.compress] is answered with the plain pickle.  The test
    [len(compressed) < len(serialized) * 0.9] is taken on integers. *)
Definition _compress_data (threshold : Z) (value : V) : option (bytes * bool) :=
  match pickle_dumps value with
  | None => None
  | Some serialized =>
      if Z.of_nat (length serialized) >? threshold then
        match zlib_compress serialized with
        | Some compressed =>
            if 10 * Z.of_nat (length compressed) <? 9 * Z.of_nat (length serialized)
            then Some (compressed, true)
            else Some (serialized, false)
        | None => Some (serialized, false)
        end
      else Some (serialized, false)
  end.

(** [_decompress_data]; [None] is the re-raised exception. *)
Definition _decompress_data (d : bytes) (is_compressed : bool) : option V :=
  if is_compressed then zlib_decompress d ≫= pickle_loads else pickle_loads d.

(** [entry.access_count += 1] *)
Definition touch (e : CacheEntry) : CacheEntry :=
  mkEntry (data e) (timestamp e) (ttl e) (access_count e + 1) (compressed e).

(** [get(key_parts)] with the default [default=None]; the second component
    is [None] when [default] is returned. *)
Definition get (key_parts : list string) (now : Z) (c : ThreadSafeCache)
  : ThreadSafeCache * option V :=
  let key := _generate_key key_parts in
  let c := with_stats (add_request (stats c)) c in
  match od_lookup key (cache c) with
  | Some entry =>
      if is_expired now entry then
        (with_stats (add_miss (stats c)) (with_cache (od_delete key (cache c)) c), None)
      else
        let c := with_cache (od_store key (touch entry) (od_move_to_end key (cache c))) c in
        let c := with_stats (add_hit (stats c)) c in
        match _decompress_data (data entry) (compressed entry) with
        | Some v => (c, Some v)
        | None =>
            (with_stats (add_miss (stats c)) (with_cache (od_delete key (cache c)) c), None)
        end
  | None => (with_stats (add_miss (stats c)) c, None)
  end.

(** How a call ends: it returns, or an exception leaves it. *)
Inductive completion := Returns | Raises.

(** The eviction loop of [set]: [next(iter(self.cache))] raises
    [StopIteration] on an empty dict, which a negative [max_size] reaches. *)
Fixpoint evict (max_size : Z) (d : odict) (s : Stats) : odict * Stats * completion :=
  match d with
  | [] => ([], s, if 0 >? max_size then Raises else Returns)
  | _ :: d' =>
      if Z.of_nat (length d) >? max_size then evict max_size d' (add_eviction s)
      else (d, s, Returns)
  end.

(** [ttl or self.default_ttl] *)
Definition ttl_or_default (ttl : option Z) (default_ttl : Z) : Z :=
  match ttl with
  | Some t => if t =? 0 then default_ttl else t
  | None => default_ttl
  end.

(** [set(key_parts, value, ttl)], the entry stamped with clock value [now]. *)
Definition set (key_parts : list string) (value : V) (ttl : option Z) (now : Z)
    (c : ThreadSafeCache) : ThreadSafeCache * completion :=
  let key := _generate_key key_parts in
  let ttl := ttl_or_default ttl (default_ttl c) in
  match _compress_data (compress_threshold c) value with
  | None => (c, Returns)
  | Some (d, is_compressed) =>
      let s := if is_compressed then add_compression (stats c) else stats c in
      let od := match od_lookup key (cache c) with
                | Some _ => od_delete key (cache c)
                | None => cache c
                end in
      let od := od_store key (mkEntry d now ttl 0 is_compressed) od in
      let '(od, s, r) := evict (max_size c) od s in
      (with_stats s (with_cache od c), r)
  end.

End codec.

(** [invalidate(key_parts)] *)
Definition invalidate `{Codec V} (key_parts : list string) (c : ThreadSafeCache)
  : ThreadSafeCache * bool :=
  let key := _generate_key key_parts in
  match od_lookup key (cache c) with
  | Some _ => (with_cache (od_delete key (cache c)) c, true)
  | None => (c, false)
  end.

(** [clear()] *)
Definition clear (c : ThreadSafeCache) : ThreadSafeCache :=
  with_stats (mkStats 0 0 0 0 0) (with_cache [] c).

(** [cleanup_expired()] at clock value [current_time]. *)
Definition cleanup_expired (current_time : Z) (c : ThreadSafeCache)
  : ThreadSafeCache * Z :=
  let expired := filter (λ p, ttl p.2 < current_time - timestamp p.2) (cache c) in
  (with_cache (foldl (λ d p, od_delete p.1 d) (cache c) expired) c,
   Z.of_nat (length expired)).

(** [a / b] rounded to the nearest integer, halves to the even one. *)
Definition round_div (a b : Z) : Z :=
  let q := a / b in
  let r2 := 2 * (a mod b) in
  if r2 <? b then q
  else if b <? r2 then q + 1
  else if Z.even q then q else q + 1.

(** The dict [get_stats()] returns.  [hit_rate], a percentage rounded to two
    decimals, is held in hundredths of a percent and computed on exact
    integers. *)
Record StatsReport := mkReport {
  r_stats : Stats;
  hit_rate_x100 : Z;
  size : Z;
  r_max_size : Z;
  memory_usage : Z
}.

Definition get_stats (c : ThreadSafeCache) : StatsReport :=
  mkReport (stats c)
           (round_div (hits (stats c) * 10000) (Z.max 1 (total_requests (stats c))))
           (Z.of_nat (length (cache c)))
           (max_size c)
           (foldr (λ p acc, Z.of_nat (length (data p.2)) + acc) 0 (cache c)).

End Cache.

(** ** Command executor: [CiscoManager.send_command] and the channel *)

Module Executor.

Import PyStr.

(** The netmiko session the manager holds in [self.connection], as far as
    the manager uses it.  Each call takes the session to its next state; a
    raised exception is [false], respectively [None].  The keyword arguments
    ([read_timeout], [delay_factor], [cmd_verify], ...) tune the session and
    stay inside it. *)
Class Channel (conn : Type) := {
  conn_host : conn → string;
  conn_clear_buffer : conn → conn * bool;
  conn_send_command : string → conn → conn * option string;
  conn_send_config_set : list string → conn → conn * bool
}.

(** A run of session calls that stops at the first exception. *)
Definition chan (conn A : Type) : Type := conn → conn * option A.

Definition chan_ret {conn A} (a : A) : chan conn A := λ c, (c, Some a).

Definition chan_bind {conn A B} (m : chan conn A) (k : A → chan conn B)
  : chan conn B :=
  λ c, match m c with
       | (c', Some a) => k a c'
       | (c', None) => (c', None)
       end.

Notation "x ⇐ m ;; k" := (chan_bind m (λ x, k))
  (at level 100, m at next level, right associativity).

Record PerformanceStats := mkPerf {
  commands_executed : Z;
  cache_hits : Z;
  cache_misses : Z;
  connection_attempts : Z;
  successful_connections : Z;
  errors : Z
}.

Definition add_command (s : PerformanceStats) : PerformanceStats :=
  mkPerf (commands_executed s + 1) (cache_hits s) (cache_misses s)
         (connection_attempts s) (successful_connections s) (errors s).
Definition add_cache_hit (s : PerformanceStats) : PerformanceStats :=
  mkPerf (commands_executed s) (cache_hits s + 1) (cache_misses s)
         (connection_attempts s) (successful_connections s) (errors s).
Definition add_cache_miss (s : PerformanceStats) : PerformanceStats :=
  mkPerf (commands_executed s) (cache_hits s) (cache_misses s + 1)
         (connection_attempts s) (successful_connections s) (errors s).
Definition add_error (s : PerformanceStats) : PerformanceStats :=
  mkPerf (commands_executed s) (cache_hits s) (cache_misses s)
         (connection_attempts s) (successful_connections s) (errors s + 1).

(** The manager object together with the module-level name it reads,
    [cache_manager.command_cache].  [command_cache = None] stands for that
    attribute lookup raising [AttributeError], which [send_command] catches
    ("Cache not available"); [connection = None] is [self.connection is
    None]. *)
Record CiscoManager (conn : Type) := mkManager {
  connection : option conn;
  connected : bool;
  stats : PerformanceStats;
  command_cache : option Cache.ThreadSafeCache
}.
Arguments mkManager {conn}.
Arguments connection {conn}.
Arguments connected {conn}.
Arguments stats {conn}.
Arguments command_cache {conn}.

(** A call returns a value or raises [CiscoCommandError]. *)
Inductive result (A : Type) := Ok (a : A) | CiscoCommandError.
Arguments Ok {A}.
Arguments CiscoCommandError {A}.

(** The newline character. *)
Definition LF : ascii := "010"%char.

(** [line.split(sep, 1)[1].strip()] under the test [sep in line]. *)
Definition strip_marker (sep : ascii) (line : string) : string :=
  match after_first sep line with
  | Some rest => strip rest
  | None => line
  end.

(** One turn of the loop over [lines]. *)
Definition clean_line (clean_lines : list string) (raw : string) : list string :=
  let line := strip raw in
  if negb (String.eqb line "") && negb (endswith "#" line) && negb (endswith ">" line)
  then
    let line :=
      if startswith "Switch" line || startswith "Router" line
      then strip_marker ">" (strip_marker "#" line)
      else line in
    clean_lines ++ [line]
  else clean_lines.

(** What the clean-up promises of a line: it is not empty, carries no
    blank at either end, and is not a bare prompt (it does not end in '#' or
    '>'). *)
Definition tidy (line : string) : Prop :=
  line ≠ "" ∧ strip line = line
  ∧ endswith "#" line = false ∧ endswith ">" line = false.

(** The clean-up of a fresh output at the end of [send_command]. *)
Definition clean_output (output : string) : string :=
  join (String LF "") (foldl clean_line [] (split LF (strip output))).

Section channel.
Context {conn : Type} `{Channel conn} `{Cache.Codec string}.

Definition with_connection (c : conn) (m : CiscoManager conn) : CiscoManager conn :=
  mkManager (Some c) (connected m) (stats m) (command_cache m).
Definition with_perf (s : PerformanceStats) (m : CiscoManager conn) : CiscoManager conn :=
  mkManager (connection m) (connected m) s (command_cache m).
Definition with_command_cache (c : Cache.ThreadSafeCache) (m : CiscoManager conn)
  : CiscoManager conn :=
  mkManager (connection m) (connected m) (stats m) (Some c).

Definition clear_buffer : chan conn unit :=
  λ c, let '(c', ok) := conn_clear_buffer c in (c', if ok then Some () else None).
Definition channel_send (command : string) : chan conn string :=
  conn_send_command command.
Definition send_config_set (commands : list string) : chan conn unit :=
  λ c, let '(c', ok) := conn_send_config_set commands c in
       (c', if ok then Some () else None).

(** Runs session calls on the manager's connection; [None] also when there
    is no connection object to call. *)
Definition on_connection {A} (run : chan conn A) (m : CiscoManager conn)
  : CiscoManager conn * option A :=
  match connection m with
  | Some c => let '(c', r) := run c in (with_connection c' m, r)
  | None => (m, None)
  end.

(** [_clean_buffer_and_wait]: its own handler swallows every exception. *)
Definition _clean_buffer_and_wait (m : CiscoManager conn) : CiscoManager conn :=
  (on_connection (_ ⇐ clear_buffer;; _ ⇐ channel_send "";; clear_buffer) m).1.

Fixpoint send_each (commands : list string) : chan conn unit :=
  match commands with
  | [] => chan_ret ()
  | cmd :: rest => _ ⇐ channel_send cmd;; send_each rest
  end.

(** [_send_config_command_safe]: [send_config_set] first, the manual
    sequence when that raises, and [False] after the emergency exit when the
    manual sequence raises as well. *)
Definition _send_config_command_safe (commands : list string) (m : CiscoManager conn)
  : CiscoManager conn * bool :=
  match on_connection (send_config_set commands) m with
  | (m, Some _) => (m, true)
  | (m, None) =>
      let m := _clean_buffer_and_wait m in
      match on_connection (_ ⇐ channel_send "configure terminal";;
                           _ ⇐ send_each commands;;
                           channel_send "end") m with
      | (m, Some _) => (_clean_buffer_and_wait m, true)
      | (m, None) =>
          ((on_connection (_ ⇐ channel_send "end";; channel_send "exit") m).1, false)
      end
  end.

(** [cache_key = (self.connection.host, command)]; [None] is the
    [AttributeError] of a missing session object, which leaves the name
    unbound. *)
Definition cache_key (command : string) (m : CiscoManager conn) : option (list string) :=
  (λ c, [conn_host c; command]) <$> connection m.

(** The [if use_cache:] block at the head of [send_command]: the manager
    after it, and the cached text when the call returns it. *)
Definition cache_check (command : string) (now : Z) (m : CiscoManager conn)
  : CiscoManager conn * option string :=
  match cache_key command m, command_cache m with
  | Some key, Some cc =>
      let '(cc', cached) := Cache.get key now cc in
      let m := with_command_cache cc' m in
      match cached with
      | Some text =>
          if String.eqb text "" then (with_perf (add_cache_miss (stats m)) m, None)
          else (with_perf (add_cache_hit (stats m)) m, Some text)
      | None => (with_perf (add_cache_miss (stats m)) m, None)
      end
  | _, _ => (with_perf (add_cache_miss (stats m)) m, None)
  end.

(** The [if use_cache and output:] block, with the [cache_key] bound at
    the head of the call.  The attribute lookup comes first: without a
    cache it raises the [AttributeError] that is passed over.  [false] is an
    exception that leaves the block: [set] raising, or the name [cache_key]
    being unbound. *)
Definition cache_store (key : option (list string)) (output : string) (now : Z)
    (m : CiscoManager conn) : CiscoManager conn * bool :=
  match command_cache m with
  | Some cc =>
      match key with
      | Some k =>
          let '(cc', r) := Cache.set k output (Some 60) now cc in
          (with_command_cache cc' m,
           match r with Cache.Returns => true | Cache.Raises => false end)
      | None => (m, false)
      end
  | None => (m, true)
  end.

(** [send_command(command, delay_factor, use_cache)].  [now_get] and
    [now_set] are the clock values the cache reads in [get] and [set]. *)
Definition send_command (command : string) (use_cache : bool) (now_get now_set : Z)
    (m : CiscoManager conn) : CiscoManager conn * result string :=
  if negb (connected m) then (m, CiscoCommandError)
  else
    let key := cache_key command m in
    let '(m, cached) :=
      if use_cache then cache_check command now_get m else (m, None) in
    match cached with
    | Some text => (m, Ok text)
    | None =>
        let m := with_perf (add_command (stats m)) m in
        let m := _clean_buffer_and_wait m in
        match on_connection (output ⇐ channel_send command;;
                             _ ⇐ clear_buffer;;
                             chan_ret output) m with
        | (m, None) => (with_perf (add_error (stats m)) m, CiscoCommandError)
        | (m, Some output) =>
            let '(m, stored) :=
              if use_cache && negb (String.eqb output "")
              then cache_store key output now_set m else (m, true) in
            if stored then (m, Ok (clean_output output))
            else (with_perf (add_error (stats m)) m, CiscoCommandError)
        end
    end.

End channel.

End Executor.

(** ** Bulk operations: [bulk_disable_interfaces_optimized] and
       [bulk_enable_interfaces_optimized] *)

Module Bulk.

Import PyStr Ranges Executor.

(** [l[i:i + k]] for [i] in [range(0, len(l), k)], [k] positive. *)
Fixpoint chunks (fuel k : nat) (l : list string) : list (list string) :=
  match fuel with
  | O => []
  | S fuel' =>
      match l with
      | [] => []
      | _ => take k l :: chunks fuel' k (drop k l)
      end
  end.

(** The batches; [None] is the [ValueError] of [range] on a zero step, and
    a negative step gives an empty range. *)
Definition batches (l : list string) (max_batch_size : Z) : option (list (list string)) :=
  if max_batch_size =? 0 then None
  else if max_batch_size <? 0 then Some []
  else Some (chunks (length l) (Z.to_nat max_batch_size) l).

(** [for interface in batch: results[interface] = success] *)
Definition mark (success : bool) (batch : list string) (results : gmap string bool)
  : gmap string bool :=
  foldl (λ r interface, <[interface := success]> r) results batch.

Section channel.
Context {conn : Type} `{Channel conn}.

(** One turn of the batch loop for the final command [action]
    (["shutdown"] or ["no shutdown"]).  [_send_config_command_safe] catches
    every exception itself, so the handler around its call is never
    entered. *)
Definition process_batch (action : string)
    (st : CiscoManager conn * gmap string bool) (batch : list string)
  : CiscoManager conn * gmap string bool :=
  let ranges := _create_interface_ranges batch in
  match ranges with
  | [] => st
  | _ =>
      let range_str := join "," ranges in
      let '(m, success) :=
        _send_config_command_safe ["interface range " +:+ range_str; action] st.1 in
      (m, mark success batch st.2)
  end.

(** The body the two bulk operations share. *)
Definition bulk_apply (action : string) (interfaces : list string)
    (max_batch_size : Z) (m : CiscoManager conn)
  : CiscoManager conn * gmap string bool :=
  match interfaces with
  | [] => (m, ∅)
  | _ =>
      match batches interfaces max_batch_size with
      | Some bs => foldl (process_batch action) (m, ∅) bs
      | None => (m, mark false interfaces ∅)
      end
  end.

Definition bulk_disable_interfaces_optimized := bulk_apply "shutdown".
Definition bulk_enable_interfaces_optimized := bulk_apply "no shutdown".

End channel.

End Bulk.

(** ** Parser: [CiscoParser.parse_basic_interfaces] *)

Module Parser.

Import PyStr.

Record InterfaceRecord := mkRecord {
  status : string;
  vlan : string;
  duplex : string;
  speed : string;
  type_ : string;
  description : string;
  raw_line : string
}.

(** [re.match(r'^[A-Za-z]+\d+/\d+/\d+\s+is\s+', line)].  Each repeated class
    is followed by a character outside it, so the greedy match is the only
    one. *)
Definition generic_pattern (line : string) : bool :=
  match
    foldl (λ rest (item : string → option string), rest ≫= item) (Some line)
      [skip_plus is_alpha; skip_plus is_digit; skip_lit "/";
       skip_plus is_digit; skip_lit "/"; skip_plus is_digit;
       skip_plus is_space; skip_lit "is"; skip_plus is_space]
  with
  | Some _ => true
  | None => false
  end.

(** [any(interface_patterns)] *)
Definition interface_pattern (line : string) : bool :=
  startswith "GigabitEthernet" line
  || startswith "FastEthernet" line
  || startswith "TenGigabitEthernet" line
  || startswith "Ethernet" line
  || generic_pattern line.

(** The status chain on [line.lower()]. *)
Definition basic_status (line_lower : string) : string :=
  if contains "is up" line_lower && contains "line protocol is up" line_lower
  then "connected"
  else if contains "is up" line_lower then "up"
  else if contains "notconnect" line_lower then "notconnect"
  else if contains "is down" line_lower then "down"
  else if contains "administratively down" line_lower then "disabled"
  else "unknown".

(** One turn of the loop over the lines. *)
Definition basic_step (interfaces : gmap string InterfaceRecord) (raw : string)
  : gmap string InterfaceRecord :=
  let line := strip raw in
  if interface_pattern line then
    match split_ws line with
    | interface :: _ :: _ :: _ =>
        <[interface := mkRecord (basic_status (lower line)) "unknown" "unknown"
                                "unknown" "Ethernet" "" line]> interfaces
    | _ => interfaces
    end
  else interfaces.

Definition parse_basic_interfaces (output : string) : gmap string InterfaceRecord :=
  foldl basic_step ∅ (split Executor.LF output).

End Parser.

(** ** Concrete runtimes and sessions, for running the definitions *)

Module Sample.

Import Cache Executor.

(** A runtime on text values: the pickle of a text is its bytes, the digest
    is the identity, and three switches make [pickle.dumps], [pickle.loads]
    or [zlib.compress] raise: [dumps_raises] and [loads_raises] name the
    texts that cannot be pickled, respectively unpickled.  Compressing, when
    it does not raise, gains nothing, so every entry is kept uncompressed. *)
Definition text_codec (dumps_raises loads_raises : string → bool)
    (compress_raises : bool) : Codec string := {|
  pickle_dumps v := if dumps_raises v then None else Some (list_byte_of_string v);
  pickle_loads b :=
    let v := string_of_list_byte b in
    if loads_raises v then None else Some v;
  zlib_compress b := if compress_raises then None else Some b;
  zlib_decompress b := Some b;
  md5_hexdigest s := s
|}.

Definition never (s : string) : bool := false.

(** The runtime in which nothing raises and nothing is compressed. *)
Definition plain_codec : Codec string := {|
  pickle_dumps v := Some (list_byte_of_string v);
  pickle_loads b := Some (string_of_list_byte b);
  zlib_compress b := Some b;
  zlib_decompress b := Some b;
  md5_hexdigest s := s
|}.

(** A session that answers every command with the same text and accepts
    or refuses every configuration set. *)
Record session := mkSession {
  s_host : string;
  s_answer : string;
  s_config_ok : bool;
  s_sent : list string
}.

Definition session_channel : Channel session := {|
  conn_host := s_host;
  conn_clear_buffer c := (c, true);
  conn_send_command cmd c :=
    (mkSession (s_host c) (s_answer c) (s_config_ok c) (s_sent c ++ [cmd]),
     Some (s_answer c));
  conn_send_config_set cmds c :=
    (mkSession (s_host c) (s_answer c) (s_config_ok c) (s_sent c ++ cmds),
     s_config_ok c)
|}.

(** A text given by its lines. *)
Definition text (lines : list string) : string := PyStr.join (String LF "") lines.

Definition manager (answer : string) (config_ok : bool)
    (cc : option ThreadSafeCache) : CiscoManager session :=
  mkManager (Some (mkSession "10.0.0.1" answer config_ok []))
            true (mkPerf 0 0 0 0 0 0) cc.

End Sample.

(** ** Histories of calls on one cache, and [cache_decorator] *)

Module CacheCalls.

Import Cache.

Section codec.
Context {V : Type} `{Codec V}.

(** One call of the public interface of [ThreadSafeCache]. *)
Inductive call :=
  | CallGet (key_parts : list string) (now : Z)
  | CallSet (key_parts : list string) (value : V) (ttl : option Z) (now : Z)
  | CallInvalidate (key_parts : list string)
  | CallCleanup (current_time : Z)
  | CallClear.

(** The cache after one call.  A [set] that raises leaves the cache as the
    eviction loop left it. *)
Definition after (c : ThreadSafeCache) (op : call) : ThreadSafeCache :=
  match op with
  | CallGet k now => (get k now c).1
  | CallSet k v ttl now => (set k v ttl now c).1
  | CallInvalidate k => (invalidate k c).1
  | CallCleanup t => (cleanup_expired t c).1
  | CallClear => clear c
  end.

(** The cache after a history of calls, oldest first. *)
Definition run (ops : list call) (c : ThreadSafeCache) : ThreadSafeCache :=
  foldl after c ops.

(** What a Python call gives back: a value other than [None], [None], or
    an exception. *)
Inductive returned :=
  | Value (v : V)
  | PyNone
  | Raised.

(** The [wrapper] that [cache_decorator(ttl)] puts around [func], called
    with arguments whose key parts [(func.__name__, args, kwargs)] are
    [key_parts].  [func] is what the wrapped function returns when it is
    called; the boolean tells whether it was called. *)
Definition cache_decorator (ttl : option Z) (key_parts : list string)
    (func : returned) (now_get now_set : Z) (c : ThreadSafeCache)
  : ThreadSafeCache * returned * bool :=
  let '(c, result) := get key_parts now_get c in
  match result with
  | Some v => (c, Value v, false)
  | None =>
      match func with
      | Value v =>
          let '(c, r) := set key_parts v ttl now_set c in
          (c, match r with Returns => Value v | Raises => Raised end, true)
      | PyNone => (c, PyNone, true)
      | Raised => (c, Raised, true)
      end
  end.

End codec.

Arguments call V : clear implicits.
Arguments returned V : clear implicits.

End CacheCalls.

(** ** The decorators of [cisco_decorators.py] *)

Module Decorators.

(** How a call ends: with a value, with an exception (of the wrapped
    function or of the sleep between two attempts), or with the [TypeError]
    of [raise None]. *)
Inductive ended (A E : Type) :=
  | Gives (a : A)
  | Throws (e : E)
  | ThrowsTypeError.
Arguments Gives {A E} a.
Arguments Throws {A E} e.
Arguments ThrowsTypeError {A E}.

(** A call of the [wrapper] of [retry_on_failure]: how it ended, how often
    it called [func], and the attempts after which it slept. *)
Record retried (A E : Type) := mkRetried {
  outcome : ended A E;
  calls : nat;
  waits : list nat
}.
Arguments mkRetried {A E} outcome calls waits.
Arguments outcome {A E} r.
Arguments calls {A E} r.
Arguments waits {A E} r.

(** The back-off between two attempts, for [delay] and [backoff_factor] of
    a number type [F]: [wait_time = delay * (backoff_factor ** attempt)]
    and [time.sleep(wait_time)].  [None]: the sleep returns; [Some e]: the
    arithmetic or the sleep raises [e], as [time.sleep] does with a
    [ValueError] for a negative length. *)
Class Sleeper (F E : Type) := {
  sleep_backoff : F → F → nat → option E
}.

Section retry.
Context {A E F : Type} `{Sleeper F E}.

(** The [for attempt in range(max_attempts)] loop with [remaining] turns to
    go.  [func n] is what the [n]-th call of the wrapped function does, a
    value or an [Exception].  The sleep stands inside the handler, so what
    it raises leaves the wrapper. *)
Fixpoint retry_loop (func : nat → A + E) (max_attempts : Z) (delay backoff_factor : F)
    (remaining attempt : nat) (last_exception : option E) (slept : list nat)
  : retried A E :=
  match remaining with
  | O =>
      mkRetried (match last_exception with
                 | Some e => Throws e
                 | None => ThrowsTypeError
                 end) attempt slept
  | S remaining =>
      match func attempt with
      | inl a => mkRetried (Gives a) (S attempt) slept
      | inr e =>
          if Z.of_nat attempt <? max_attempts - 1 then
            match sleep_backoff delay backoff_factor attempt with
            | None =>
                retry_loop func max_attempts delay backoff_factor remaining (S attempt)
                           (Some e) (slept ++ [attempt])
            | Some raised => mkRetried (Throws raised) (S attempt) slept
            end
          else
            retry_loop func max_attempts delay backoff_factor remaining (S attempt)
                       (Some e) slept
      end
  end.

(** [retry_on_failure(max_attempts, delay, backoff_factor)(func)(...)] *)
Definition retry_on_failure (max_attempts : Z) (delay backoff_factor : F)
    (func : nat → A + E) : retried A E :=
  retry_loop func max_attempts delay backoff_factor (Z.to_nat max_attempts) 0 None [].

End retry.

(** A back-off for the examples, for [int] arguments and waits that the
    clock can represent, exceptions by their names: the wait is the exact
    product, [time.sleep] raises for a negative wait and returns
    otherwise. *)
Definition int_sleeper : Sleeper Z string := {|
  sleep_backoff delay backoff_factor attempt :=
    if delay * backoff_factor ^ Z.of_nat attempt <? 0 then Some "ValueError" else None
|}.

Section cache_result.
Context {R : Type}.

(** The [for key in expired_keys: del cache[key]] of the wrapper. *)
Definition clean_old (ttl current_time : Z) (cache : gmap string (R * Z))
  : gmap string (R * Z) :=
  filter (λ item, ¬ (current_time - item.2.2 > ttl)) cache.

(** The [wrapper] of [cache_result(ttl)(func)], called at clock value
    [current_time] with arguments that give [cache_key], on the dict
    [cache] of the decorated function.  [func] is what the wrapped function
    does when it is called, [None] for an exception; the boolean tells
    whether it was called. *)
Definition cache_result (ttl : Z) (cache_key : string) (func : option R)
    (current_time : Z) (cache : gmap string (R * Z))
  : gmap string (R * Z) * option R * bool :=
  let execute :=
    match func with
    | Some result =>
        (clean_old ttl current_time (<[cache_key := (result, current_time)]> cache),
         Some result, true)
    | None => (cache, None, true)
    end in
  match cache !! cache_key with
  | Some (result, timestamp) =>
      if current_time - timestamp <? ttl then (cache, Some result, false) else execute
  | None => execute
  end.

End cache_result.

End Decorators.

(** ** [CiscoParser.parse_mac_table] *)

Module MacTable.

Import PyStr.

Record MacEntry := mkMac {
  vlan : string;
  mac_address : string;
  type_ : string;
  ports : string
}.

(** One turn of the loop over the lines. *)
Definition mac_step (entries : list MacEntry) (raw : string) : list MacEntry :=
  let line := strip raw in
  if String.eqb line "" || contains "Vlan" line || contains "---" line
     || contains "Mac Address" line
  then entries
  else
    match split_ws line with
    | p0 :: p1 :: p2 :: p3 :: rest =>
        entries ++ [mkMac p0 p1 p2 (join " " (p3 :: rest))]
    | _ => entries
    end.

Definition parse_mac_table (output : string) : list MacEntry :=
  foldl mac_step [] (split Executor.LF output).

End MacTable.

(** ** Words, as [str.split()] yields them *)

Module Words.

Import PyStr.

Fixpoint all_chars (p : ascii → bool) (s : string) : bool :=
  match s with
  | "" => true
  | String c s' => p c && all_chars p s'
  end.

(** A word is not empty and holds no white space. *)
Definition word (w : string) : bool :=
  negb (String.eqb w "") && all_chars (λ c, negb (is_space c)) w.

(** The characters of [str(n)] for an [int]. *)
Definition numeral_char (c : ascii) : bool := is_digit c || Ascii.eqb c "-".

End Words.

(** ** What the parsers' results have *)

Module Parsed.

Import PyStr Parser Words.

(** What every record of [parse_basic_interfaces] has, in terms of the
    line [raw] of the output it was read from. *)
Definition read_from (raw interface : string) (r : InterfaceRecord) : Prop :=
  raw_line r = strip raw
  ∧ interface_pattern (raw_line r) = true
  ∧ (∃ second third rest, split_ws (raw_line r) = interface :: second :: third :: rest)
  ∧ word interface = true
  ∧ status r = basic_status (lower (raw_line r))
  ∧ status r ∈ ["connected"; "up"; "notconnect"; "down"; "disabled"; "unknown"]
  ∧ vlan r = "unknown" ∧ duplex r = "unknown" ∧ speed r = "unknown"
  ∧ type_ r = "Ethernet" ∧ description r = "".

(** What every entry of [parse_mac_table] has, in terms of the line [raw]
    it was read from. *)
Definition entry_of (raw : string) (e : MacTable.MacEntry) : Prop :=
  strip raw ≠ ""
  ∧ contains "Vlan" (strip raw) = false
  ∧ contains "---" (strip raw) = false
  ∧ contains "Mac Address" (strip raw) = false
  ∧ split_ws (strip raw)
    = MacTable.vlan e :: MacTable.mac_address e :: MacTable.type_ e
      :: split_ws (MacTable.ports e)
  ∧ split_ws (MacTable.ports e) ≠ []
  ∧ MacTable.ports e = join " " (split_ws (MacTable.ports e))
  ∧ word (MacTable.vlan e) = true ∧ word (MacTable.mac_address e) = true
  ∧ word (MacTable.type_ e) = true.

End Parsed.

(** ** Range texts read back

    What a range text of [_create_port_ranges] names, as the device reads
    it: "gi<slot>/<port>" is one port, "gi<slot>/<start>-<end>" the ports
    from [start] to [end]. *)

Module RangeText.

Import PyStr Ranges.

(** [s.split(sep, 1)] when [sep] occurs in [s]. *)
Fixpoint cut (sep : ascii) (s : string) : option (string * string) :=
  match s with
  | "" => None
  | String c s' =>
      if Ascii.eqb c sep then Some ("", s')
      else '(a, b) ← cut sep s'; Some (String c a, b)
  end.

(** The pair that "<port>" or "<start>-<end>" stands for; the first
    character may be the sign of [start]. *)
Definition read_ports (s : string) : option (Z * Z) :=
  match int s with
  | Some p => Some (p, p)
  | None =>
      match s with
      | "" => None
      | String c rest =>
          '(a, b) ← cut "-" rest;
          first ← int (String c a);
          last ← int b;
          Some (first, last)
      end
  end.

Definition read_range (slot text : string) : option (Z * Z) :=
  rest ← skip_lit ("gi" +:+ slot +:+ "/") text; read_ports rest.

(** Every port number a list of range texts names, in their order; [None]
    when one of the texts is not a range of the slot. *)
Definition expand_ranges (slot : string) (texts : list string) : option (list Z) :=
  expand <$> mapM (read_range slot) texts.

End RangeText.
(** * Properties *)

(** ** Python string methods *)

Module PyStrFacts.

Import PyStr.



Lemma rstrip_cons a s :
  rstrip (String a s)
  = match rstrip s with
    | "" => if is_space a then "" else String a ""
    | r => String a r
    end.
Proof. done. Qed.

















Lemma join_cons2 sep x y ys :
  join sep (x :: y :: ys) = x +:+ sep +:+ join sep (y :: ys).
Proof. done. Qed.




End PyStrFacts.

(** ** Numerals: [str] and [int] on integers *)

Module Numerals.

Import PyStr PyStrFacts Words.

Lemma all_chars_impl (p q : ascii → bool) s :
  (∀ c, p c = true → q c = true) → all_chars p s = true → all_chars q s = true.
Proof.
  intros Hpq. induction s as [|c s IH]; [done|]. cbn.
  intros [Hc Hs]%andb_true_iff. by rewrite (Hpq c Hc), IH.
Qed.

Lemma all_chars_app p a b :
  all_chars p a = true → all_chars p b = true → all_chars p (a +:+ b) = true.
Proof.
  intros Ha Hb. induction a as [|c a IH]; [done|].
  change (String c a +:+ b) with (String c (a +:+ b)). cbn in *.
  apply andb_true_iff in Ha as [Hc Ha]. by rewrite Hc, IH.
Qed.

Lemma numeral_char_plain c :
  numeral_char c = true →
  is_space c = false ∧ Ascii.eqb c "G" = false ∧ Ascii.eqb c "/" = false.
Proof. destruct c as [[] [] [] [] [] [] [] []]; by vm_compute. Qed.

Lemma digit_numeral c : is_digit c = true → numeral_char c = true.
Proof. intros H. unfold numeral_char. by rewrite H. Qed.

Lemma string_of_uint_digits d : all_chars is_digit (NilEmpty.string_of_uint d) = true.
Proof. induction d; done. Qed.

Lemma str_int_chars p : all_chars numeral_char (str_int p) = true.
Proof.
  unfold str_int. destruct p as [|p|p]; cbn [Z.to_int NilZero.string_of_int]; [done|..].
  - unfold NilZero.string_of_uint. destruct (Pos.to_uint p) eqn:Hp; [done|..];
      rewrite <- Hp; apply (all_chars_impl is_digit), string_of_uint_digits;
      apply digit_numeral.
  - cbn [all_chars]. apply andb_true_iff. split; [done|].
    unfold NilZero.string_of_uint. destruct (Pos.to_uint p) eqn:Hp; [done|..];
      rewrite <- Hp; apply (all_chars_impl is_digit), string_of_uint_digits;
      apply digit_numeral.
Qed.

(** *** [int(str(n))] *)

Lemma int_digits_acc d acc after :
  d ≠ Decimal.Nil ∨ after = true →
  int_digits (Z.pos acc) after (NilEmpty.string_of_uint d)
  = Some (Z.pos (Pos.of_uint_acc d acc)).
Proof.
  revert acc after.
  induction d as [|d IH|d IH|d IH|d IH|d IH|d IH|d IH|d IH|d IH|d IH];
    intros acc after Hd.
  { destruct Hd as [?| ->]; done. }
  all: cbn [NilEmpty.string_of_uint int_digits Pos.of_uint_acc];
    change (digit_val _) with (Some 0) || change (digit_val _) with (Some 1)
    || change (digit_val _) with (Some 2) || change (digit_val _) with (Some 3)
    || change (digit_val _) with (Some 4) || change (digit_val _) with (Some 5)
    || change (digit_val _) with (Some 6) || change (digit_val _) with (Some 7)
    || change (digit_val _) with (Some 8) || change (digit_val _) with (Some 9);
    cbv iota beta;
    match goal with
    | |- int_digits ?x true _ = Some (Z.pos (Pos.of_uint_acc _ ?y)) =>
        replace x with (Z.pos y) by lia
    end;
    apply IH; by right.
Qed.

Lemma int_digits_of_uint d after :
  d ≠ Decimal.Nil ∨ after = true →
  int_digits 0 after (NilEmpty.string_of_uint d) = Some (Z.of_N (Pos.of_uint d)).
Proof.
  revert after.
  induction d as [|d IH|d IH|d IH|d IH|d IH|d IH|d IH|d IH|d IH|d IH];
    intros after Hd.
  { destruct Hd as [?| ->]; done. }
  { cbn [NilEmpty.string_of_uint int_digits Pos.of_uint].
    change (digit_val "0") with (Some 0). cbv iota beta.
    change (10 * 0 + 0) with 0. apply IH. by right. }
  all: cbn [NilEmpty.string_of_uint int_digits Pos.of_uint];
    change (digit_val _) with (Some 1) || change (digit_val _) with (Some 2)
    || change (digit_val _) with (Some 3) || change (digit_val _) with (Some 4)
    || change (digit_val _) with (Some 5) || change (digit_val _) with (Some 6)
    || change (digit_val _) with (Some 7) || change (digit_val _) with (Some 8)
    || change (digit_val _) with (Some 9);
    cbv iota beta; cbn [Z.of_N];
    match goal with
    | |- int_digits ?x true _ = Some (Z.pos (Pos.of_uint_acc _ ?y)) =>
        change x with (Z.pos y)
    end;
    apply int_digits_acc; by right.
Qed.

Lemma rstrip_no_space s :
  all_chars (λ c, negb (is_space c)) s = true → rstrip s = s.
Proof.
  induction s as [|c s IH]; [done|]. cbn [all_chars].
  intros [Hc Hs]%andb_true_iff. rewrite rstrip_cons, (IH Hs).
  destruct s; [|done]. by destruct (is_space c).
Qed.

Lemma strip_no_space s :
  all_chars (λ c, negb (is_space c)) s = true → strip s = s.
Proof.
  intros Hs. unfold strip. destruct s as [|c s]; [done|].
  cbn [lstrip]. pose proof Hs as Hs'. cbn [all_chars] in Hs'.
  apply andb_true_iff in Hs' as [Hc _]. destruct (is_space c); [done|].
  by apply rstrip_no_space.
Qed.

Lemma numeral_no_space s :
  all_chars numeral_char s = true → all_chars (λ c, negb (is_space c)) s = true.
Proof.
  apply all_chars_impl. intros c Hc. by destruct (numeral_char_plain c Hc) as (-> & _).
Qed.

Lemma pos_numeral p :
  str_int (Z.pos p) = NilEmpty.string_of_uint (Pos.to_uint p)
  ∧ str_int (Z.neg p) = String "-" (NilEmpty.string_of_uint (Pos.to_uint p)).
Proof.
  unfold str_int. cbn [Z.to_int NilZero.string_of_int]. unfold NilZero.string_of_uint.
  pose proof (DecimalPos.Unsigned.to_uint_nonnil p) as Hp.
  by destruct (Pos.to_uint p).
Qed.

(** [int(str(n))] is [n]. *)
Lemma int_str_int (n : Z) : int (str_int n) = Some n.
Proof.
  unfold int. rewrite strip_no_space by apply numeral_no_space, str_int_chars.
  destruct n as [|p|p]; [done|..].
  - destruct (pos_numeral p) as [-> _].
    pose proof (DecimalPos.Unsigned.to_uint_nonnil p) as Hp.
    assert (Hint : int_digits 0 false (NilEmpty.string_of_uint (Pos.to_uint p))
                   = Some (Z.pos p)).
    { rewrite int_digits_of_uint by (by left).
      by rewrite DecimalPos.Unsigned.of_to. }
    pose proof (string_of_uint_digits (Pos.to_uint p)) as Hd.
    destruct (NilEmpty.string_of_uint (Pos.to_uint p)) as [|c s] eqn:Hs; [done|].
    cbn [all_chars] in Hd. apply andb_true_iff in Hd as [Hc _].
    destruct c as [[] [] [] [] [] [] [] []]; try done.
  - destruct (pos_numeral p) as [_ ->].
    pose proof (DecimalPos.Unsigned.to_uint_nonnil p) as Hp.
    rewrite int_digits_of_uint by (by left).
    by rewrite DecimalPos.Unsigned.of_to.
Qed.

End Numerals.

(** ** Range texts can be read back *)

Module RangeTextFacts.

Import PyStr PyStrFacts Words Numerals Ranges RangeText.

Lemma append_assoc3 (a b c : string) : a +:+ b +:+ c = (a +:+ b) +:+ c.
Proof.
  induction a as [|x a IH]; [done|].
  change (String x (a +:+ b +:+ c) = String x ((a +:+ b) +:+ c)). by f_equal.
Qed.

Lemma prefix_append p r : String.prefix p (p +:+ r) = true.
Proof.
  induction p as [|c p IH]; [by destruct r|].
  change (String c p +:+ r) with (String c (p +:+ r)). cbn [String.prefix].
  by destruct (ascii_dec c c).
Qed.

Lemma length_append a b :
  String.length (a +:+ b) = (String.length a + String.length b)%nat.
Proof.
  induction a as [|c a IH]; [done|].
  change (String c a +:+ b) with (String c (a +:+ b)). cbn [String.length]. by rewrite IH.
Qed.

Lemma substring_all s : String.substring 0 (String.length s) s = s.
Proof. induction s as [|c s IH]; [done|]. cbn. by rewrite IH. Qed.

Lemma substring_append p r :
  String.substring (String.length p) (String.length (p +:+ r) - String.length p) (p +:+ r)
  = r.
Proof.
  rewrite length_append. replace (String.length p + String.length r - String.length p)%nat
    with (String.length r) by lia.
  induction p as [|c p IH]; [apply substring_all|].
  change (String c p +:+ r) with (String c (p +:+ r)). exact IH.
Qed.

(** [skip_lit] takes a literal off the text that starts with it. *)
Lemma skip_lit_append p r : skip_lit p (p +:+ r) = Some r.
Proof. unfold skip_lit. by rewrite prefix_append, substring_append. Qed.

Lemma cut_append sep a b :
  all_chars (λ c, negb (Ascii.eqb c sep)) a = true →
  cut sep (a +:+ String sep b) = Some (a, b).
Proof.
  induction a as [|c a IH].
  - intros _. change ("" +:+ String sep b) with (String sep b).
    cbn [cut]. by rewrite Ascii.eqb_refl.
  - cbn [all_chars]. intros [Hc Ha]%andb_true_iff.
    change (String c a +:+ String sep b) with (String c (a +:+ String sep b)).
    cbn [cut]. destruct (Ascii.eqb c sep); [done|]. by rewrite (IH Ha).
Qed.

Lemma digit_val_Some c : is_digit c = true → ∃ d, digit_val c = Some d.
Proof. intros H. unfold digit_val. rewrite H. by eexists. Qed.

(** A dash after digits is where [int] raises. *)
Lemma int_digits_stop acc after ds rest :
  all_chars is_digit ds = true →
  int_digits acc after (ds +:+ String "-" rest) = None.
Proof.
  revert acc after. induction ds as [|c ds IH]; intros acc after.
  - intros _. change ("" +:+ String "-" rest) with (String "-" rest).
    cbn. by destruct after.
  - cbn [all_chars]. intros [Hc Hds]%andb_true_iff.
    change (String c ds +:+ String "-" rest) with (String c (ds +:+ String "-" rest)).
    cbn [int_digits]. destruct (digit_val_Some c Hc) as [d ->]. by apply IH.
Qed.

Lemma int_digit_head c r :
  is_digit c = true → strip (String c r) = String c r →
  int (String c r) = int_digits 0 false (String c r).
Proof.
  intros Hc Hs. unfold int. rewrite Hs.
  destruct c as [[] [] [] [] [] [] [] []]; done.
Qed.

Lemma int_minus_head r :
  strip (String "-" r) = String "-" r →
  int (String "-" r) = Z.opp <$> int_digits 0 false r.
Proof. intros Hs. unfold int. by rewrite Hs. Qed.

(** The numeral of an integer: digits, after a sign when it is negative. *)
Lemma str_int_shape n :
  ∃ c ds, str_int n = String c ds
          ∧ all_chars is_digit ds = true
          ∧ (is_digit c = true ∨ c = "-"%char).
Proof.
  destruct n as [|p|p].
  - exists "0"%char, "". split; [done|]. split; [done|by left].
  - destruct (pos_numeral p) as [-> _].
    pose proof (string_of_uint_digits (Pos.to_uint p)) as Hd.
    pose proof (DecimalPos.Unsigned.to_uint_nonnil p) as Hp.
    destruct (NilEmpty.string_of_uint (Pos.to_uint p)) as [|c ds] eqn:Hs.
    { by destruct (Pos.to_uint p). }
    cbn [all_chars] in Hd. apply andb_true_iff in Hd as [Hc Hds].
    exists c, ds. split; [done|]. split; [done|by left].
  - destruct (pos_numeral p) as [_ ->].
    eexists _, _. split; [done|]. split; [apply string_of_uint_digits|by right].
Qed.

Lemma digits_no_dash ds :
  all_chars is_digit ds = true → all_chars (λ c, negb (Ascii.eqb c "-")) ds = true.
Proof.
  apply all_chars_impl. intros c Hc.
  destruct c as [[] [] [] [] [] [] [] []]; done.
Qed.

(** [int] raises on "<start>-<end>". *)
Lemma int_of_pair s e : int (str_int s +:+ "-" +:+ str_int e) = None.
Proof.
  assert (Hstrip : strip (str_int s +:+ "-" +:+ str_int e)
                   = str_int s +:+ "-" +:+ str_int e).
  { apply strip_no_space, numeral_no_space.
    apply all_chars_app; [apply str_int_chars|].
    change ("-" +:+ ?x) with (String "-" x). cbn [all_chars].
    apply andb_true_iff. split; [done|apply str_int_chars]. }
  destruct (str_int_shape s) as (c & ds & Hs & Hds & Hc).
  rewrite Hs in *. change ("-" +:+ ?x) with (String "-" x) in *.
  change (String c ds +:+ ?x) with (String c (ds +:+ x)) in *.
  destruct Hc as [Hc| ->].
  - rewrite (int_digit_head c _ Hc Hstrip).
    change (String c (ds +:+ ?x)) with (String c ds +:+ x).
    apply int_digits_stop. cbn [all_chars]. by rewrite Hc, Hds.
  - rewrite (int_minus_head _ Hstrip). by rewrite int_digits_stop.
Qed.

Lemma read_ports_one p : read_ports (str_int p) = Some (p, p).
Proof. unfold read_ports. by rewrite int_str_int. Qed.

Lemma read_ports_pair s e : read_ports (str_int s +:+ "-" +:+ str_int e) = Some (s, e).
Proof.
  unfold read_ports. rewrite int_of_pair.
  destruct (str_int_shape s) as (c & ds & Hs & Hds & _).
  pose proof (int_str_int s) as Hint. rewrite Hs in *.
  change ("-" +:+ ?x) with (String "-" x).
  change (String c ds +:+ ?x) with (String c (ds +:+ x)). cbv iota.
  rewrite (cut_append "-" ds (str_int e) (digits_no_dash ds Hds)). cbn [mbind option_bind].
  rewrite Hint. cbn [mbind option_bind]. by rewrite int_str_int.
Qed.

(** What [fmt_range] writes is read back as the range it was written from. *)
Lemma read_range_fmt_range slot (r : Z * Z) : read_range slot (fmt_range slot r) = Some r.
Proof.
  destruct r as [s e]. unfold read_range, fmt_range. cbn [fst snd].
  destruct (Z.eqb_spec s e) as [->|Hne].
  - replace ("gi" +:+ slot +:+ "/" +:+ str_int e)
      with (("gi" +:+ slot +:+ "/") +:+ str_int e).
    + rewrite skip_lit_append. cbn [mbind option_bind]. apply read_ports_one.
    + by rewrite <- !append_assoc3.
  - replace ("gi" +:+ slot +:+ "/" +:+ str_int s +:+ "-" +:+ str_int e)
      with (("gi" +:+ slot +:+ "/") +:+ str_int s +:+ "-" +:+ str_int e).
    + rewrite skip_lit_append. cbn [mbind option_bind]. apply read_ports_pair.
    + by rewrite <- !append_assoc3.
Qed.

(** The two texts of [fmt_range], written out. *)
Lemma fmt_range_text slot (r : Z * Z) :
  fmt_range slot r
  = if r.1 =? r.2 then "gi" +:+ slot +:+ "/" +:+ str_int r.1
    else "gi" +:+ slot +:+ "/" +:+ str_int r.1 +:+ "-" +:+ str_int r.2.
Proof. done. Qed.

Lemma read_ranges_fmt slot (runs : list (Z * Z)) :
  mapM (read_range slot) (fmt_range slot <$> runs) = Some runs.
Proof. apply mapM_fmap_Some, read_range_fmt_range. Qed.

End RangeTextFacts.

(** ** The range compressor *)

Module RangesFacts.

Import PyStr Ranges RangeText RangeTextFacts.

Lemma scan_step_open slot rs s e p :
  scan_step slot (Scan rs (Some (s, e))) p
  = if p =? e + 1 then Scan rs (Some (s, p))
    else Scan (rs ++ [fmt_range slot (s, e)]) (Some (p, p)).
Proof. done. Qed.

Lemma scan_runs slot ports rs s e :
  close_scan slot (foldl (scan_step slot) (Scan rs (Some (s, e))) ports)
  = rs ++ (fmt_range slot <$> runs_from s e ports).
Proof.
  revert rs s e. induction ports as [|p ps IH]; intros rs s e.
  - unfold close_scan. done.
  - cbn [foldl runs_from]. rewrite scan_step_open.
    destruct (p =? e + 1).
    + apply IH.
    + rewrite IH, fmap_cons, <- (assoc_L (++)). done.
Qed.

Lemma create_port_ranges_runs slot ports :
  _create_port_ranges slot ports = fmt_range slot <$> port_runs ports.
Proof.
  destruct ports as [|p ps]; [done|].
  apply (scan_runs slot ps [] p p).
Qed.

Lemma strictly_sorted (l : list Z) :
  StronglySorted Z.le l → NoDup l → StronglySorted Z.lt l.
Proof.
  induction 1 as [|x l Hs IH Hx]; intros Hnd; [constructor|].
  apply NoDup_cons in Hnd as [Hnotin Hnd].
  constructor; [by apply IH|].
  apply Forall_forall. intros y Hy.
  rewrite Forall_forall in Hx. specialize (Hx y Hy).
  assert (x ≠ y) by (intros ->; done). lia.
Qed.

Lemma sort_strictly_sorted (ports : list Z) :
  NoDup ports → StronglySorted Z.lt (sort ports).
Proof.
  intros Hnd. apply strictly_sorted.
  - apply StronglySorted_merge_sort; apply _.
  - unfold sort. by rewrite merge_sort_Permutation.
Qed.

Lemma expand_cons r runs : expand (r :: runs) = seqZ r.1 (r.2 - r.1 + 1) ++ expand runs.
Proof. done. Qed.

Lemma seqZ_one p : seqZ p 1 = [p].
Proof. rewrite seqZ_cons by lia. by rewrite seqZ_nil by lia. Qed.

Lemma runs_from_expand s e ports :
  s ≤ e → StronglySorted Z.lt (e :: ports) →
  expand (runs_from s e ports) = seqZ s (e - s + 1) ++ ports.
Proof.
  revert s e. induction ports as [|p ps IH]; intros s e Hse Hs.
  - cbn [runs_from]. by rewrite expand_cons.
  - apply StronglySorted_inv in Hs as [Hps Hall].
    apply Forall_cons in Hall as [Hep _].
    cbn [runs_from]. destruct (Z.eqb_spec p (e + 1)) as [->|Hne].
    + rewrite IH by (done || lia).
      replace (e + 1 - s + 1) with ((e - s + 1) + 1) by lia.
      rewrite seqZ_app by lia.
      replace (s + (e - s + 1)) with (e + 1) by lia.
      by rewrite seqZ_one, <- (assoc_L (++)).
    + rewrite expand_cons, IH by (done || lia). cbn [fst snd].
      replace (p - p + 1) with 1 by lia. by rewrite seqZ_one.
Qed.

Lemma runs_from_shape s e ports :
  s ≤ e → StronglySorted Z.lt (e :: ports) →
  Forall (λ r, s ≤ r.1 ∧ r.1 ≤ r.2) (runs_from s e ports)
  ∧ StronglySorted gap (runs_from s e ports).
Proof.
  revert s e. induction ports as [|p ps IH]; intros s e Hse Hs.
  - cbn [runs_from]. split; [|by repeat constructor].
    apply Forall_singleton. cbn. lia.
  - apply StronglySorted_inv in Hs as [Hps Hall].
    apply Forall_cons in Hall as [Hep _].
    cbn [runs_from]. destruct (Z.eqb_spec p (e + 1)) as [->|Hne].
    + apply IH; [lia|done].
    + destruct (IH p p) as [Hall Hgap]; [lia|done|].
      split.
      * apply Forall_cons. split; [cbn; lia|].
        eapply Forall_impl; [exact Hall|]. cbn. intros r ?. lia.
      * constructor; [done|].
        eapply Forall_impl; [exact Hall|]. unfold gap. cbn. intros r ?. lia.
Qed.

Lemma port_runs_expand ports :
  StronglySorted Z.lt ports → expand (port_runs ports) = ports.
Proof.
  destruct ports as [|p ps]; [done|]. intros Hs. cbn [port_runs].
  rewrite runs_from_expand by (done || lia).
  replace (p - p + 1) with 1 by lia. by rewrite seqZ_one.
Qed.

Lemma port_runs_shape ports :
  StronglySorted Z.lt ports →
  Forall (λ r, r.1 ≤ r.2) (port_runs ports) ∧ StronglySorted gap (port_runs ports).
Proof.
  destruct ports as [|p ps]; [by repeat constructor|]. intros Hs. cbn [port_runs].
  destruct (runs_from_shape p p ps) as [Hall Hgap]; [lia|done|].
  split; [|done]. eapply Forall_impl; [exact Hall|]. cbn. intros r ?. lia.
Qed.

Lemma strongly_sorted_lookup {A} (R : relation A) (l : list A) i j a b :
  StronglySorted R l → (i < j)%nat → l !! i = Some a → l !! j = Some b → R a b.
Proof.
  intros Hs. revert i j. induction Hs as [|x l Hs IH Hx]; intros i j Hij Hi Hj.
  - by rewrite lookup_nil in Hi.
  - destruct j as [|j]; [lia|]. cbn in Hj. destruct i as [|i].
    + cbn in Hi. injection Hi as ->.
      rewrite Forall_forall in Hx. apply Hx. by eapply list_elem_of_lookup_2.
    + cbn in Hi. apply (IH i j); [lia|done..].
Qed.

Lemma elem_of_expand p runs :
  p ∈ expand runs ↔ ∃ r, r ∈ runs ∧ r.1 ≤ p ≤ r.2.
Proof.
  unfold expand. rewrite list_elem_of_bind.
  split; intros (r & H1 & H2); exists r.
  - apply elem_of_seqZ in H1. split; [done|lia].
  - split; [|done]. apply elem_of_seqZ. lia.
Qed.

(** C1. For distinct port numbers of one slot prefix, sorted as
    [_create_interface_ranges] sorts them, [_create_port_ranges] returns one
    text per range: "gi<slot>/<start>" for a range of one port and
    "gi<slot>/<start>-<end>" otherwise.  Read back, the texts name exactly
    the sorted input (hence a duplicate-free permutation of the input); the
    ranges have start <= end, are pairwise separated by at least one missing
    port (never adjacent, never overlapping), and an isolated port [p] is
    the range (p, p), rendered without a dash. *)
Theorem create_port_ranges_exact_and_maximal (slot : string) (ports : list Z) :
  NoDup ports →
  let runs := port_runs (sort ports) in
  let result := _create_port_ranges slot (sort ports) in
  result
  = (λ r, if r.1 =? r.2 then "gi" +:+ slot +:+ "/" +:+ str_int r.1
          else "gi" +:+ slot +:+ "/" +:+ str_int r.1 +:+ "-" +:+ str_int r.2) <$> runs
  ∧ mapM (read_range slot) result = Some runs
  ∧ expand_ranges slot result = Some (sort ports)
  ∧ expand runs = sort ports
  ∧ expand runs ≡ₚ ports
  ∧ NoDup (expand runs)
  ∧ Forall (λ r, r.1 ≤ r.2) runs
  ∧ (∀ i j r1 r2, (i < j)%nat → runs !! i = Some r1 → runs !! j = Some r2 →
       r1.2 + 1 < r2.1)
  ∧ (∀ p, p ∈ ports → p - 1 ∉ ports → p + 1 ∉ ports →
       (p, p) ∈ runs
       ∧ "gi" +:+ slot +:+ "/" +:+ str_int p ∈ result).
Proof.
  intros Hnd runs result.
  pose proof (sort_strictly_sorted ports Hnd) as Hs.
  pose proof (port_runs_expand _ Hs) as Hexp.
  destruct (port_runs_shape _ Hs) as [Hle Hgap]. fold runs in Hexp, Hle, Hgap.
  assert (Hperm : sort ports ≡ₚ ports) by apply merge_sort_Permutation.
  assert (Hresult : result = fmt_range slot <$> runs) by apply create_port_ranges_runs.
  assert (Hread : mapM (read_range slot) result = Some runs)
    by (rewrite Hresult; apply read_ranges_fmt).
  split; [exact Hresult|].
  split; [exact Hread|].
  split; [unfold expand_ranges; by rewrite Hread, <- Hexp|].
  split; [done|].
  split; [by rewrite Hexp|].
  split; [by rewrite Hexp, Hperm|].
  split; [done|].
  split; [intros i j r1 r2 Hij H1 H2;
          exact (strongly_sorted_lookup gap runs i j r1 r2 Hgap Hij H1 H2)|].
  intros p Hp Hlo Hhi.
  assert (Hin : (p, p) ∈ runs).
  { assert (Hpe : p ∈ expand runs) by (by rewrite Hexp, Hperm).
    apply elem_of_expand in Hpe as ([s e] & Hr & Hsp & Hpe). cbn in Hsp, Hpe.
    destruct (decide (s = p)) as [->|Hsne].
    - destruct (decide (e = p)) as [->|Hene]; [done|].
      exfalso. apply Hhi. rewrite <- Hperm, <- Hexp. apply elem_of_expand.
      exists (p, e). cbn. split; [done|lia].
    - exfalso. apply Hlo. rewrite <- Hperm, <- Hexp. apply elem_of_expand.
      exists (s, e). cbn. split; [done|lia]. }
  split; [done|].
  rewrite Hresult.
  apply list_elem_of_fmap. exists (p, p). split; [|done].
  unfold fmt_range. cbn [fst snd]. by rewrite Z.eqb_refl.
Qed.

Lemma create_port_ranges_exact_and_maximal_witness :
  NoDup [5; 1; 2; 3; 8; 6]
  ∧ _create_port_ranges "1/0" (sort [5; 1; 2; 3; 8; 6])
    = ["gi1/0/1-3"; "gi1/0/5-6"; "gi1/0/8"]
  ∧ expand_ranges "1/0" ["gi1/0/1-3"; "gi1/0/5-6"; "gi1/0/8"] = Some [1; 2; 3; 5; 6; 8].
Proof.
  assert (Hnd : NoDup [5; 1; 2; 3; 8; 6])
    by (apply (bool_decide_unpack _); vm_compute; exact I).
  pose proof (create_port_ranges_exact_and_maximal "1/0" [5; 1; 2; 3; 8; 6] Hnd)
    as (Htext & _ & Hback & _).
  split; [exact Hnd|]. split; [exact Htext|exact Hback].
Defined.

(** The example of the specification. *)
Example create_port_ranges_spec_example :
  _create_port_ranges "1/0" [1; 2; 3; 5; 6; 8] = ["gi1/0/1-3"; "gi1/0/5-6"; "gi1/0/8"].
Proof. reflexivity. Qed.

End RangesFacts.

(** ** The cache *)

Module CacheFacts.

Import Cache.

(** *** The ordered dict *)

Lemma od_lookup_app key d1 d2 :
  od_lookup key (d1 ++ d2)
  = match od_lookup key d1 with Some e => Some e | None => od_lookup key d2 end.
Proof.
  induction d1 as [|[k e] d1 IH]; [done|].
  cbn [app od_lookup]. by destruct (String.eqb k key).
Qed.

Lemma od_lookup_one key e : od_lookup key [(key, e)] = Some e.
Proof. cbn. by rewrite String.eqb_refl. Qed.

Lemma od_lookup_delete key d : od_lookup key (od_delete key d) = None.
Proof.
  unfold od_delete. induction d as [|[k e] d IH]; [done|].
  rewrite filter_cons. cbn [fst]. destruct (decide (k ≠ key)) as [Hne|Heq]; [|done].
  cbn [od_lookup]. destruct (String.eqb_spec k key); [done|exact IH].
Qed.

Lemma od_delete_absent key d : od_lookup key d = None → od_delete key d = d.
Proof.
  unfold od_delete. induction d as [|[k e] d IH]; [done|].
  cbn [od_lookup]. destruct (String.eqb_spec k key) as [->|Hne]; [done|].
  intros Hd. rewrite filter_cons. cbn [fst].
  destruct (decide (k ≠ key)); [|done]. by rewrite IH.
Qed.

Lemma od_delete_app key d1 d2 :
  od_delete key (d1 ++ d2) = od_delete key d1 ++ od_delete key d2.
Proof. apply filter_app. Qed.

Lemma od_delete_one key e : od_delete key [(key, e)] = [].
Proof.
  unfold od_delete. rewrite filter_cons. cbn [fst].
  by destruct (decide (key ≠ key)).
Qed.

Lemma od_store_absent key e d : od_lookup key d = None → od_store key e d = d ++ [(key, e)].
Proof.
  induction d as [|[k e'] d IH]; [done|].
  cbn [od_lookup od_store app]. destruct (String.eqb k key); [done|].
  intros Hd. by rewrite IH.
Qed.

Lemma od_store_last key e e' d :
  od_lookup key d = None → od_store key e' (d ++ [(key, e)]) = d ++ [(key, e')].
Proof.
  induction d as [|[k e0] d IH].
  - intros _. cbn. by rewrite String.eqb_refl.
  - cbn [od_lookup od_store app]. destruct (String.eqb k key); [done|].
    intros Hd. by rewrite IH.
Qed.

Lemma od_lookup_drop key n d : od_lookup key d = None → od_lookup key (drop n d) = None.
Proof.
  revert n. induction d as [|[k e] d IH]; intros [|n]; try done.
  cbn [od_lookup drop]. destruct (String.eqb k key); [done|]. apply IH.
Qed.

Lemma od_lookup_other key key' e d :
  key' ≠ key → od_lookup key (d ++ [(key', e)]) = od_lookup key d.
Proof.
  intros Hne. rewrite od_lookup_app. destruct (od_lookup key d); [done|].
  cbn. by destruct (String.eqb_spec key' key).
Qed.

Lemma od_lookup_delete_other key key' d :
  key' ≠ key → od_lookup key (od_delete key' d) = od_lookup key d.
Proof.
  intros Hne. unfold od_delete. induction d as [|[k e] d IH]; [done|].
  rewrite filter_cons. cbn [fst od_lookup].
  destruct (decide (k ≠ key')) as [Hk|Hk].
  - cbn [od_lookup]. by destruct (String.eqb k key).
  - apply dec_stable in Hk as ->.
    destruct (String.eqb_spec key' key); [done|exact IH].
Qed.

Lemma od_keys_delete key d :
  od_keys (od_delete key d) = filter (λ k, k ≠ key) (od_keys d).
Proof.
  unfold od_keys, od_delete. induction d as [|[k e] d IH]; [done|].
  rewrite fmap_cons, !filter_cons. cbn [fst].
  destruct (decide (k ≠ key)); [|done]. by rewrite fmap_cons, IH.
Qed.

Lemma od_lookup_None key d : od_lookup key d = None ↔ key ∉ od_keys d.
Proof.
  unfold od_keys. induction d as [|[k e] d IH]; [by split; [intros _ ?%elem_of_nil|]|].
  cbn [od_lookup]. rewrite fmap_cons, not_elem_of_cons. cbn [fst].
  destruct (String.eqb_spec k key) as [->|Hne]; [by split; [|intros [? _]]|].
  rewrite IH. split; [by split|by intros [_ ?]].
Qed.

Lemma od_keys_store key e d :
  od_keys (od_store key e d)
  = match od_lookup key d with
    | Some _ => od_keys d
    | None => od_keys d ++ [key]
    end.
Proof.
  unfold od_keys. induction d as [|[k e'] d IH]; [done|].
  cbn [od_store od_lookup]. destruct (String.eqb k key); [done|].
  rewrite !fmap_cons, IH. by destruct (od_lookup key d).
Qed.

Lemma od_delete_NoDup key d : NoDup (od_keys d) → NoDup (od_keys (od_delete key d)).
Proof. rewrite od_keys_delete. apply NoDup_filter. Qed.

Lemma od_store_NoDup key e d : NoDup (od_keys d) → NoDup (od_keys (od_store key e d)).
Proof.
  intros Hd. rewrite od_keys_store.
  destruct (od_lookup key d) eqn:Hl; [done|].
  apply NoDup_app. split; [done|]. split; [|apply NoDup_singleton].
  intros k Hk ->%list_elem_of_singleton. by apply od_lookup_None in Hl.
Qed.

(** *** The eviction loop *)

Lemma iter_eviction n s :
  Nat.iter n add_eviction s
  = mkStats (hits s) (misses s) (evictions s + Z.of_nat n) (compressions s)
            (total_requests s).
Proof.
  induction n as [|n IH].
  - destruct s. cbn. f_equal. lia.
  - rewrite Nat.iter_succ, IH. unfold add_eviction. cbn. f_equal. lia.
Qed.

Lemma evict_spec ms d s :
  0 ≤ ms →
  evict ms d s
  = (drop (length d - Z.to_nat ms) d,
     Nat.iter (length d - Z.to_nat ms) add_eviction s, Returns).
Proof.
  intros Hms. revert s. induction d as [|x d IH]; intros s.
  - cbn. destruct (Z.gtb_spec 0 ms); [lia|done].
  - cbn [evict]. destruct (Z.gtb_spec (Z.of_nat (length (x :: d))) ms) as [Hgt|Hle].
    + rewrite IH. cbn [length] in *.
      replace (S (length d) - Z.to_nat ms)%nat with (S (length d - Z.to_nat ms)) by lia.
      cbn [drop]. by rewrite Nat.iter_succ_r.
    + cbn [length] in *.
      replace (S (length d) - Z.to_nat ms)%nat with 0%nat by lia. done.
Qed.

(** Whatever [max_size] is, the loop leaves an end piece of the dict. *)
Lemma evict_drops ms d s : ∃ n, (evict ms d s).1.1 = drop n d.
Proof.
  revert s. induction d as [|x d IH]; intros s; [by exists 0%nat|].
  cbn [evict]. destruct (_ >? _); [|by exists 0%nat].
  destruct (IH (add_eviction s)) as [n Hn]. by exists (S n).
Qed.

Ltac cache_fields :=
  cbn [cache stats max_size default_ttl compress_threshold with_stats with_cache].

Section codec.
Context {V : Type} `{!Codec V}.

(** *** [_compress_data] and [_decompress_data] *)

Lemma compress_decompress `{!CodecLaws V} threshold (v : V) d is_compressed :
  _compress_data threshold v = Some (d, is_compressed) →
  _decompress_data d is_compressed = Some v.
Proof.
  unfold _compress_data, _decompress_data.
  destruct (pickle_dumps v) as [ser|] eqn:Hser; [|done].
  pose proof (loads_dumps v ser Hser) as Hload.
  destruct (Z.of_nat (length ser) >? threshold); [|by intros [= <- <-]].
  destruct (zlib_compress ser) as [comp|] eqn:Hcomp; [|by intros [= <- <-]].
  destruct (10 * Z.of_nat (length comp) <? 9 * Z.of_nat (length ser)).
  - intros [= <- <-]. by rewrite (decompress_compress ser comp Hcomp).
  - by intros [= <- <-].
Qed.

Lemma compress_data_is_Some threshold (v : V) :
  is_Some (pickle_dumps v) → is_Some (_compress_data threshold v).
Proof.
  intros [ser Hser]. unfold _compress_data. rewrite Hser.
  destruct (_ >? _); [|done]. destruct (zlib_compress ser); [|done].
  by destruct (_ <? _).
Qed.

(** *** [set] *)

(** What [set] leaves behind when the value can be pickled: the entries that
    were there without the key, then the new entry, less what the eviction
    loop takes from the front. *)
Lemma set_stored (c : ThreadSafeCache) k (v : V) ttl now d is_compressed :
  0 ≤ max_size c →
  _compress_data (compress_threshold c) v = Some (d, is_compressed) →
  let key := _generate_key k in
  let od := od_delete key (cache c)
            ++ [(key, mkEntry d now (ttl_or_default ttl (default_ttl c)) 0 is_compressed)] in
  let n := (length od - Z.to_nat (max_size c))%nat in
  (set k v ttl now c).2 = Returns
  ∧ cache (set k v ttl now c).1 = drop n od
  ∧ evictions (stats (set k v ttl now c).1) = evictions (stats c) + Z.of_nat n
  ∧ hits (stats (set k v ttl now c).1) = hits (stats c)
  ∧ misses (stats (set k v ttl now c).1) = misses (stats c)
  ∧ max_size (set k v ttl now c).1 = max_size c.
Proof.
  intros Hms Hcomp key od n. unfold set. rewrite Hcomp.
  change (_generate_key k) with key.
  assert (Hod : od_store key
            (mkEntry d now (ttl_or_default ttl (default_ttl c)) 0 is_compressed)
            (match od_lookup key (cache c) with
             | Some _ => od_delete key (cache c)
             | None => cache c
             end) = od).
  { subst od. destruct (od_lookup key (cache c)) eqn:Hl.
    - apply od_store_absent, od_lookup_delete.
    - rewrite (od_delete_absent _ _ Hl). by apply od_store_absent. }
  rewrite Hod, evict_spec by done. fold n. cbn [fst snd]. cache_fields.
  rewrite iter_eviction. by destruct is_compressed.
Qed.

(** *** [get] *)

Lemma get_absent (c : ThreadSafeCache) k now :
  od_lookup (_generate_key k) (cache c) = None →
  get (V:=V) k now c = (with_stats (add_miss (add_request (stats c))) c, None).
Proof. intros Hl. unfold get. cache_fields. by rewrite Hl. Qed.

Lemma get_expired (c : ThreadSafeCache) k now e :
  od_lookup (_generate_key k) (cache c) = Some e → is_expired now e = true →
  get (V:=V) k now c
  = (mkCache (max_size c) (default_ttl c) (compress_threshold c)
             (od_delete (_generate_key k) (cache c))
             (add_miss (add_request (stats c))), None).
Proof. intros Hl He. unfold get. cache_fields. by rewrite Hl, He. Qed.

Lemma get_fresh (c : ThreadSafeCache) k now e :
  od_lookup (_generate_key k) (cache c) = Some e → is_expired now e = false →
  let key := _generate_key k in
  let moved := od_delete key (cache c) ++ [(key, touch e)] in
  get (V:=V) k now c
  = match _decompress_data (data e) (compressed e) with
    | Some v =>
        (mkCache (max_size c) (default_ttl c) (compress_threshold c) moved
                 (add_hit (add_request (stats c))), Some v)
    | None =>
        (mkCache (max_size c) (default_ttl c) (compress_threshold c) (od_delete key moved)
                 (add_miss (add_hit (add_request (stats c)))), None)
    end.
Proof.
  intros Hl He key moved. subst key moved. unfold get. cache_fields.
  rewrite Hl, He. unfold od_move_to_end. rewrite Hl.
  rewrite (od_store_last _ e (touch e)) by apply od_lookup_delete.
  by destruct (_decompress_data _ _).
Qed.

(** *** The keys stay distinct *)

Lemma well_formed_init ms dt ct : well_formed (init ms dt ct).
Proof. apply NoDup_nil_2. Qed.

Lemma well_formed_get (c : ThreadSafeCache) k now :
  well_formed c → well_formed (get (V:=V) k now c).1.
Proof.
  unfold well_formed. intros Hc. unfold get. cache_fields.
  destruct (od_lookup (_generate_key k) (cache c)) as [e|] eqn:Hl; [|done].
  destruct (is_expired now e); [by apply od_delete_NoDup|].
  assert (Hmoved : NoDup (od_keys (od_store (_generate_key k) (touch e)
                                     (od_move_to_end (_generate_key k) (cache c))))).
  { apply od_store_NoDup. unfold od_move_to_end. rewrite Hl.
    unfold od_keys. rewrite fmap_app. apply NoDup_app.
    split; [by apply od_delete_NoDup|]. split; [|apply NoDup_singleton].
    intros x Hx ->%list_elem_of_singleton.
    by apply (od_lookup_None (_generate_key k) (od_delete (_generate_key k) (cache c)));
      [apply od_lookup_delete|]. }
  destruct (_decompress_data _ _); [done|]. by apply od_delete_NoDup.
Qed.

Lemma well_formed_set (c : ThreadSafeCache) k (v : V) ttl now :
  well_formed c → well_formed (set k v ttl now c).1.
Proof.
  unfold well_formed. intros Hc. unfold set.
  destruct (_compress_data _ _) as [[d ic]|]; [|done].
  set (od := od_store _ _ _).
  assert (Hod : NoDup (od_keys od)).
  { apply od_store_NoDup. destruct (od_lookup _ _); [by apply od_delete_NoDup|done]. }
  destruct (evict_drops (max_size c) od (if ic then add_compression (stats c) else stats c))
    as [n Hn].
  destruct (evict _ _ _) as [[od' s'] r]. cbn [fst snd] in *. cache_fields. subst od'.
  unfold od_keys. rewrite fmap_drop.
  eapply sublist_NoDup; [exact Hod|apply sublist_drop].
Qed.

(** A value that was stored is found: with room for one entry, the new
    entry is the last of the dict. *)
Lemma set_then_lookup (c : ThreadSafeCache) k (v : V) ttl now d is_compressed :
  1 ≤ max_size c →
  _compress_data (compress_threshold c) v = Some (d, is_compressed) →
  ∃ front,
    cache (set k v ttl now c).1
    = front ++ [(_generate_key k,
                 mkEntry d now (ttl_or_default ttl (default_ttl c)) 0 is_compressed)]
    ∧ od_lookup (_generate_key k) front = None.
Proof.
  intros Hms Hcomp.
  destruct (set_stored c k v ttl now d is_compressed) as (_ & Hc & _); [lia|done|].
  rewrite Hc, length_app. cbn [length].
  set (front := od_delete (_generate_key k) (cache c)).
  exists (drop (length front + 1 - Z.to_nat (max_size c)) front). split.
  - apply drop_app_le. lia.
  - apply od_lookup_drop, od_lookup_delete.
Qed.

(** C3 (as amended). In a runtime where unpickling undoes pickling and
    decompressing undoes compressing ([CodecLaws]), a value that can be
    pickled, stored under [k] with ttl [t] (the argument, or [default_ttl]
    when that is absent or zero) at clock value [t0], in a cache with room
    for at least one entry, is returned by [get(k)] as long as its age is at
    most [t]; once the age is strictly greater than [t], [get(k)] returns
    absent and the entry is removed. *)
Theorem get_after_set_by_age `{!CodecLaws V} (c : ThreadSafeCache) k (v : V) ttl t0 now :
  1 ≤ max_size c →
  is_Some (pickle_dumps v) →
  let t := ttl_or_default ttl (default_ttl c) in
  let c1 := (set k v ttl t0 c).1 in
  (now - t0 ≤ t → (get k now c1).2 = Some v)
  ∧ (t < now - t0 →
     (get (V:=V) k now c1).2 = None
     ∧ od_lookup (_generate_key k) (cache (get (V:=V) k now c1).1) = None).
Proof.
  intros Hms Hv t c1.
  destruct (compress_data_is_Some (compress_threshold c) v Hv) as [[d ic] Hcomp].
  destruct (set_then_lookup c k v ttl t0 d ic Hms Hcomp) as (front & Hc & Hfront).
  fold c1 in Hc. fold t in Hc.
  assert (Hl : od_lookup (_generate_key k) (cache c1) = Some (mkEntry d t0 t 0 ic)).
  { rewrite Hc, od_lookup_app, Hfront. apply od_lookup_one. }
  split.
  - intros Hage.
    rewrite (get_fresh c1 k now _ Hl)
      by (unfold is_expired; cbn; destruct (Z.gtb_spec (now - t0) t); [lia|done]).
    cbn [data compressed]. by rewrite (compress_decompress _ _ _ _ Hcomp).
  - intros Hage.
    rewrite (get_expired c1 k now _ Hl)
      by (unfold is_expired; cbn; destruct (Z.gtb_spec (now - t0) t); [done|lia]).
    split; [done|]. cbn [fst cache]. apply od_lookup_delete.
Qed.

(** C4 (as amended). A [set] that stores its value returns normally when
    [max_size] is not negative, leaves at most [max_size] entries, and adds
    to the eviction counter the number of entries the loop removed.  On a
    cache holding [max_size] entries a new key evicts exactly the oldest
    entry and is appended as newest.  A [get] hit moves its entry to the
    newest position, and when [max_size] is at least 2 that key is still
    there after the next [set] of another key. *)
Theorem set_evicts_least_recently_used (c : ThreadSafeCache) k (v : V) ttl now :
  0 ≤ max_size c →
  is_Some (pickle_dumps v) →
  let key := _generate_key k in
  let c' := (set k v ttl now c).1 in
  (set k v ttl now c).2 = Returns
  ∧ Z.of_nat (length (cache c')) ≤ max_size c
  ∧ evictions (stats c')
    = evictions (stats c)
      + (Z.of_nat (length (od_delete key (cache c))) + 1 - Z.of_nat (length (cache c')))
  ∧ (∀ oldest rest,
       cache c = oldest :: rest →
       Z.of_nat (length (cache c)) = max_size c →
       od_lookup key (cache c) = None →
       ∃ e, cache c' = rest ++ [(key, e)]
            ∧ Z.of_nat (length (cache c')) = max_size c
            ∧ evictions (stats c') = evictions (stats c) + 1)
  ∧ (∀ c0 kA nowA,
       c = (get (V:=V) kA nowA c0).1 →
       is_Some (get (V:=V) kA nowA c0).2 →
       (∃ front e, cache c = front ++ [(_generate_key kA, e)])
       ∧ (2 ≤ max_size c → _generate_key kA ≠ key →
          is_Some (od_lookup (_generate_key kA) (cache c')))).
Proof.
  intros Hms Hv key c'.
  destruct (compress_data_is_Some (compress_threshold c) v Hv) as [[d ic] Hcomp].
  destruct (set_stored c k v ttl now d ic Hms Hcomp) as (Hret & Hc & Hev & _).
  fold key in Hc, Hev. fold c' in Hc, Hev.
  set (entry := mkEntry d now (ttl_or_default ttl (default_ttl c)) 0 ic) in *.
  set (od := od_delete key (cache c) ++ [(key, entry)]) in *.
  assert (Hlen : length od = S (length (od_delete key (cache c))))
    by (subst od; rewrite length_app; cbn; lia).
  split; [done|].
  split; [rewrite Hc, length_drop; lia|].
  split; [rewrite Hev, Hc, length_drop; lia|].
  split.
  - intros oldest rest Hfull Hsize Hfresh. exists entry.
    rewrite Hev, Hc. subst od.
    rewrite (od_delete_absent _ _ Hfresh), Hfull in *. cbn [length app] in *.
    replace (S (length rest + 1) - Z.to_nat (max_size c))%nat with 1%nat by lia.
    replace (S (length (rest ++ [(key, entry)])) - Z.to_nat (max_size c))%nat
      with 1%nat by (rewrite length_app; cbn; lia).
    cbn [drop]. rewrite drop_0, length_app. cbn [length]. repeat split; lia.
  - intros c0 kA nowA Hget Hhit.
    assert (Hlast : ∃ front e, cache c = front ++ [(_generate_key kA, e)]).
    { unfold get in Hget, Hhit. revert Hget Hhit. cache_fields.
      destruct (od_lookup (_generate_key kA) (cache c0)) as [e|] eqn:Hl;
        [|by intros _ [? [=]]].
      destruct (is_expired nowA e); [by intros _ [? [=]]|].
      unfold od_move_to_end. rewrite Hl.
      rewrite (od_store_last _ e (touch e)) by apply od_lookup_delete.
      destruct (_decompress_data (data e) (compressed e)); [|by intros _ [? [=]]].
      intros -> _. cbn [fst cache]. eauto. }
    split; [done|]. intros Hms2 Hne.
    destruct Hlast as (front & e & Hfront).
    rewrite Hc. subst od. rewrite Hfront, od_delete_app in *.
    assert (Hkeep : od_delete key [(_generate_key kA, e)] = [(_generate_key kA, e)]).
    { apply od_delete_absent. cbn. by destruct (String.eqb_spec (_generate_key kA) key). }
    rewrite Hkeep in *. rewrite <- (assoc_L (++)).
    rewrite drop_app_le by (rewrite !length_app in *; cbn in *; lia).
    rewrite od_lookup_app. destruct (od_lookup _ (drop _ _)); [done|].
    cbn. rewrite String.eqb_refl. done.
Qed.

(** C5 (the failing case). A [get] that finds an unexpired entry whose bytes
    cannot be decoded returns absent, removes the entry, and has incremented
    both the hit counter and the miss counter of that one request. *)
Theorem get_undecodable_counts_hit_and_miss (c : ThreadSafeCache) k now e :
  od_lookup (_generate_key k) (cache c) = Some e →
  is_expired now e = false →
  _decompress_data (V:=V) (data e) (compressed e) = None →
  (get (V:=V) k now c).2 = None
  ∧ od_lookup (_generate_key k) (cache (get (V:=V) k now c).1) = None
  ∧ hits (stats (get (V:=V) k now c).1) = hits (stats c) + 1
  ∧ misses (stats (get (V:=V) k now c).1) = misses (stats c) + 1
  ∧ total_requests (stats (get (V:=V) k now c).1) = total_requests (stats c) + 1.
Proof.
  intros Hl He Hbad. rewrite (get_fresh c k now e Hl He). cbv zeta. rewrite Hbad.
  cbn [fst snd cache stats]. split; [done|]. split; [apply od_lookup_delete|done].
Qed.

(** In every other case one request moves one of the two counters: a
    returned value is a hit only, an absent or expired key a miss only. *)
Lemma get_counts_once (c : ThreadSafeCache) k now :
  match od_lookup (_generate_key k) (cache c) with
  | None =>
      (get (V:=V) k now c).2 = None
      ∧ hits (stats (get (V:=V) k now c).1) = hits (stats c)
      ∧ misses (stats (get (V:=V) k now c).1) = misses (stats c) + 1
  | Some e =>
      if is_expired now e then
        (get (V:=V) k now c).2 = None
        ∧ hits (stats (get (V:=V) k now c).1) = hits (stats c)
        ∧ misses (stats (get (V:=V) k now c).1) = misses (stats c) + 1
      else
        ∀ v, _decompress_data (data e) (compressed e) = Some v →
          (get (V:=V) k now c).2 = Some v
          ∧ hits (stats (get (V:=V) k now c).1) = hits (stats c) + 1
          ∧ misses (stats (get (V:=V) k now c).1) = misses (stats c)
  end.
Proof.
  destruct (od_lookup _ _) as [e|] eqn:Hl.
  - destruct (is_expired now e) eqn:He.
    + by rewrite (get_expired c k now e Hl He).
    + intros v Hv. rewrite (get_fresh c k now e Hl He). cbv zeta. by rewrite Hv.
  - by rewrite (get_absent c k now Hl).
Qed.

(** When pickling succeeds and only [zlib.compress] raises,
    [_compress_data] catches the exception and returns the plain pickle, and
    [set] stores the value uncompressed. *)
Lemma set_survives_failing_compression (c : ThreadSafeCache) k (v : V) ttl now ser :
  pickle_dumps v = Some ser → zlib_compress ser = None →
  1 ≤ max_size c →
  od_lookup (_generate_key k) (cache (set k v ttl now c).1)
  = Some (mkEntry ser now (ttl_or_default ttl (default_ttl c)) 0 false).
Proof.
  intros Hser Hz Hms.
  assert (Hcomp : _compress_data (compress_threshold c) v = Some (ser, false)).
  { unfold _compress_data. rewrite Hser, Hz. by destruct (_ >? _). }
  destruct (set_then_lookup c k v ttl now ser false Hms Hcomp) as (front & -> & Hf).
  rewrite od_lookup_app, Hf. apply od_lookup_one.
Qed.

(** C9. When the guarded call of [_compress_data] raises, [set] returns
    with the cache (entries, order and counters) exactly as it was: no entry
    is added or replaced, nothing is evicted, and every later [get], of this
    key or another, behaves as before.  The call raises exactly for the
    values whose pickling raises: what [zlib.compress] raises is caught
    inside [_compress_data]. *)
Theorem set_failed_pickle_changes_nothing (c : ThreadSafeCache) k (v : V) ttl now :
  _compress_data (compress_threshold c) v = None →
  pickle_dumps v = None
  ∧ set k v ttl now c = (c, Returns)
  ∧ ∀ k' now', get (V:=V) k' now' (set k v ttl now c).1 = get k' now' c.
Proof.
  intros Hraise.
  assert (Hv : pickle_dumps v = None).
  { destruct (pickle_dumps v) as [ser|] eqn:Hser; [|done].
    destruct (compress_data_is_Some (compress_threshold c) v) as [? Hsome];
      [by rewrite Hser|congruence]. }
  assert (Hset : set k v ttl now c = (c, Returns)) by (unfold set; by rewrite Hraise).
  split; [done|]. split; [done|]. by rewrite Hset.
Qed.

End codec.

(** C10. [clear()] leaves no entry and sets the five counters to zero; the
    statistics read next report size 0, hit rate 0 and no memory in use,
    whatever the cache held and counted before. *)
Theorem clear_resets_entries_and_counters (c : ThreadSafeCache) :
  cache (clear c) = []
  ∧ stats (clear c) = mkStats 0 0 0 0 0
  ∧ r_stats (get_stats (clear c)) = mkStats 0 0 0 0 0
  ∧ size (get_stats (clear c)) = 0
  ∧ hit_rate_x100 (get_stats (clear c)) = 0
  ∧ memory_usage (get_stats (clear c)) = 0
  ∧ r_max_size (get_stats (clear c)) = max_size c.
Proof. by repeat split. Qed.

(** *** Runs on a concrete runtime *)

Import Sample.

Lemma plain_codec_laws : @CodecLaws string plain_codec.
Proof.
  split.
  - intros v b [= <-]. cbn. by rewrite string_of_list_byte_of_string.
  - by intros b c' [= <-].
Qed.

Lemma get_after_set_by_age_witness :
  1 ≤ max_size (init 1000 300 1024)
  ∧ is_Some (@pickle_dumps string plain_codec "IOS 15.2")
  ∧ (@get string plain_codec ["sw1"; "show version"] 130
       (@set string plain_codec ["sw1"; "show version"] "IOS 15.2" (Some 60) 100
          (init 1000 300 1024)).1).2 = Some "IOS 15.2".
Proof.
  assert (H1 : 1 ≤ max_size (init 1000 300 1024)) by (vm_compute; discriminate).
  assert (H2 : is_Some (@pickle_dumps string plain_codec "IOS 15.2"))
    by (eexists; reflexivity).
  split; [exact H1|]. split; [exact H2|].
  apply (proj1 (@get_after_set_by_age string plain_codec plain_codec_laws
                  (init 1000 300 1024) ["sw1"; "show version"] "IOS 15.2"
                  (Some 60) 100 130 H1 H2)).
  vm_compute. discriminate.
Defined.

(** C3 as stated fails at age = ttl: the value stored at clock 100 with ttl
    60 is read at clock 160, at age 60, and is still returned and kept. *)
Lemma get_at_age_equal_ttl_returns_value :
  let key_parts := ["sw1"; "show version"] in
  let c1 := (@set string plain_codec key_parts "IOS 15.2" (Some 60) 100
               (init 1000 300 1024)).1 in
  160 - 100 ≥ 60
  ∧ (@get string plain_codec key_parts 160 c1).2 = Some "IOS 15.2"
  ∧ (@get string plain_codec key_parts 160 c1).2 ≠ None
  ∧ od_lookup (@_generate_key string plain_codec key_parts)
      (cache (@get string plain_codec key_parts 160 c1).1) ≠ None.
Proof. vm_compute. repeat split; done. Qed.

Lemma set_evicts_least_recently_used_witness :
  let c1 := (@set string plain_codec ["B"] "b" None 1
               (@set string plain_codec ["A"] "a" None 0 (init 2 300 1024)).1).1 in
  let c := (@get string plain_codec ["A"] 5 c1).1 in
  0 ≤ max_size c
  ∧ is_Some (@pickle_dumps string plain_codec "c")
  ∧ is_Some (od_lookup (@_generate_key string plain_codec ["A"])
               (cache (@set string plain_codec ["C"] "c" None 6 c).1)).
Proof.
  intros c1 c.
  assert (H1 : 0 ≤ max_size c) by (vm_compute; discriminate).
  assert (H2 : is_Some (@pickle_dumps string plain_codec "c")) by (eexists; reflexivity).
  split; [exact H1|]. split; [exact H2|].
  destruct (@set_evicts_least_recently_used string plain_codec c ["C"] "c" None 6 H1 H2)
    as (_ & _ & _ & _ & Hkeep).
  destruct (Hkeep c1 ["A"] 5 eq_refl) as [_ Hkept].
  - eexists. vm_compute. reflexivity.
  - apply Hkept.
    + vm_compute. discriminate.
    + vm_compute. discriminate.
Defined.

(** C4 as stated fails for [max_size = 1]: the key read just before the
    insertion is the only entry, hence the oldest one, and is evicted. *)
Lemma set_evicts_key_just_read_when_max_size_is_1 :
  let c1 := (@set string plain_codec ["A"] "a" None 0 (init 1 300 1024)).1 in
  let hit := @get string plain_codec ["A"] 1 c1 in
  let c3 := (@set string plain_codec ["B"] "b" None 2 hit.1).1 in
  Z.of_nat (length (cache c1)) = max_size c1
  ∧ hit.2 = Some "a"
  ∧ od_lookup (@_generate_key string plain_codec ["A"]) (cache c3) = None
  ∧ od_keys (cache c3) = [@_generate_key string plain_codec ["B"]].
Proof. vm_compute. by repeat split. Qed.

(** A text whose unpickling raises, stored and then read. *)
Lemma get_undecodable_counts_hit_and_miss_witness :
  let codec := text_codec never (String.eqb "bad") false in
  let c1 := (@set string codec ["k"] "bad" None 0 (init 10 300 1024)).1 in
  let e := mkEntry (list_byte_of_string "bad") 0 300 0 false in
  od_lookup (@_generate_key string codec ["k"]) (cache c1) = Some e
  ∧ is_expired 1 e = false
  ∧ @_decompress_data string codec (data e) (compressed e) = None
  ∧ hits (stats (@get string codec ["k"] 1 c1).1) = hits (stats c1) + 1
  ∧ misses (stats (@get string codec ["k"] 1 c1).1) = misses (stats c1) + 1.
Proof.
  intros codec c1 e.
  assert (H1 : od_lookup (@_generate_key string codec ["k"]) (cache c1) = Some e)
    by (vm_compute; reflexivity).
  assert (H2 : is_expired 1 e = false) by (vm_compute; reflexivity).
  assert (H3 : @_decompress_data string codec (data e) (compressed e) = None)
    by (vm_compute; reflexivity).
  split; [exact H1|]. split; [exact H2|]. split; [exact H3|].
  destruct (@get_undecodable_counts_hit_and_miss string codec c1 ["k"] 1 e H1 H2 H3)
    as (_ & _ & Hh & Hm & _).
  split; [exact Hh|exact Hm].
Defined.

Lemma set_failed_pickle_changes_nothing_witness :
  let codec := text_codec (String.eqb "socket") never false in
  let c := (@set string codec ["k"] "v" None 0 (init 10 300 4)).1 in
  @_compress_data string codec (compress_threshold c) "socket" = None
  ∧ @set string codec ["k"] "socket" None 1 c = (c, Returns)
  ∧ (@get string codec ["k"] 2 (@set string codec ["k"] "socket" None 1 c).1).2
    = Some "v".
Proof.
  intros codec c.
  assert (H1 : @_compress_data string codec (compress_threshold c) "socket" = None)
    by reflexivity.
  pose proof (@set_failed_pickle_changes_nothing string codec c ["k"] "socket" None 1 H1)
    as (_ & Hset & Hget).
  split; [exact H1|]. split; [exact Hset|].
  rewrite (Hget ["k"] 2). vm_compute. reflexivity.
Defined.

(** A runtime in which [zlib.compress] raises: the 11-byte pickle is over
    the threshold of 4, the exception is caught inside [_compress_data], and
    [set] stores the value uncompressed in the cache that was empty. *)
Example set_stores_when_only_compression_raises :
  let codec := text_codec never never true in
  let c := init 10 300 4 in
  let ser := list_byte_of_string "hello world" in
  @pickle_dumps string codec "hello world" = Some ser
  ∧ Z.of_nat (length ser) > compress_threshold c
  ∧ @zlib_compress string codec ser = None
  ∧ cache c = []
  ∧ cache (@set string codec ["k"] "hello world" None 1 c).1
    = [(@_generate_key string codec ["k"], mkEntry ser 1 300 0 false)].
Proof. vm_compute. repeat split; done. Qed.

End CacheFacts.

(** ** The command executor *)

Module ExecutorFacts.

Import PyStr PyStrFacts Cache Executor Sample.

(** *** The clean-up of a fresh output *)







Section channel.
Context {conn : Type} `{!Channel conn} `{!Codec string}.

(** A cache hit is returned as it was stored, without the clean-up. *)
Lemma send_command_hit_is_verbatim (m : CiscoManager conn) command now_get now_set c cc cached :
  connected m = true →
  connection m = Some c →
  command_cache m = Some cc →
  (Cache.get [conn_host c; command] now_get cc).2 = Some cached →
  cached ≠ "" →
  (send_command command true now_get now_set m).2 = Ok cached.
Proof.
  intros Hon Hc Hcc Hget Hne. unfold send_command, cache_check, cache_key.
  rewrite Hon, Hc, Hcc. cbn [negb fmap option_fmap option_map].
  destruct (Cache.get _ _ _) as [cc' r]. cbn [snd] in Hget. subst r.
  by destruct (String.eqb_spec cached "").
Qed.



End channel.

(** A line that is already tidy and does not start with 'Switch' or
    'Router' is kept as it is, with whatever prompt marker it begins with. *)
Lemma clean_line_keeps_other_hosts (clean_lines : list string) (line : string) :
  tidy line →
  startswith "Switch" line = false →
  startswith "Router" line = false →
  clean_line clean_lines line = clean_lines ++ [line].
Proof.
  intros (Hne & Hstrip & Hhash & Hgt) Hs Hr. unfold clean_line.
  rewrite Hstrip, Hhash, Hgt, Hs, Hr.
  by destruct (String.eqb_spec line "").
Qed.

(** C7 (the failing case). As the repository is wired there is no cache
    behind [cache_manager.command_cache], and every call goes to the
    channel.  A switch named core1 answers with a prompt echo, a padded line
    and a bare prompt.  With or without [use_cache], the text returned has
    its blanks and the bare prompt line removed, but the first line still
    begins with the hostname-prompt marker and its separator, "core1#": the
    marker is taken off only from lines that start with 'Switch' or
    'Router', as the same answer of a switch named Switch shows. *)
Theorem send_command_keeps_marker_of_named_host :
  let raw := text ["core1#show clock"; "  12:00:00 UTC "; "core1#"] in
  let m0 := manager raw true None in
  let answer := text ["core1#show clock"; "12:00:00 UTC"] in
  (@send_command session session_channel plain_codec "show clock" false 0 0 m0).2
  = Ok answer
  ∧ (@send_command session session_channel plain_codec "show clock" true 0 0 m0).2
    = Ok answer
  ∧ startswith "core1#" answer = true
  ∧ (@send_command session session_channel plain_codec "show clock" false 0 0
       (manager (text ["Switch#show clock"; "  12:00:00 UTC "; "Switch#"]) true None)).2
    = Ok (text ["show clock"; "12:00:00 UTC"]).
Proof. vm_compute. repeat split; done. Qed.

(** Were a cache bound to [cache_manager.command_cache] (the import of the
    repository binds the module, which has no such attribute, so the program
    as wired does not reach this state): the first call stores the output as
    the channel gave it, and a second call returns that text, not its
    clean-up. *)
Example send_command_cache_hit_returns_raw_output :
  let raw := text ["Switch#show clock"; "  12:00:00 UTC "; "Switch#"] in
  let m0 := manager raw true (Some (init 1000 60 1024)) in
  let first := @send_command session session_channel plain_codec "show clock" true 0 0 m0 in
  let second :=
    @send_command session session_channel plain_codec "show clock" true 1 1 first.1 in
  first.2 = Ok (text ["show clock"; "12:00:00 UTC"])
  ∧ second.2 = Ok raw
  ∧ cache_hits (stats second.1) = 1
  ∧ commands_executed (stats second.1) = 1
  ∧ clean_output raw = text ["show clock"; "12:00:00 UTC"]
  ∧ clean_output raw ≠ raw
  ∧ strip raw = raw.
Proof. vm_compute. repeat split; done. Qed.

(** With no cache behind [cache_manager.command_cache] the same two calls
    both go to the channel and both return the cleaned text. *)
Example send_command_without_cache_cleans_both :
  let raw := text ["Switch#show clock"; "  12:00:00 UTC "; "Switch#"] in
  let m0 := manager raw true None in
  let first := @send_command session session_channel plain_codec "show clock" true 0 0 m0 in
  let second :=
    @send_command session session_channel plain_codec "show clock" true 1 1 first.1 in
  first.2 = Ok (text ["show clock"; "12:00:00 UTC"])
  ∧ second.2 = first.2
  ∧ commands_executed (stats second.1) = 2
  ∧ cache_misses (stats second.1) = 2.
Proof. vm_compute. repeat split; done. Qed.

End ExecutorFacts.

(** ** The interface ranges and the bulk operations *)

Module BulkFacts.

Import PyStr Ranges Executor Bulk Sample.

(** An identifier that fails one of the two guards leaves the groups as
    they are, wherever it stands in the batch. *)
Lemma group_step_skips acc interface :
  gi_parts interface = None → group_step acc interface = acc.
Proof. intros Hg. unfold group_step. rewrite Hg. by destruct acc. Qed.

Lemma groups_ignore_undecomposable before interface after :
  gi_parts interface = None →
  foldl group_step (Some []) (before ++ interface :: after)
  = foldl group_step (Some []) (before ++ after).
Proof.
  intros Hg. rewrite !foldl_app. cbn [foldl]. by rewrite group_step_skips.
Qed.

(** C6 (the failing case). An identifier that does not start with 'Gi', or
    that has not three slash-separated parts, is left out of the returned
    ranges; only when [int] raises on a third part is every identifier of
    the batch passed through as a singleton. *)
Theorem create_interface_ranges_drops_undecomposable :
  gi_parts "Fa0/1" = None
  ∧ gi_parts "Gi1/0" = None
  ∧ _create_interface_ranges ["Gi1/0/1"; "Fa0/1"; "Gi1/0/2"; "Gi1/0"] = ["gi1/0/1-2"]
  ∧ _create_interface_ranges ["Fa0/1"] = []
  ∧ _create_interface_ranges ["Gi1/0/x"; "Fa0/1"] = ["gi1/0/x"; "giFa0/1"].
Proof. vm_compute. by repeat split. Qed.

(** *** When the range list of a batch is empty *)

Lemma group_append_nonempty slot port (g : groups) :
  group_append slot port g ≠ []
  ∧ (Forall (λ p, p.2 ≠ []) g → Forall (λ p, p.2 ≠ []) (group_append slot port g)).
Proof.
  induction g as [|[k ports] g [_ IH]]; cbn [group_append].
  - split; [done|]. intros _. by apply Forall_singleton.
  - destruct (String.eqb k slot); (split; [done|]); intros [Hk Hg]%Forall_cons;
      apply Forall_cons; (split; [|auto]); cbn in *; [|done].
    by destruct ports.
Qed.

Lemma foldl_group_step_None l : foldl group_step None l = None.
Proof. by induction l. Qed.

Lemma foldl_group_step_Some l (g0 g : groups) :
  foldl group_step (Some g0) l = Some g →
  Forall (λ p, p.2 ≠ []) g0 →
  Forall (λ p, p.2 ≠ []) g
  ∧ (g0 ≠ [] ∨ (∃ i, i ∈ l ∧ is_Some (gi_parts i)) → g ≠ []).
Proof.
  revert g0. induction l as [|i l IH]; intros g0 Hfold Hg0.
  - injection Hfold as <-. split; [done|]. intros [?|(i & Hi & _)]; [done|].
    by apply elem_of_nil in Hi.
  - cbn [foldl] in Hfold.
    destruct (group_step (Some g0) i) as [g1|] eqn:Hstep;
      [|by rewrite foldl_group_step_None in Hfold].
    unfold group_step in Hstep. cbn [mbind option_bind] in Hstep.
    destruct (gi_parts i) as [[[a b] c]|] eqn:Hparts.
    + destruct (int c) as [port|]; [|done]. injection Hstep as <-.
      destruct (group_append_nonempty (a +:+ "/" +:+ b) port g0) as [Hne Hall].
      destruct (IH _ Hfold (Hall Hg0)) as [IH1 IH2].
      split; [done|]. intros _. apply IH2. by left.
    + injection Hstep as <-. destruct (IH _ Hfold Hg0) as [IH1 IH2].
      split; [done|]. intros [?|(j & Hj & Hs)]; apply IH2; [by left|].
      apply elem_of_cons in Hj as [->|Hj]; [rewrite Hparts in Hs; by destruct Hs|].
      right. eauto.
Qed.

Lemma runs_from_nonempty s e ports : runs_from s e ports ≠ [].
Proof.
  revert s e. induction ports as [|p ps IH]; intros s e; [done|].
  cbn [runs_from]. destruct (p =? e + 1); [apply IH|done].
Qed.

Lemma create_port_ranges_nonempty slot ports :
  ports ≠ [] → _create_port_ranges slot (sort ports) ≠ [].
Proof.
  intros Hne. rewrite RangesFacts.create_port_ranges_runs.
  destruct (sort ports) as [|p ps] eqn:Hs.
  - exfalso. apply Hne. apply Permutation_nil_r.
    rewrite <- Hs. unfold sort. by rewrite merge_sort_Permutation.
  - cbn [port_runs]. intros Hnil%fmap_nil_inv. by apply runs_from_nonempty in Hnil.
Qed.

(** The range list of a batch is empty exactly when no identifier of the
    batch passes the two guards. *)
Lemma create_interface_ranges_nonempty batch :
  (∃ i, i ∈ batch ∧ is_Some (gi_parts i)) → _create_interface_ranges batch ≠ [].
Proof.
  intros Hgi. unfold _create_interface_ranges.
  destruct (foldl group_step (Some []) batch) as [g|] eqn:Hfold.
  - destruct (foldl_group_step_Some batch [] g Hfold) as [Hall Hne]; [done|].
    destruct g as [|[slot ports] g]; [by destruct Hne; [right|]|].
    apply Forall_cons in Hall as [Hports _]. cbn in Hports.
    rewrite bind_cons. cbn [fst snd]. intros [Hnil _]%app_eq_nil.
    by apply create_port_ranges_nonempty in Hnil.
  - destruct Hgi as (i & Hi & _). destruct batch; [by apply elem_of_nil in Hi|done].
Qed.

Lemma create_interface_ranges_empty batch :
  Forall (λ i, gi_parts i = None) batch → _create_interface_ranges batch = [].
Proof.
  intros Hall. unfold _create_interface_ranges.
  assert (Hfold : foldl group_step (Some []) batch = Some []).
  { induction Hall as [|i l Hi Hl IH]; [done|].
    cbn [foldl]. by rewrite group_step_skips. }
  by rewrite Hfold.
Qed.

(** *** The batches *)

Lemma chunks_spec fuel k (l : list string) :
  (0 < k)%nat → (length l ≤ fuel)%nat →
  concat (chunks fuel k l) = l ∧ Forall (λ b, b ≠ []) (chunks fuel k l).
Proof.
  intros Hk. revert l. induction fuel as [|fuel IH]; intros l Hlen.
  - destruct l; [done|cbn in Hlen; lia].
  - destruct l as [|x l]; [done|]. cbn [chunks].
    destruct (IH (drop k (x :: l))) as [Hcat Hne].
    { rewrite length_drop. cbn [length] in *. lia. }
    split.
    + cbn [concat]. rewrite Hcat. apply take_drop.
    + apply Forall_cons. split; [|done]. destruct k; [lia|done].
Qed.

Lemma mark_lookup success batch (results : gmap string bool) p :
  mark success batch results !! p
  = if decide (p ∈ batch) then Some success else results !! p.
Proof.
  unfold mark. revert results. induction batch as [|i batch IH]; intros results.
  - cbn. destruct (decide (p ∈ [])) as [Hin|]; [by apply elem_of_nil in Hin|done].
  - cbn [foldl]. rewrite IH.
    destruct (decide (p ∈ batch)) as [Hin|Hout].
    + rewrite decide_True; [done|by right].
    + destruct (decide (p = i)) as [->|Hne].
      * rewrite decide_True by left. apply lookup_insert_eq.
      * rewrite decide_False by (intros [?|?]%elem_of_cons; done).
        by apply lookup_insert_ne.
Qed.

Section channel.
Context {conn : Type} `{!Channel conn}.

Lemma process_batch_no_ranges action (st : CiscoManager conn * gmap string bool) batch :
  _create_interface_ranges batch = [] → process_batch action st batch = st.
Proof. intros Hr. unfold process_batch. by rewrite Hr. Qed.

(** C2 (the failing case). For the one-port input ["Fa0/1"] and the default
    batch size the range list of the only batch is empty, no command is
    issued and the returned map is empty: the port has no entry, whatever
    the session would have answered.  This holds for disabling and for
    enabling. *)
Theorem bulk_result_has_no_entry_for_non_gi_port (m : CiscoManager conn) :
  bulk_disable_interfaces_optimized ["Fa0/1"] 12 m = (m, ∅)
  ∧ bulk_enable_interfaces_optimized ["Fa0/1"] 12 m = (m, ∅)
  ∧ (bulk_disable_interfaces_optimized ["Fa0/1"] 12 m).2 !! "Fa0/1" = None
  ∧ (bulk_enable_interfaces_optimized ["Fa0/1"] 12 m).2 !! "Fa0/1" = None.
Proof.
  assert (Hb : ∀ action, bulk_apply action ["Fa0/1"] 12 m = (m, ∅)).
  { intros action. unfold bulk_apply, batches. cbn [Z.eqb Z.ltb Z.compare].
    cbn [length Z.to_nat Pos.to_nat Pos.iter_op Nat.add chunks take drop foldl].
    by apply process_batch_no_ranges. }
  unfold bulk_disable_interfaces_optimized, bulk_enable_interfaces_optimized.
  rewrite !Hb. by repeat split.
Qed.

Lemma process_batch_lookup action (st : CiscoManager conn * gmap string bool) batch p :
  (process_batch action st batch).2 !! p
  = match _create_interface_ranges batch with
    | [] => st.2 !! p
    | r :: rs =>
        if decide (p ∈ batch)
        then Some (_send_config_command_safe
                     ["interface range " +:+ join "," (r :: rs); action] st.1).2
        else st.2 !! p
    end.
Proof.
  unfold process_batch. destruct (_create_interface_ranges batch) as [|r rs]; [done|].
  destruct (_send_config_command_safe _ _) as [m success]. cbn [snd].
  apply mark_lookup.
Qed.

Lemma bulk_batches_lookup action bs (st : CiscoManager conn * gmap string bool) p :
  Forall (λ b, ∃ i, i ∈ b ∧ is_Some (gi_parts i)) bs →
  is_Some (st.2 !! p) ∨ p ∈ concat bs →
  is_Some ((foldl (process_batch action) st bs).2 !! p).
Proof.
  intros Hbs. revert st. induction Hbs as [|b bs Hb Hbs IH]; intros st Hp.
  - destruct Hp as [?|Hp]; [done|]. by apply elem_of_nil in Hp.
  - cbn [foldl]. apply IH. rewrite process_batch_lookup.
    pose proof (create_interface_ranges_nonempty b Hb) as Hne.
    destruct (_create_interface_ranges b) as [|r rs]; [done|].
    destruct (decide (p ∈ b)) as [Hin|Hout]; [by left|].
    destruct Hp as [?|Hp]; [by left|].
    cbn [concat] in Hp. apply elem_of_app in Hp as [?|?]; [done|by right].
Qed.

(** X21. Where the map is complete: with a positive batch size, every port
    of the input has an entry as soon as every identifier passes the two
    guards of [_create_interface_ranges], whatever the batches answer. *)
Lemma bulk_result_complete_for_gi_ports action interfaces max_batch_size
    (m : CiscoManager conn) p :
  0 < max_batch_size →
  Forall (λ i, is_Some (gi_parts i)) interfaces →
  p ∈ interfaces →
  is_Some ((bulk_apply action interfaces max_batch_size m).2 !! p).
Proof.
  intros Hsize Hgi Hp. unfold bulk_apply, batches.
  destruct interfaces as [|i0 rest] eqn:Hi; [by apply elem_of_nil in Hp|].
  rewrite <- Hi in *. clear Hi i0 rest.
  destruct (Z.eqb_spec max_batch_size 0); [lia|].
  destruct (Z.ltb_spec max_batch_size 0); [lia|].
  destruct (chunks_spec (length interfaces) (Z.to_nat max_batch_size) interfaces)
    as [Hcat Hne]; [lia|done|].
  apply bulk_batches_lookup; [|right; by rewrite Hcat].
  rewrite <- Hcat in Hgi. clear Hcat Hp.
  induction Hne as [|b bs Hb Hbs IH]; [done|].
  cbn [concat] in Hgi. apply Forall_app in Hgi as [Hgb Hgbs].
  apply Forall_cons. split; [|by apply IH].
  destruct b as [|i b]; [done|]. apply Forall_cons in Hgb as [Hgi _].
  exists i. split; [by left|done].
Qed.

End channel.

(** Two more runs.  In a batch that holds a 'Gi' port, the other
    identifiers are reported with the batch's outcome although the command
    does not name them; a later batch without a 'Gi' port is not reported at
    all. *)
Example bulk_result_mixed_batches :
  let run := @bulk_disable_interfaces_optimized session session_channel
               ["Gi1/0/1"; "Fa0/1"; "Fa0/2"] 2 (manager "" true None) in
  map_to_list run.2 = [("Gi1/0/1", true); ("Fa0/1", true)]
  ∧ run.2 !! "Fa0/2" = None
  ∧ (connection run.1 ≫= λ c, Some (s_sent c))
    = Some ["interface range gi1/0/1"; "shutdown"].
Proof. vm_compute. by repeat split. Qed.

(** A negative batch size gives no batch, hence an empty map; a zero batch
    size raises in [range] and marks every port as failed. *)
Example bulk_result_by_batch_size :
  (@bulk_disable_interfaces_optimized session session_channel
     ["Gi1/0/1"] (-1) (manager "" true None)).2 = ∅
  ∧ (@bulk_disable_interfaces_optimized session session_channel
       ["Gi1/0/1"] 0 (manager "" true None)).2 !! "Gi1/0/1" = Some false.
Proof. vm_compute. by repeat split. Qed.

End BulkFacts.

(** ** The raw-dump parser *)

Module ParserFacts.

Import PyStr Parser.

(** The branch for "is down" stands before the branch for
    "administratively down". *)
Lemma basic_status_is_down_first (line_lower : string) :
  contains "is up" line_lower = false →
  contains "notconnect" line_lower = false →
  contains "is down" line_lower = true →
  basic_status line_lower = "down".
Proof. intros Hup Hnc Hdown. unfold basic_status. by rewrite Hup, Hnc, Hdown. Qed.

(** C8 (the failing case). The line a switch prints for a port that was
    shut down by the operator holds "administratively down" and, in "line
    protocol is down", also "is down": the parser gives it the status
    'down', not 'disabled'. *)
Theorem parse_basic_admin_down_line_is_down :
  let line := "GigabitEthernet1/0/1 is administratively down, line protocol is down (disabled)" in
  contains "administratively down" (lower line) = true
  ∧ contains "is down" (lower line) = true
  ∧ basic_status (lower line) = "down"
  ∧ parse_basic_interfaces line !! "GigabitEthernet1/0/1"
    = Some (mkRecord "down" "unknown" "unknown" "unknown" "Ethernet" "" line).
Proof. vm_compute. by repeat split. Qed.

(** The other three rules on the lines a switch prints, and the one case in
    which 'disabled' is reached: no "is down" in the line. *)
Example parse_basic_status_examples :
  basic_status (lower "GigabitEthernet1/0/1 is up, line protocol is up (connected)")
  = "connected"
  ∧ basic_status (lower "GigabitEthernet1/0/2 is up, line protocol is down") = "up"
  ∧ basic_status (lower "GigabitEthernet1/0/3 is down, line protocol is down (notconnect)")
    = "notconnect"
  ∧ basic_status (lower "GigabitEthernet1/0/4 administratively down") = "disabled".
Proof. vm_compute. by repeat split. Qed.

End ParserFacts.

(** ** More on the cache *)

Module CacheMore.

Import Cache CacheFacts CacheCalls.

Lemma od_delete_length key d : (length (od_delete key d) ≤ length d)%nat.
Proof. apply length_filter. Qed.

Lemma od_delete_shorter key d e :
  od_lookup key d = Some e → (length (od_delete key d) < length d)%nat.
Proof.
  unfold od_delete. induction d as [|[k e'] d IH]; [done|].
  cbn [od_lookup]. rewrite filter_cons. cbn [fst].
  destruct (String.eqb_spec k key) as [->|Hne].
  - intros _. rewrite decide_False by (intros ?; done).
    pose proof (length_filter (λ p : string * CacheEntry, p.1 ≠ key) d). cbn. lia.
  - intros Hl. rewrite decide_True by done. cbn. specialize (IH Hl). lia.
Qed.

Lemma foldl_delete_length (keys : list (string * CacheEntry)) d :
  (length (foldl (λ d p, od_delete p.1 d) d keys) ≤ length d)%nat.
Proof.
  revert d. induction keys as [|p keys IH]; intros d; [done|].
  cbn [foldl]. etrans; [apply IH|apply od_delete_length].
Qed.

(** *** The sweep *)

Lemma foldl_delete_filter (keys d : list (string * CacheEntry)) :
  foldl (λ d p, od_delete p.1 d) d keys = filter (λ q, q.1 ∉ keys.*1) d.
Proof.
  revert d. induction keys as [|p keys IH]; intros d.
  - cbn. symmetry. induction d as [|q d IHd]; [done|].
    rewrite filter_cons. rewrite decide_True by apply not_elem_of_nil. by f_equal.
  - cbn [foldl]. rewrite IH. unfold od_delete. rewrite list_filter_filter.
    apply list_filter_iff. intros q. rewrite fmap_cons, not_elem_of_cons. tauto.
Qed.

Lemma filter_ext_elem {A} (P Q : A → Prop) `{∀ x, Decision (P x)} `{∀ x, Decision (Q x)}
    (l : list A) :
  (∀ x, x ∈ l → (P x ↔ Q x)) → filter P l = filter Q l.
Proof.
  induction l as [|x l IH]; intros Hext; [done|].
  rewrite !filter_cons.
  assert (Hx : P x ↔ Q x) by (apply Hext; by left).
  assert (Hl : filter P l = filter Q l) by (apply IH; intros y Hy; apply Hext; by right).
  destruct (decide (P x)), (decide (Q x)); try tauto; by rewrite Hl.
Qed.

Lemma NoDup_keys_inj (d : list (string * CacheEntry)) p q :
  NoDup d.*1 → p ∈ d → q ∈ d → p.1 = q.1 → p = q.
Proof.
  induction d as [|x d IH]; intros Hnd Hp Hq Heq; [by apply elem_of_nil in Hp|].
  rewrite fmap_cons in Hnd. apply NoDup_cons in Hnd as [Hx Hnd].
  apply elem_of_cons in Hp as [->|Hp]; apply elem_of_cons in Hq as [->|Hq]; [done| | |by apply IH].
  - exfalso. apply Hx. rewrite Heq. by apply list_elem_of_fmap_2.
  - exfalso. apply Hx. rewrite <- Heq. by apply list_elem_of_fmap_2.
Qed.

Lemma length_filter_split {A} (P : A → Prop) `{∀ x, Decision (P x)} (l : list A) :
  (length (filter P l) + length (filter (λ x, ¬ P x) l) = length l)%nat.
Proof.
  induction l as [|x l IH]; [done|]. rewrite !filter_cons.
  destruct (decide (P x)); [rewrite decide_False by tauto|rewrite decide_True by done];
    cbn [length]; lia.
Qed.

(** X11. On a cache whose keys are distinct, [cleanup_expired] removes
    exactly the entries whose age exceeds their own ttl at the time it
    reads: the entries left are the others, in the order they had, none of
    them is expired, the number returned is the number removed, and no
    counter changes. *)
Theorem cleanup_expired_removes_exactly_the_expired (c : ThreadSafeCache) (t : Z) :
  well_formed c →
  let c' := (cleanup_expired t c).1 in
  cache c' = filter (λ p, is_expired t p.2 = false) (cache c)
  ∧ Forall (λ p, t - timestamp p.2 ≤ ttl p.2) (cache c')
  ∧ (cleanup_expired t c).2 = Z.of_nat (length (cache c)) - Z.of_nat (length (cache c'))
  ∧ stats c' = stats c.
Proof.
  unfold well_formed, od_keys. intros Hwf. cbv zeta. unfold cleanup_expired.
  cbn [fst snd cache stats with_cache].
  set (expired := λ p : string * CacheEntry, ttl p.2 < t - timestamp p.2).
  assert (Hkeep : foldl (λ d p, od_delete p.1 d) (cache c) (filter expired (cache c))
                  = filter (λ p, ¬ expired p) (cache c)).
  { rewrite foldl_delete_filter. apply filter_ext_elem. intros q Hq. split.
    - intros Hnot Hexp. apply Hnot. apply list_elem_of_fmap_2.
      by apply list_elem_of_filter.
    - intros Hnot (p & Heq & [Hexp Hp]%list_elem_of_filter)%list_elem_of_fmap.
      apply Hnot. by rewrite (NoDup_keys_inj (cache c) q p Hwf Hq Hp Heq). }
  rewrite Hkeep.
  assert (Hsame : filter (λ p, ¬ expired p) (cache c)
                  = filter (λ p, is_expired t p.2 = false) (cache c)).
  { apply list_filter_iff. intros p. unfold expired, is_expired.
    destruct (Z.gtb_spec (t - timestamp p.2) (ttl p.2)); split; (done || lia). }
  split; [done|]. split.
  - apply Forall_forall. intros p [Hp _]%list_elem_of_filter. unfold expired in Hp. lia.
  - split; [|done].
    pose proof (length_filter_split expired (cache c)). lia.
Qed.

Section codec.
Context {V : Type} `{!Codec V}.

(** *** What one call does to the size and to the counters *)

Lemma get_shape (c : ThreadSafeCache) k now :
  let c' := (get (V:=V) k now c).1 in
  max_size c' = max_size c
  ∧ default_ttl c' = default_ttl c
  ∧ compress_threshold c' = compress_threshold c
  ∧ (length (cache c') ≤ length (cache c))%nat
  ∧ evictions (stats c') = evictions (stats c)
  ∧ compressions (stats c') = compressions (stats c)
  ∧ total_requests (stats c') = total_requests (stats c) + 1
  ∧ hits (stats c) ≤ hits (stats c') ≤ hits (stats c) + 1
  ∧ misses (stats c) ≤ misses (stats c') ≤ misses (stats c) + 1
  ∧ hits (stats c) + misses (stats c) + 1 ≤ hits (stats c') + misses (stats c').
Proof.
  destruct (od_lookup (_generate_key k) (cache c)) as [e|] eqn:Hl.
  - pose proof (od_delete_shorter _ _ _ Hl) as Hshort.
    destruct (is_expired now e) eqn:He.
    + rewrite (get_expired c k now e Hl He). cbn. repeat split; lia.
    + rewrite (get_fresh c k now e Hl He). cbv zeta.
      destruct (_decompress_data _ _); cbn [fst cache stats max_size default_ttl
        compress_threshold hits misses evictions compressions total_requests
        add_hit add_miss add_request].
      * rewrite length_app. cbn [length]. repeat split; lia.
      * pose proof (od_delete_length (_generate_key k)
                      (od_delete (_generate_key k) (cache c)
                       ++ [(_generate_key k, touch e)])) as Hd.
        rewrite length_app in Hd. cbn [length] in Hd. repeat split; lia.
  - rewrite (get_absent c k now Hl). cbn. repeat split; lia.
Qed.

Lemma set_shape (c : ThreadSafeCache) k (v : V) ttl now :
  let c' := (set k v ttl now c).1 in
  max_size c' = max_size c
  ∧ default_ttl c' = default_ttl c
  ∧ compress_threshold c' = compress_threshold c
  ∧ hits (stats c') = hits (stats c)
  ∧ misses (stats c') = misses (stats c)
  ∧ total_requests (stats c') = total_requests (stats c)
  ∧ (0 ≤ max_size c → Z.of_nat (length (cache c)) ≤ max_size c →
     Z.of_nat (length (cache c')) ≤ max_size c).
Proof.
  cbv zeta. unfold set.
  destruct (_compress_data (compress_threshold c) v) as [[d ic]|] eqn:Hcomp;
    [|by repeat split].
  set (od := od_store _ _ _).
  set (s := if ic then add_compression (stats c) else stats c).
  assert (Hs : hits s = hits (stats c) ∧ misses s = misses (stats c)
               ∧ total_requests s = total_requests (stats c))
    by (subst s; by destruct ic).
  clearbody s od.
  assert (Hev : ∀ d0 s0, hits (evict (max_size c) d0 s0).1.2 = hits s0
                 ∧ misses (evict (max_size c) d0 s0).1.2 = misses s0
                 ∧ total_requests (evict (max_size c) d0 s0).1.2 = total_requests s0
                 ∧ (0 ≤ max_size c →
                    Z.of_nat (length (evict (max_size c) d0 s0).1.1) ≤ max_size c)).
  { induction d0 as [|x d0 IH]; intros s0; [cbn; repeat split; lia|].
    cbn [evict]. destruct (Z.gtb_spec (Z.of_nat (length (x :: d0))) (max_size c)).
    - destruct (IH (add_eviction s0)) as (? & ? & ? & ?). by repeat split.
    - cbn [fst snd]. repeat split; lia. }
  destruct (Hev od s) as (H1 & H2 & H3 & H4).
  destruct (evict (max_size c) od s) as [[od' s'] r]. cbn [fst snd] in *.
  cache_fields. destruct Hs as (? & ? & ?). repeat split; try congruence. auto.
Qed.

Lemma invalidate_shape (c : ThreadSafeCache) k :
  let c' := (invalidate (V:=V) k c).1 in
  max_size c' = max_size c ∧ stats c' = stats c
  ∧ (length (cache c') ≤ length (cache c))%nat.
Proof.
  cbv zeta. unfold invalidate. destruct (od_lookup _ _); [|done].
  cbn. repeat split. apply od_delete_length.
Qed.

Lemma cleanup_shape (c : ThreadSafeCache) t :
  let c' := (cleanup_expired t c).1 in
  max_size c' = max_size c ∧ stats c' = stats c
  ∧ (length (cache c') ≤ length (cache c))%nat.
Proof. cbv zeta. unfold cleanup_expired. cbn. repeat split. apply foldl_delete_length. Qed.

(** X1. Along every history of calls on a cache that starts within its
    bound, [max_size] stays what it was and the number of entries never
    exceeds it. *)
Theorem history_keeps_size_bound (c0 : ThreadSafeCache) (ops : list (call V)) :
  0 ≤ max_size c0 →
  Z.of_nat (length (cache c0)) ≤ max_size c0 →
  max_size (run ops c0) = max_size c0
  ∧ Z.of_nat (length (cache (run ops c0))) ≤ max_size c0.
Proof.
  unfold run. revert c0. induction ops as [|op ops IH]; intros c0 Hms Hlen; [done|].
  cbn [foldl].
  assert (Hstep : max_size (after c0 op) = max_size c0
                  ∧ Z.of_nat (length (cache (after c0 op))) ≤ max_size c0).
  { destruct op as [k now|k v ttl now|k|t|]; cbn [after].
    - destruct (get_shape c0 k now) as (? & _ & _ & ? & _). split; [done|lia].
    - destruct (set_shape c0 k v ttl now) as (? & _ & _ & _ & _ & _ & ?). auto.
    - destruct (invalidate_shape c0 k) as (? & _ & ?). split; [done|lia].
    - destruct (cleanup_shape c0 t) as (? & _ & ?). split; [done|lia].
    - cbn. split; [done|lia]. }
  destruct Hstep as [Hm Hl]. destruct (IH (after c0 op)) as [IH1 IH2]; [lia..|].
  split; [congruence|]. by rewrite <- Hm.
Qed.

(** *** The counters along a history *)

Lemma round_div_bound a b :
  0 < b → 0 ≤ a ≤ 10000 * b → 0 ≤ round_div a b ≤ 10000.
Proof.
  intros Hb [Ha1 Ha2]. unfold round_div.
  pose proof (Z.div_pos a b Ha1 Hb) as Hq0.
  assert (Hq1 : a `div` b ≤ 10000) by (apply Z.div_le_upper_bound; lia).
  pose proof (Z.mod_pos_bound a b Hb) as Hmod.
  pose proof (Z.div_mod a b) as Hdm.
  assert (Hcase : a `div` b = 10000 → a `mod` b = 0) by nia.
  destruct (Z.ltb_spec (2 * (a `mod` b)) b); [lia|].
  destruct (Z.ltb_spec b (2 * (a `mod` b))); [lia|].
  destruct (Z.even _); lia.
Qed.

(** X2. After any history of calls on a new cache the counters are
    consistent: hits and misses are not negative, the hits do not exceed the
    requests, the requests do not exceed hits plus misses, and the hit rate
    that [get_stats] reports lies between 0 and 100 percent. *)
Theorem history_counters_in_range (ms dt ct : Z) (ops : list (call V)) :
  let c := run ops (init ms dt ct) in
  0 ≤ hits (stats c) ≤ total_requests (stats c)
  ∧ 0 ≤ misses (stats c)
  ∧ total_requests (stats c) ≤ hits (stats c) + misses (stats c)
  ∧ 0 ≤ hit_rate_x100 (get_stats c) ≤ 10000.
Proof.
  cbv zeta.
  assert (Hinv : ∀ c0 : ThreadSafeCache,
            0 ≤ hits (stats c0) ≤ total_requests (stats c0)
            ∧ 0 ≤ misses (stats c0)
            ∧ total_requests (stats c0) ≤ hits (stats c0) + misses (stats c0) →
            0 ≤ hits (stats (run ops c0)) ≤ total_requests (stats (run ops c0))
            ∧ 0 ≤ misses (stats (run ops c0))
            ∧ total_requests (stats (run ops c0))
              ≤ hits (stats (run ops c0)) + misses (stats (run ops c0))).
  { unfold run. induction ops as [|op ops IH]; intros c0 Hc0; [done|].
    cbn [foldl]. apply IH.
    destruct op as [k now|k v ttl now|k|t|]; cbn [after].
    - destruct (get_shape c0 k now) as (_ & _ & _ & _ & _ & _ & ? & ? & ? & ?). lia.
    - destruct (set_shape c0 k v ttl now) as (_ & _ & _ & -> & -> & -> & _). done.
    - destruct (invalidate_shape c0 k) as (_ & -> & _). done.
    - destruct (cleanup_shape c0 t) as (_ & -> & _). done.
    - cbn. lia. }
  destruct (Hinv (init ms dt ct)) as (Hh & Hm & Ht); [cbn; lia|].
  split; [done|]. split; [done|]. split; [done|].
  unfold get_stats. cbn [hit_rate_x100]. apply round_div_bound; lia.
Qed.

Lemma od_lookup_elem key d e : od_lookup key d = Some e → ∃ k, (k, e) ∈ d.
Proof.
  induction d as [|[k e'] d IH]; [done|]. cbn [od_lookup].
  destruct (String.eqb k key).
  - intros [= ->]. exists k. by left.
  - intros Hl. destruct (IH Hl) as [k' Hk']. exists k'. by right.
Qed.

(** X3. When unpickling undoes pickling and decompressing undoes
    compressing, every request is counted once: after any history of calls
    on a new cache, hits plus misses equals the number of requests. *)
Theorem history_counts_each_request_once `{!CodecLaws V} (ms dt ct : Z)
    (ops : list (call V)) :
  let c := run ops (init ms dt ct) in
  hits (stats c) + misses (stats c) = total_requests (stats c).
Proof.
  cbv zeta.
  set (good := λ c : ThreadSafeCache,
         hits (stats c) + misses (stats c) = total_requests (stats c)
         ∧ Forall (λ p, is_Some (_decompress_data (V:=V) (data p.2) (compressed p.2)))
             (cache c)).
  assert (Hinv : ∀ c0, good c0 → good (run ops c0)).
  { unfold run. induction ops as [|op ops IH]; intros c0 [Hc Hd]; [done|].
    cbn [foldl]. apply IH. clear IH.
    assert (Hdel : ∀ key d,
              Forall (λ p, is_Some (_decompress_data (V:=V) (data p.2) (compressed p.2))) d →
              Forall (λ p, is_Some (_decompress_data (V:=V) (data p.2) (compressed p.2)))
                (od_delete key d)).
    { intros key d Hall. apply Forall_forall.
      intros x [_ Hx]%list_elem_of_filter. rewrite Forall_forall in Hall. by apply Hall. }
    destruct op as [k now|k v ttl now|k|t|]; cbn [after]; unfold good.
    - destruct (od_lookup (_generate_key k) (cache c0)) as [e|] eqn:Hl.
      + destruct (is_expired now e) eqn:He.
        * rewrite (get_expired c0 k now e Hl He). cbn. split; [lia|by apply Hdel].
        * rewrite (get_fresh c0 k now e Hl He). cbv zeta.
          destruct (od_lookup_elem _ _ _ Hl) as [k' Hk'].
          rewrite Forall_forall in Hd. destruct (Hd _ Hk') as [v Hv]. cbn in Hv.
          rewrite Hv. cbn. split; [lia|].
          apply Forall_app. split; [apply Hdel; by apply Forall_forall|].
          apply Forall_singleton. cbn. by rewrite Hv.
      + rewrite (get_absent c0 k now Hl). cbn. split; [lia|done].
    - destruct (set_shape c0 k v ttl now) as (_ & _ & _ & -> & -> & -> & _).
      split; [done|]. unfold set.
      destruct (_compress_data (compress_threshold c0) v) as [[d ic]|] eqn:Hcomp; [|done].
      set (od := od_store _ _ _).
      assert (Hod : Forall (λ p, is_Some (_decompress_data (V:=V) (data p.2) (compressed p.2)))
                      od).
      { subst od. rewrite od_store_absent.
        - apply Forall_app. split.
          + destruct (od_lookup _ (cache c0)); [by apply Hdel|done].
          + apply Forall_singleton. cbn. by rewrite (compress_decompress _ _ _ _ Hcomp).
        - destruct (od_lookup _ (cache c0)) eqn:Hl; [apply od_lookup_delete|done]. }
      destruct (evict_drops (max_size c0) od
                  (if ic then add_compression (stats c0) else stats c0)) as [n Hn].
      destruct (evict _ _ _) as [[od' s'] r]. cbn [fst snd] in *. cache_fields.
      subst od'. by apply Forall_drop.
    - destruct (invalidate_shape c0 k) as (_ & -> & _). split; [done|].
      unfold invalidate. destruct (od_lookup _ _); [|done]. cbn. by apply Hdel.
    - destruct (cleanup_shape c0 t) as (_ & -> & _). split; [done|].
      unfold cleanup_expired. cbn [fst cache with_cache].
      generalize (filter (λ p, ttl p.2 < t - timestamp p.2) (cache c0)).
      intros keys. revert Hd. generalize (cache c0).
      induction keys as [|p keys IHk]; intros d0 Hd0; [done|].
      cbn [foldl]. by apply IHk, Hdel.
    - cbn. split; [lia|done]. }
  apply (Hinv (init ms dt ct)). split; [done|]. apply Forall_nil_2.
Qed.

(** *** Storing and reading back *)

(** X4. What [_compress_data] returns, [_decompress_data] turns back into
    the value; the compressed form is chosen only for a pickle longer than
    the threshold whose compressed form is more than a tenth shorter, and
    otherwise the plain pickle is kept. *)
Theorem compress_data_round_trip `{!CodecLaws V} threshold (v : V) d flag :
  _compress_data threshold v = Some (d, flag) →
  _decompress_data d flag = Some v
  ∧ (if flag
     then ∃ ser, pickle_dumps v = Some ser ∧ zlib_compress ser = Some d
                 ∧ threshold < Z.of_nat (length ser)
                 ∧ 10 * Z.of_nat (length d) < 9 * Z.of_nat (length ser)
     else pickle_dumps v = Some d).
Proof.
  intros Hcomp. split; [by eapply compress_decompress|].
  unfold _compress_data in Hcomp.
  destruct (pickle_dumps v) as [ser|]; [|done].
  destruct (Z.gtb_spec (Z.of_nat (length ser)) threshold); [|by injection Hcomp as <- <-].
  destruct (zlib_compress ser) as [comp|] eqn:Hz; [|by injection Hcomp as <- <-].
  destruct (Z.ltb_spec (10 * Z.of_nat (length comp)) (9 * Z.of_nat (length ser)));
    injection Hcomp as <- <-; [|done].
  exists ser. repeat split; [done|lia|lia].
Qed.

Lemma string_app_assoc (a b c : string) : (a +:+ b) +:+ c = a +:+ (b +:+ c).
Proof.
  induction a as [|x a IH]; [done|].
  change (String x ((a +:+ b) +:+ c) = String x (a +:+ (b +:+ c))). by f_equal.
Qed.

(** X5. The key parts are joined with '|' before they are hashed, so a
    key whose first two parts are [a] and [b] and a key whose first part is
    [a|b] are one key: [get] and [set] cannot tell them apart. *)
Theorem key_parts_joined_by_bar_collide (a b : string) (rest : list string)
    (c : ThreadSafeCache) (v : V) ttl now :
  _generate_key (a :: b :: rest) = _generate_key ((a +:+ "|" +:+ b) :: rest)
  ∧ get (V:=V) (a :: b :: rest) now c = get ((a +:+ "|" +:+ b) :: rest) now c
  ∧ set (a :: b :: rest) v ttl now c = set ((a +:+ "|" +:+ b) :: rest) v ttl now c.
Proof.
  assert (Hkey : _generate_key (a :: b :: rest)
                 = _generate_key ((a +:+ "|" +:+ b) :: rest)).
  { unfold _generate_key. f_equal. unfold PyStr.join.
    destruct rest as [|r rest]; [done|].
    cbn [String.concat]. by rewrite !string_app_assoc. }
  split; [done|]. unfold get, set. by rewrite Hkey.
Qed.

(** X6. [invalidate] answers whether the key was there, leaves no entry
    for it, changes no counter and no other key, and a [get] that follows
    finds nothing. *)
Theorem invalidate_removes_only_its_key (c : ThreadSafeCache) k :
  let key := _generate_key k in
  let c' := (invalidate (V:=V) k c).1 in
  ((invalidate (V:=V) k c).2 = true ↔ is_Some (od_lookup key (cache c)))
  ∧ od_lookup key (cache c') = None
  ∧ stats c' = stats c
  ∧ (∀ key', key' ≠ key → od_lookup key' (cache c') = od_lookup key' (cache c))
  ∧ (∀ now, (get (V:=V) k now c').2 = None).
Proof.
  cbv zeta. unfold invalidate.
  destruct (od_lookup (_generate_key k) (cache c)) as [e|] eqn:Hl; cbn [fst snd].
  - cache_fields. split; [by split; [eauto|]|]. split; [apply od_lookup_delete|].
    split; [done|]. split.
    + intros key' Hne. apply od_lookup_delete_other. congruence.
    + intros now. rewrite get_absent; [done|]. cbn. apply od_lookup_delete.
  - split; [by split; [|intros [? [=]]]|]. split; [done|]. split; [done|].
    split; [done|]. intros now. by rewrite get_absent.
Qed.

(** A [get] that returns absent leaves no entry under its key. *)
Lemma get_none_leaves_no_entry (c : ThreadSafeCache) k now :
  (get (V:=V) k now c).2 = None →
  od_lookup (_generate_key k) (cache (get (V:=V) k now c).1) = None.
Proof.
  destruct (od_lookup (_generate_key k) (cache c)) as [e|] eqn:Hl.
  - destruct (is_expired now e) eqn:He.
    + rewrite (get_expired c k now e Hl He). cbn [fst snd cache]. intros _.
      apply od_lookup_delete.
    + rewrite (get_fresh c k now e Hl He). cbv zeta.
      destruct (_decompress_data (data e) (compressed e)) as [v|]; cbn [fst snd cache];
        [done|]. intros _. apply od_lookup_delete.
  - rewrite (get_absent c k now Hl). cbn [fst snd]. cache_fields. done.
Qed.

(** X7. A [get] changes no entry of another key.  When it returns a value,
    the entry of its key is the one that was there with its access count
    raised by one, payload, timestamp and ttl untouched, and it is the
    newest entry; when it returns absent, no entry for the key is left. *)
Theorem get_touches_only_its_key (c : ThreadSafeCache) k now :
  let key := _generate_key k in
  let c' := (get (V:=V) k now c).1 in
  (∀ key', key' ≠ key → od_lookup key' (cache c') = od_lookup key' (cache c))
  ∧ match (get (V:=V) k now c).2 with
    | Some v =>
        ∃ e, od_lookup key (cache c) = Some e
             ∧ _decompress_data (data e) (compressed e) = Some v
             ∧ now - timestamp e ≤ ttl e
             ∧ cache c' = od_delete key (cache c) ++ [(key, touch e)]
    | None => od_lookup key (cache c') = None
    end.
Proof.
  cbv zeta.
  destruct (od_lookup (_generate_key k) (cache c)) as [e|] eqn:Hl.
  - destruct (is_expired now e) eqn:He.
    + rewrite (get_expired c k now e Hl He). cbn [fst snd cache].
      split; [|apply od_lookup_delete].
      intros key' Hne. apply od_lookup_delete_other. congruence.
    + rewrite (get_fresh c k now e Hl He). cbv zeta.
      destruct (_decompress_data (data e) (compressed e)) as [v|] eqn:Hv;
        cbn [fst snd cache].
      * split.
        -- intros key' Hne. rewrite od_lookup_other by congruence.
           apply od_lookup_delete_other. congruence.
        -- exists e. split; [done|]. split; [done|]. split; [|done].
           unfold is_expired in He. destruct (Z.gtb_spec (now - timestamp e) (ttl e)); [done|lia].
      * split; [|apply od_lookup_delete].
        intros key' Hne. rewrite od_lookup_delete_other by congruence.
        rewrite od_lookup_other by congruence.
        apply od_lookup_delete_other. congruence.
  - rewrite (get_absent c k now Hl). cbn [fst snd]. cache_fields. by split.
Qed.

(** X8. A [set] that finds room (fewer than [max_size] entries besides its
    own key) evicts nothing: the other entries stay as they were and in
    their order, the new entry is appended as the newest, and every other
    key reads as before. *)
Theorem set_with_room_keeps_the_rest (c : ThreadSafeCache) k (v : V) ttl now :
  is_Some (pickle_dumps v) →
  Z.of_nat (length (od_delete (_generate_key k) (cache c))) < max_size c →
  let key := _generate_key k in
  let c' := (set k v ttl now c).1 in
  (∃ e, cache c' = od_delete key (cache c) ++ [(key, e)]
        ∧ timestamp e = now ∧ Cache.ttl e = ttl_or_default ttl (default_ttl c)
        ∧ access_count e = 0)
  ∧ evictions (stats c') = evictions (stats c)
  ∧ (∀ key', key' ≠ key → od_lookup key' (cache c') = od_lookup key' (cache c)).
Proof.
  intros Hv Hroom key c'.
  destruct (compress_data_is_Some (compress_threshold c) v Hv) as [[d ic] Hcomp].
  destruct (set_stored c k v ttl now d ic) as (_ & Hc & Hev & _); [lia|done|].
  fold key in Hc, Hev. fold c' in Hc, Hev.
  assert (Hn : (length (od_delete key (cache c)
                        ++ [(key, mkEntry d now (ttl_or_default ttl (default_ttl c)) 0 ic)])
                - Z.to_nat (max_size c))%nat = 0%nat)
    by (rewrite length_app; cbn [length]; fold key in Hroom; lia).
  rewrite Hn in Hc, Hev. rewrite drop_0 in Hc.
  split; [by eexists|]. split; [lia|].
  intros key' Hne. rewrite Hc, od_lookup_other by done. by apply od_lookup_delete_other.
Qed.

Lemma evict_all ms d s :
  ms ≤ 0 →
  evict ms d s
  = ([], Nat.iter (length d) add_eviction s, if 0 >? ms then Raises else Returns).
Proof.
  intros Hms. revert s. induction d as [|x d IH]; intros s; [done|].
  cbn [evict]. destruct (Z.gtb_spec (Z.of_nat (length (x :: d))) ms) as [_|Hle];
    [|cbn [length] in Hle; lia].
  rewrite IH. cbn [length]. by rewrite Nat.iter_succ_r.
Qed.

(** X9. With [max_size] zero or negative, a [set] that stores evicts every
    entry, its own included, and counts each of them; the cache is empty
    afterwards.  With a negative [max_size] the eviction loop then asks an
    empty dict for its first key and the call ends with that exception. *)
Theorem set_without_room_empties_the_cache (c : ThreadSafeCache) k (v : V) ttl now :
  max_size c ≤ 0 →
  is_Some (pickle_dumps v) →
  cache (set k v ttl now c).1 = []
  ∧ evictions (stats (set k v ttl now c).1)
    = evictions (stats c)
      + Z.of_nat (length (od_delete (_generate_key k) (cache c))) + 1
  ∧ ((set k v ttl now c).2 = Raises ↔ max_size c < 0)
  ∧ (∀ k' now', (get (V:=V) k' now' (set k v ttl now c).1).2 = None).
Proof.
  intros Hms Hv.
  destruct (compress_data_is_Some (compress_threshold c) v Hv) as [[d ic] Hcomp].
  assert (Hset : set k v ttl now c
            = (mkCache (max_size c) (default_ttl c) (compress_threshold c) []
                 (Nat.iter (S (length (od_delete (_generate_key k) (cache c))))
                    add_eviction (if ic then add_compression (stats c) else stats c)),
               if 0 >? max_size c then Raises else Returns)).
  { unfold set. rewrite Hcomp.
    assert (Hod : od_store (_generate_key k)
              (mkEntry d now (ttl_or_default ttl (default_ttl c)) 0 ic)
              (match od_lookup (_generate_key k) (cache c) with
               | Some _ => od_delete (_generate_key k) (cache c)
               | None => cache c
               end)
              = od_delete (_generate_key k) (cache c)
                ++ [(_generate_key k,
                     mkEntry d now (ttl_or_default ttl (default_ttl c)) 0 ic)]).
    { destruct (od_lookup _ (cache c)) eqn:Hl.
      - apply od_store_absent, od_lookup_delete.
      - rewrite (od_delete_absent _ _ Hl). by apply od_store_absent. }
    rewrite Hod, evict_all by done. rewrite length_app. cbn [length].
    by rewrite Nat.add_1_r. }
  rewrite Hset. cbn [fst snd cache stats]. split; [done|].
  split; [rewrite iter_eviction; cbn; destruct ic; cbn; lia|].
  split; [destruct (Z.gtb_spec 0 (max_size c)); split; (done || lia)|].
  intros k' now'. by rewrite get_absent.
Qed.

Lemma set_leaves_at_most_max_size (c : ThreadSafeCache) k (v : V) ttl now d ic :
  0 ≤ max_size c →
  _compress_data (compress_threshold c) v = Some (d, ic) →
  Z.of_nat (length (cache (set k v ttl now c).1)) ≤ max_size c.
Proof.
  intros Hms Hcomp.
  destruct (set_stored c k v ttl now d ic Hms Hcomp) as (_ & -> & _).
  rewrite length_drop. lia.
Qed.

(** X10. In a runtime where unpickling undoes pickling and decompressing
    undoes compressing ([CodecLaws]), in a cache with room for at least one
    entry, for two values that can both be pickled: storing the second
    under a key under which the first was just stored replaces the entry and
    nothing else.  The other entries and the eviction counter stay as they
    were, the one entry of the key carries the new timestamp and ttl, and a
    [get] within the new ttl returns the new value. *)
Theorem set_twice_replaces_the_entry `{!CodecLaws V} (c : ThreadSafeCache) k
    (v1 v2 : V) ttl1 ttl2 t1 t2 now :
  1 ≤ max_size c →
  is_Some (pickle_dumps v1) →
  is_Some (pickle_dumps v2) →
  let key := _generate_key k in
  let c1 := (set k v1 ttl1 t1 c).1 in
  let c2 := (set k v2 ttl2 t2 c1).1 in
  (∃ front e1 e2,
     cache c1 = front ++ [(key, e1)] ∧ cache c2 = front ++ [(key, e2)]
     ∧ od_lookup key front = None
     ∧ timestamp e2 = t2 ∧ Cache.ttl e2 = ttl_or_default ttl2 (default_ttl c))
  ∧ evictions (stats c2) = evictions (stats c1)
  ∧ (now - t2 ≤ ttl_or_default ttl2 (default_ttl c) → (get k now c2).2 = Some v2).
Proof.
  intros Hms Hv1 Hv2 key c1 c2.
  destruct (compress_data_is_Some (compress_threshold c) v1 Hv1) as [[d1 i1] Hcomp1].
  destruct (set_then_lookup c k v1 ttl1 t1 d1 i1 Hms Hcomp1) as (front & Hc1 & Hfront).
  fold key in Hc1, Hfront. fold c1 in Hc1.
  pose proof (set_leaves_at_most_max_size c k v1 ttl1 t1 d1 i1 ltac:(lia) Hcomp1) as Hlen1.
  fold c1 in Hlen1.
  destruct (set_shape c k v1 ttl1 t1) as (Hm1 & Hd1 & Ht1 & _). fold c1 in Hm1, Hd1, Ht1.
  destruct (compress_data_is_Some (compress_threshold c1) v2 Hv2) as [[d2 i2] Hcomp2].
  destruct (set_stored c1 k v2 ttl2 t2 d2 i2) as (_ & Hc2 & Hev2 & _); [lia|done|].
  fold key in Hc2, Hev2. fold c2 in Hc2, Hev2.
  assert (Hdel : od_delete key (cache c1) = front).
  { rewrite Hc1, od_delete_app, od_delete_one, (od_delete_absent _ _ Hfront).
    apply app_nil_r. }
  rewrite Hdel in Hc2, Hev2.
  assert (Hn : (length (front ++ [(key, mkEntry d2 t2 (ttl_or_default ttl2 (default_ttl c1))
                                         0 i2)])
                - Z.to_nat (max_size c1))%nat = 0%nat).
  { rewrite Hc1 in Hlen1. rewrite !length_app in *. cbn [length] in *. lia. }
  rewrite Hn in Hc2, Hev2. rewrite drop_0 in Hc2. rewrite Hd1 in Hc2.
  split; [by eexists _, _, _|]. split; [lia|].
  intros Hage.
  assert (Hl : od_lookup (_generate_key k) (cache c2)
               = Some (mkEntry d2 t2 (ttl_or_default ttl2 (default_ttl c)) 0 i2)).
  { rewrite Hc2, od_lookup_app. fold key. rewrite Hfront. apply od_lookup_one. }
  rewrite (get_fresh c2 k now _ Hl).
  - cbv zeta. cbn [data compressed]. by rewrite (compress_decompress _ _ _ _ Hcomp2).
  - unfold is_expired. cbn [timestamp ttl].
    destruct (Z.gtb_spec (now - t2) (ttl_or_default ttl2 (default_ttl c))); [lia|done].
Qed.

(** *** [cache_decorator] *)

(** X12. The wrapper of [cache_decorator] around a function, in a runtime
    where unpickling undoes pickling and decompressing undoes compressing
    ([CodecLaws]) and on a cache with room for at least one entry.  After a
    call that ran the function: when it returned a value that can be
    pickled, the next call with the same key, made while the entry's age is
    at most the ttl, returns that value without calling the function; when
    the function returned [None], nothing was stored and the next call calls
    the function again. *)
Theorem cache_decorator_serves_values_not_none `{!CodecLaws V} (c : ThreadSafeCache)
    ttl key_parts (first : returned V) (t1 t2 t3 t4 : Z) (c1 : ThreadSafeCache) :
  1 ≤ max_size c →
  cache_decorator ttl key_parts first t1 t2 c = (c1, first, true) →
  (∀ v, first = Value v →
        is_Some (pickle_dumps v) →
        t3 - t2 ≤ ttl_or_default ttl (default_ttl c) →
        ∀ again, cache_decorator ttl key_parts again t3 t4 c1
                 = ((get (V:=V) key_parts t3 c1).1, Value v, false))
  ∧ (first = PyNone →
     ∀ again, (cache_decorator ttl key_parts again t3 t4 c1).2 = true).
Proof.
  intros Hms. unfold cache_decorator at 1.
  pose proof (get_none_leaves_no_entry c key_parts t1) as Hmiss.
  destruct (get_shape c key_parts t1) as (Hmax & Hdt & Hct & _).
  destruct (get key_parts t1 c) as [cg [v0|]] eqn:Hget; [by intros [= _ _ ?]|].
  cbn [fst snd] in Hmiss, Hmax, Hdt, Hct. specialize (Hmiss eq_refl).
  destruct first as [v| |].
  - destruct (set key_parts v ttl t2 cg) as [cs r] eqn:Hset.
    intros [= <- _]. split; [|done]. intros v' [= <-] Hv Hage again.
    destruct (compress_data_is_Some (compress_threshold cg) v Hv) as [[d ic] Hcomp].
    destruct (set_then_lookup cg key_parts v ttl t2 d ic) as (front & Hc & Hfront);
      [lia|done|].
    rewrite Hset in Hc. cbn [fst] in Hc.
    assert (Hl : od_lookup (_generate_key key_parts) (cache cs)
                 = Some (mkEntry d t2 (ttl_or_default ttl (default_ttl cg)) 0 ic)).
    { rewrite Hc, od_lookup_app, Hfront. apply od_lookup_one. }
    unfold cache_decorator. rewrite (get_fresh cs key_parts t3 _ Hl).
    + cbv zeta. cbn [data compressed].
      by rewrite (compress_decompress _ _ _ _ Hcomp).
    + unfold is_expired. cbn [timestamp Cache.ttl]. rewrite Hdt.
      destruct (Z.gtb_spec (t3 - t2) (ttl_or_default ttl (default_ttl c))); [lia|done].
  - intros [= <-]. split; [done|]. intros _ again. unfold cache_decorator.
    rewrite (get_absent cg key_parts t3 Hmiss).
    destruct again as [v| |]; [|done..].
    by destruct (set key_parts v ttl t4 _) as [c2 [|]].
  - intros _. by split.
Qed.

End codec.

(** *** Runs on a concrete runtime *)

Import Sample.

Lemma history_keeps_size_bound_witness :
  let ops := [CallSet ["a"] "x" None 0; CallSet ["b"] "y" None 1;
              CallSet ["c"] "z" None 2; CallGet ["b"] 3; CallInvalidate ["a"]] in
  0 ≤ max_size (init 2 300 1024)
  ∧ Z.of_nat (length (cache (init 2 300 1024))) ≤ max_size (init 2 300 1024)
  ∧ Z.of_nat (length (cache (@run string plain_codec ops (init 2 300 1024)))) ≤ 2.
Proof.
  intros ops.
  assert (H1 : 0 ≤ max_size (init 2 300 1024)) by (vm_compute; discriminate).
  assert (H2 : Z.of_nat (length (cache (init 2 300 1024))) ≤ max_size (init 2 300 1024))
    by (vm_compute; discriminate).
  split; [exact H1|]. split; [exact H2|].
  exact (proj2 (@history_keeps_size_bound string plain_codec (init 2 300 1024) ops H1 H2)).
Defined.

Lemma history_counts_each_request_once_witness :
  let ops := [CallGet ["a"] 0; CallSet ["a"] "x" (Some 5) 1; CallGet ["a"] 2;
              CallGet ["a"] 9; CallClear; CallGet ["a"] 10] in
  let c := @run string plain_codec ops (init 2 300 1024) in
  hits (stats c) + misses (stats c) = total_requests (stats c).
Proof.
  intros ops.
  exact (@history_counts_each_request_once string plain_codec plain_codec_laws
           2 300 1024 ops).
Defined.

Lemma compress_data_round_trip_witness :
  @_compress_data string plain_codec 1024 "show version"
  = Some (list_byte_of_string "show version", false)
  ∧ @_decompress_data string plain_codec (list_byte_of_string "show version") false
    = Some "show version".
Proof.
  assert (H : @_compress_data string plain_codec 1024 "show version"
              = Some (list_byte_of_string "show version", false)) by reflexivity.
  split; [exact H|].
  exact (proj1 (@compress_data_round_trip string plain_codec plain_codec_laws 1024
                  "show version" _ false H)).
Defined.

Lemma set_with_room_keeps_the_rest_witness :
  let c := (@set string plain_codec ["a"] "x" None 0 (init 2 300 1024)).1 in
  is_Some (@pickle_dumps string plain_codec "y")
  ∧ Z.of_nat (length (od_delete (@_generate_key string plain_codec ["b"]) (cache c)))
    < max_size c
  ∧ evictions (stats (@set string plain_codec ["b"] "y" None 1 c).1) = evictions (stats c).
Proof.
  intros c.
  assert (H1 : is_Some (@pickle_dumps string plain_codec "y")) by (eexists; reflexivity).
  assert (H2 : Z.of_nat (length (od_delete (@_generate_key string plain_codec ["b"])
                                   (cache c))) < max_size c) by (vm_compute; reflexivity).
  split; [exact H1|]. split; [exact H2|].
  exact (proj1 (proj2 (@set_with_room_keeps_the_rest string plain_codec c ["b"] "y"
                         None 1 H1 H2))).
Defined.

Lemma set_without_room_empties_the_cache_witness :
  max_size (init (-1) 300 1024) ≤ 0
  ∧ is_Some (@pickle_dumps string plain_codec "x")
  ∧ cache (@set string plain_codec ["a"] "x" None 0 (init (-1) 300 1024)).1 = [].
Proof.
  assert (H1 : max_size (init (-1) 300 1024) ≤ 0) by (vm_compute; discriminate).
  assert (H2 : is_Some (@pickle_dumps string plain_codec "x")) by (eexists; reflexivity).
  split; [exact H1|]. split; [exact H2|].
  exact (proj1 (@set_without_room_empties_the_cache string plain_codec
                  (init (-1) 300 1024) ["a"] "x" None 0 H1 H2)).
Defined.

Lemma set_twice_replaces_the_entry_witness :
  let c := init 2 300 1024 in
  1 ≤ max_size c
  ∧ is_Some (@pickle_dumps string plain_codec "old")
  ∧ is_Some (@pickle_dumps string plain_codec "new")
  ∧ (@get string plain_codec ["a"] 20
       (@set string plain_codec ["a"] "new" (Some 10) 10
          (@set string plain_codec ["a"] "old" (Some 5) 0 c).1).1).2 = Some "new".
Proof.
  intros c.
  assert (H1 : 1 ≤ max_size c) by (vm_compute; discriminate).
  assert (H2 : is_Some (@pickle_dumps string plain_codec "old")) by (eexists; reflexivity).
  assert (H3 : is_Some (@pickle_dumps string plain_codec "new")) by (eexists; reflexivity).
  split; [exact H1|]. split; [exact H2|]. split; [exact H3|].
  apply (proj2 (proj2 (@set_twice_replaces_the_entry string plain_codec plain_codec_laws
                         c ["a"] "old" "new" (Some 5) (Some 10) 0 10 20 H1 H2 H3))).
  vm_compute. discriminate.
Defined.

Lemma cleanup_expired_removes_exactly_the_expired_witness :
  let c := (@set string plain_codec ["b"] "y" (Some 50) 0
              (@set string plain_codec ["a"] "x" (Some 5) 0 (init 4 300 1024)).1).1 in
  well_formed c
  ∧ (cleanup_expired 10 c).2
    = Z.of_nat (length (cache c)) - Z.of_nat (length (cache (cleanup_expired 10 c).1)).
Proof.
  intros c.
  assert (H : well_formed c) by (apply (bool_decide_unpack _); vm_compute; exact I).
  split; [exact H|].
  exact (proj1 (proj2 (proj2 (cleanup_expired_removes_exactly_the_expired c 10 H)))).
Defined.

Lemma cache_decorator_serves_values_not_none_witness :
  let c := init 4 300 1024 in
  let first := @cache_decorator string plain_codec (Some 60) ["f"; "(1,)"; "()"]
                 (Value "one") 0 1 c in
  1 ≤ max_size c
  ∧ first = (first.1.1, Value "one", true)
  ∧ is_Some (@pickle_dumps string plain_codec "one")
  ∧ @cache_decorator string plain_codec (Some 60) ["f"; "(1,)"; "()"] PyNone 30 31 first.1.1
    = ((@get string plain_codec ["f"; "(1,)"; "()"] 30 first.1.1).1, Value "one", false).
Proof.
  intros c first.
  assert (H1 : 1 ≤ max_size c) by (vm_compute; discriminate).
  assert (H2 : first = (first.1.1, Value "one", true)) by reflexivity.
  assert (H3 : is_Some (@pickle_dumps string plain_codec "one")) by (eexists; reflexivity).
  split; [exact H1|]. split; [exact H2|]. split; [exact H3|].
  apply (proj1 (@cache_decorator_serves_values_not_none string plain_codec plain_codec_laws
                  c (Some 60) ["f"; "(1,)"; "()"] (Value "one") 0 1 30 31 first.1.1
                  H1 H2) "one" eq_refl H3).
  vm_compute. discriminate.
Defined.

End CacheMore.

(** ** More on the range compressor and the bulk operations *)

Module BulkMore.

Import PyStr Ranges RangeText RangeTextFacts RangesFacts Executor Bulk BulkFacts Sample.

Lemma runs_from_any s e ports :
  s ≤ e →
  expand (runs_from s e ports) = seqZ s (e - s + 1) ++ ports
  ∧ Forall (λ r, r.1 ≤ r.2) (runs_from s e ports)
  ∧ (length (runs_from s e ports) ≤ S (length ports))%nat.
Proof.
  revert s e. induction ports as [|p ps IH]; intros s e Hse.
  - cbn [runs_from]. rewrite expand_cons. split; [done|].
    split; [by apply Forall_singleton|done].
  - cbn [runs_from]. destruct (Z.eqb_spec p (e + 1)) as [->|Hne].
    + destruct (IH s (e + 1)) as (Hexp & Hall & Hlen); [lia|].
      split; [|split; [done|cbn [length]; lia]].
      rewrite Hexp. replace (e + 1 - s + 1) with ((e - s + 1) + 1) by lia.
      rewrite seqZ_app by lia.
      replace (s + (e - s + 1)) with (e + 1) by lia.
      by rewrite seqZ_one, <- (assoc_L (++)).
    + destruct (IH p p) as (Hexp & Hall & Hlen); [lia|].
      split; [|split; [by apply Forall_cons|cbn [length]; lia]].
      rewrite expand_cons, Hexp. cbn [fst snd].
      replace (p - p + 1) with 1 by lia. by rewrite seqZ_one.
Qed.

(** X13. Whatever list of port numbers [_create_port_ranges] is given,
    sorted or not, with or without repetitions, it returns one text per run
    of consecutive numbers, "gi<slot>/<start>" for a run of one port and
    "gi<slot>/<start>-<end>" otherwise; the texts, read back and expanded
    one after the other, give back the input list as it was; the ranges
    have start <= end, there are never more ranges than ports, and there is
    no range only for the empty input. *)
Theorem create_port_ranges_expands_to_its_input (slot : string) (ports : list Z) :
  _create_port_ranges slot ports
  = (λ r, if r.1 =? r.2 then "gi" +:+ slot +:+ "/" +:+ str_int r.1
          else "gi" +:+ slot +:+ "/" +:+ str_int r.1 +:+ "-" +:+ str_int r.2)
    <$> port_runs ports
  ∧ expand_ranges slot (_create_port_ranges slot ports) = Some ports
  ∧ expand (port_runs ports) = ports
  ∧ Forall (λ r, r.1 ≤ r.2) (port_runs ports)
  ∧ (length (_create_port_ranges slot ports) ≤ length ports)%nat
  ∧ (_create_port_ranges slot ports = [] ↔ ports = []).
Proof.
  assert (Hexpand : expand (port_runs ports) = ports
                    ∧ Forall (λ r, r.1 ≤ r.2) (port_runs ports)
                    ∧ (length (port_runs ports) ≤ length ports)%nat
                    ∧ (port_runs ports = [] ↔ ports = [])).
  { destruct ports as [|p ps]; [by repeat split|]. cbn [port_runs].
    destruct (runs_from_any p p ps) as (Hexp & Hall & Hlen); [lia|].
    split; [|split; [done|split]].
    - rewrite Hexp. replace (p - p + 1) with 1 by lia. by rewrite seqZ_one.
    - cbn [length]. lia.
    - split; [|done]. intros Hnil. by apply runs_from_nonempty in Hnil. }
  destruct Hexpand as (Hexp & Hall & Hlen & Hnil).
  rewrite create_port_ranges_runs. split; [done|].
  split; [unfold expand_ranges; rewrite read_ranges_fmt; cbn [fmap option_fmap option_map];
          by rewrite Hexp|].
  split; [done|]. split; [done|]. split; [by rewrite length_fmap|].
  rewrite <- Hnil. split; [apply fmap_nil_inv|by intros ->].
Qed.

(** X14. The range list of a batch is empty exactly when no identifier of
    the batch passes the two guards (a 'Gi' prefix, and three
    slash-separated parts once every 'Gi' is removed). *)
Theorem create_interface_ranges_empty_iff (batch : list string) :
  _create_interface_ranges batch = [] ↔ Forall (λ i, gi_parts i = None) batch.
Proof.
  split; [|apply create_interface_ranges_empty].
  intros Hnil. apply Forall_forall. intros i Hi.
  destruct (gi_parts i) as [parts|] eqn:Hparts; [|done].
  exfalso. apply (create_interface_ranges_nonempty batch); [|done].
  exists i. split; [done|]. by rewrite Hparts.
Qed.

Lemma chunks_one fuel k (l : list string) :
  l ≠ [] → (length l ≤ k)%nat → (length l ≤ fuel)%nat → chunks fuel k l = [l].
Proof.
  intros Hne Hk Hfuel. destruct fuel as [|fuel]; [destruct l; [done|cbn in Hfuel; lia]|].
  destruct l as [|x l]; [done|]. cbn [chunks].
  rewrite take_ge, drop_ge by done. by destruct fuel.
Qed.

Section channel.
Context {conn : Type} `{!Channel conn}.

Lemma bulk_batches_dom action bs (st : CiscoManager conn * gmap string bool) p :
  is_Some ((foldl (process_batch action) st bs).2 !! p) →
  is_Some (st.2 !! p) ∨ p ∈ concat bs.
Proof.
  revert st. induction bs as [|b bs IH]; intros st; [by left|].
  cbn [foldl concat]. intros [Hst|Hin]%IH; [|right; apply elem_of_app; by right].
  rewrite process_batch_lookup in Hst.
  destruct (_create_interface_ranges b); [by left|].
  destruct (decide (p ∈ b)); [right; apply elem_of_app|]; by left.
Qed.

(** X15. The map a bulk operation returns never names a port that was not
    in its input, whatever the batch size. *)
Theorem bulk_result_names_only_input_ports action interfaces max_batch_size
    (m : CiscoManager conn) p :
  is_Some ((bulk_apply action interfaces max_batch_size m).2 !! p) → p ∈ interfaces.
Proof.
  unfold bulk_apply, batches.
  destruct interfaces as [|i0 rest] eqn:Hi; [by intros [? ?]|].
  rewrite <- Hi. clear Hi i0 rest.
  destruct (Z.eqb_spec max_batch_size 0).
  - cbn [snd]. rewrite mark_lookup. destruct (decide (p ∈ interfaces)); [done|].
    by intros [? ?].
  - destruct (Z.ltb_spec max_batch_size 0); [by intros [? ?]|].
    intros [Hempty|Hin]%bulk_batches_dom; [by destruct Hempty|].
    destruct (chunks_spec (length interfaces) (Z.to_nat max_batch_size) interfaces)
      as [Hcat _]; [lia|done|]. by rewrite Hcat in Hin.
Qed.

(** X16. When no identifier of the input passes the guards of
    [_create_interface_ranges], a bulk operation with a batch size other
    than zero sends nothing to the device, leaves the manager as it was and
    returns an empty map. *)
Theorem bulk_without_gi_ports_sends_nothing action interfaces max_batch_size
    (m : CiscoManager conn) :
  Forall (λ i, gi_parts i = None) interfaces →
  max_batch_size ≠ 0 →
  bulk_apply action interfaces max_batch_size m = (m, ∅).
Proof.
  intros Hall Hsize. unfold bulk_apply, batches.
  destruct interfaces as [|i0 rest] eqn:Hi; [done|]. rewrite <- Hi in *. clear Hi i0 rest.
  destruct (Z.eqb_spec max_batch_size 0); [done|].
  destruct (Z.ltb_spec max_batch_size 0); [done|].
  destruct (chunks_spec (length interfaces) (Z.to_nat max_batch_size) interfaces)
    as [Hcat _]; [lia|done|].
  rewrite <- Hcat in Hall. apply Forall_concat in Hall. clear Hcat.
  revert Hall. generalize (chunks (length interfaces) (Z.to_nat max_batch_size) interfaces).
  intros bs Hall. induction Hall as [|b bs Hb Hbs IH]; [done|].
  cbn [foldl]. rewrite process_batch_no_ranges; [done|].
  by apply create_interface_ranges_empty.
Qed.

(** X17. The two batch sizes that give no batch: with size zero [range]
    raises, the handler marks every input port as failed and nothing is sent;
    with a negative size the range is empty, nothing is sent and the map is
    empty although the input is not. *)
Theorem bulk_with_no_batches action interfaces max_batch_size (m : CiscoManager conn) :
  max_batch_size ≤ 0 →
  (bulk_apply action interfaces max_batch_size m).1 = m
  ∧ ∀ p, (bulk_apply action interfaces max_batch_size m).2 !! p
         = if decide (max_batch_size = 0 ∧ p ∈ interfaces) then Some false else None.
Proof.
  intros Hsize. unfold bulk_apply, batches.
  destruct interfaces as [|i0 rest] eqn:Hi.
  { split; [done|]. intros p. rewrite decide_False; [done|].
    intros [_ Hp]. by apply elem_of_nil in Hp. }
  rewrite <- Hi. clear Hi i0 rest.
  destruct (Z.eqb_spec max_batch_size 0) as [->|Hne].
  - split; [done|]. intros p. cbn [snd]. rewrite mark_lookup.
    destruct (decide (p ∈ interfaces)).
    + by rewrite decide_True.
    + rewrite decide_False by tauto. done.
  - destruct (Z.ltb_spec max_batch_size 0); [|lia].
    split; [done|]. intros p. rewrite decide_False by tauto. done.
Qed.

(** X18. An input that fits into one batch and holds at least one
    identifier that passes the guards is one configuration command: the
    ranges of the whole input after "interface range", then the action.
    Every input port is reported with the outcome of that one command, also
    the ports the command does not name. *)
Theorem bulk_single_batch_is_one_command action interfaces max_batch_size
    (m : CiscoManager conn) :
  Z.of_nat (length interfaces) ≤ max_batch_size →
  (∃ i, i ∈ interfaces ∧ is_Some (gi_parts i)) →
  let sent := _send_config_command_safe
                ["interface range " +:+ join "," (_create_interface_ranges interfaces);
                 action] m in
  (bulk_apply action interfaces max_batch_size m).1 = sent.1
  ∧ ∀ p, (bulk_apply action interfaces max_batch_size m).2 !! p
         = if decide (p ∈ interfaces) then Some sent.2 else None.
Proof.
  intros Hfit Hgi. cbv zeta. unfold bulk_apply, batches.
  destruct interfaces as [|i0 rest] eqn:Hi.
  { destruct Hgi as (i & Hin & _). by apply elem_of_nil in Hin. }
  rewrite <- Hi in *.
  assert (Hne : interfaces ≠ []) by (by rewrite Hi). clear Hi i0 rest.
  assert (0 < Z.of_nat (length interfaces)) by (destruct interfaces; [done|cbn; lia]).
  destruct (Z.eqb_spec max_batch_size 0); [lia|].
  destruct (Z.ltb_spec max_batch_size 0); [lia|].
  rewrite chunks_one by (done || lia). cbn [foldl].
  split.
  - unfold process_batch. pose proof (create_interface_ranges_nonempty _ Hgi) as Hr.
    destruct (_create_interface_ranges interfaces) as [|r rs] eqn:Hranges; [done|].
    cbn [fst]. by destruct (_send_config_command_safe _ m).
  - intros p. rewrite process_batch_lookup.
    pose proof (create_interface_ranges_nonempty _ Hgi) as Hr.
    destruct (_create_interface_ranges interfaces) as [|r rs] eqn:Hranges; [done|].
    cbn [fst snd]. by destruct (decide (p ∈ interfaces)).
Qed.

End channel.

Lemma bulk_result_complete_for_gi_ports_witness :
  let interfaces := ["Gi1/0/1"; "Gi1/0/2"; "Gi2/0/1"] in
  0 < 2
  ∧ Forall (λ i, is_Some (gi_parts i)) interfaces
  ∧ "Gi2/0/1" ∈ interfaces
  ∧ is_Some ((@bulk_apply session session_channel "shutdown" interfaces 2
                (manager "" false None)).2 !! "Gi2/0/1").
Proof.
  intros interfaces.
  assert (H1 : 0 < 2) by reflexivity.
  assert (H2 : Forall (λ i, is_Some (gi_parts i)) interfaces)
    by (repeat constructor; eexists; vm_compute; reflexivity).
  assert (H3 : "Gi2/0/1" ∈ interfaces) by (apply (bool_decide_unpack _); vm_compute; exact I).
  split; [exact H1|]. split; [exact H2|]. split; [exact H3|].
  exact (@bulk_result_complete_for_gi_ports session session_channel "shutdown"
           interfaces 2 (manager "" false None) "Gi2/0/1" H1 H2 H3).
Defined.

Lemma bulk_result_names_only_input_ports_witness :
  let run := @bulk_apply session session_channel "shutdown" ["Gi1/0/1"; "Fa0/1"] 12
               (manager "" true None) in
  is_Some (run.2 !! "Fa0/1") ∧ "Fa0/1" ∈ ["Gi1/0/1"; "Fa0/1"].
Proof.
  intros run.
  assert (H : is_Some (run.2 !! "Fa0/1")) by (eexists; vm_compute; reflexivity).
  split; [exact H|].
  exact (@bulk_result_names_only_input_ports session session_channel "shutdown"
           ["Gi1/0/1"; "Fa0/1"] 12 (manager "" true None) "Fa0/1" H).
Defined.

Lemma bulk_without_gi_ports_sends_nothing_witness :
  Forall (λ i, gi_parts i = None) ["Fa0/1"; "Te1/1"; "Po1"]
  ∧ 2 ≠ 0
  ∧ @bulk_apply session session_channel "no shutdown" ["Fa0/1"; "Te1/1"; "Po1"] 2
      (manager "" true None) = (manager "" true None, ∅).
Proof.
  assert (H1 : Forall (λ i, gi_parts i = None) ["Fa0/1"; "Te1/1"; "Po1"])
    by (repeat constructor).
  assert (H2 : 2 ≠ 0) by discriminate.
  split; [exact H1|]. split; [exact H2|].
  exact (@bulk_without_gi_ports_sends_nothing session session_channel "no shutdown"
           ["Fa0/1"; "Te1/1"; "Po1"] 2 (manager "" true None) H1 H2).
Defined.

Lemma bulk_with_no_batches_witness :
  0 ≤ 0
  ∧ (@bulk_apply session session_channel "shutdown" ["Gi1/0/1"] 0
       (manager "" true None)).1 = manager "" true None.
Proof.
  assert (H : 0 ≤ 0) by discriminate.
  split; [exact H|].
  exact (proj1 (@bulk_with_no_batches session session_channel "shutdown" ["Gi1/0/1"] 0
                  (manager "" true None) H)).
Defined.

Lemma bulk_single_batch_is_one_command_witness :
  let interfaces := ["Gi1/0/1"; "Fa0/1"; "Gi1/0/2"] in
  Z.of_nat (length interfaces) ≤ 12
  ∧ (∃ i, i ∈ interfaces ∧ is_Some (gi_parts i))
  ∧ (@bulk_apply session session_channel "shutdown" interfaces 12 (manager "" true None)).1
    = (@_send_config_command_safe session session_channel
         ["interface range " +:+ join "," (_create_interface_ranges interfaces); "shutdown"]
         (manager "" true None)).1.
Proof.
  intros interfaces.
  assert (H1 : Z.of_nat (length interfaces) ≤ 12) by (vm_compute; discriminate).
  assert (H2 : ∃ i, i ∈ interfaces ∧ is_Some (gi_parts i)).
  { exists "Gi1/0/1". split; [by left|]. eexists. vm_compute. reflexivity. }
  split; [exact H1|]. split; [exact H2|].
  exact (proj1 (@bulk_single_batch_is_one_command session session_channel "shutdown"
                  interfaces 12 (manager "" true None) H1 H2)).
Defined.

End BulkMore.

(** ** More on the command executor *)

Module ExecutorMore.

Import PyStr Cache CacheFacts Executor ExecutorFacts Sample.

Section channel.
Context {conn : Type} `{!Channel conn} `{!Codec string}.

(** Session calls change the connection and nothing else of the manager. *)
Lemma on_connection_frame {A} (run : chan conn A) (m : CiscoManager conn) :
  stats (on_connection run m).1 = stats m
  ∧ connected (on_connection run m).1 = connected m
  ∧ command_cache (on_connection run m).1 = command_cache m.
Proof.
  unfold on_connection. destruct (connection m) as [c|]; [|done].
  by destruct (run c).
Qed.

Lemma clean_buffer_frame (m : CiscoManager conn) :
  stats (_clean_buffer_and_wait m) = stats m
  ∧ connected (_clean_buffer_and_wait m) = connected m
  ∧ command_cache (_clean_buffer_and_wait m) = command_cache m.
Proof. apply on_connection_frame. Qed.

Lemma cache_check_frame command now (m : CiscoManager conn) :
  let m' := (cache_check command now m).1 in
  connected m' = connected m
  ∧ connection m' = connection m
  ∧ errors (stats m') = errors (stats m)
  ∧ commands_executed (stats m') = commands_executed (stats m)
  ∧ match (cache_check command now m).2 with
    | Some _ => cache_hits (stats m') = cache_hits (stats m) + 1
                ∧ cache_misses (stats m') = cache_misses (stats m)
    | None => cache_hits (stats m') = cache_hits (stats m)
              ∧ cache_misses (stats m') = cache_misses (stats m) + 1
    end.
Proof.
  cbv zeta. unfold cache_check.
  destruct (cache_key command m) as [key|]; [|done].
  destruct (command_cache m) as [cc|]; [|done].
  destruct (Cache.get _ _ _) as [cc' [cached|]]; [|done].
  by destruct (String.eqb cached "").
Qed.

Lemma cache_store_frame key output now (m : CiscoManager conn) :
  stats (cache_store key output now m).1 = stats m
  ∧ connected (cache_store key output now m).1 = connected m
  ∧ connection (cache_store key output now m).1 = connection m.
Proof.
  unfold cache_store. destruct (command_cache m) as [cc|]; [|done].
  destruct key as [k|]; [|done].
  by destruct (Cache.set _ _ _ _ _) as [cc' r].
Qed.

(** X19. The counters of [send_command].  A call on a manager that is not
    connected raises and changes nothing.  On a connected manager the error
    counter goes up by one exactly when the call raises; a call with
    [use_cache] counts one cache hit or one cache miss and a call without
    counts neither; and every call is either a cache hit or one executed
    command, never both. *)
Theorem send_command_keeps_its_counters command use_cache now_get now_set
    (m : CiscoManager conn) :
  let m' := (send_command command use_cache now_get now_set m).1 in
  let r := (send_command command use_cache now_get now_set m).2 in
  connected m' = connected m
  ∧ (connected m = false → m' = m ∧ r = CiscoCommandError)
  ∧ (connected m = true →
     errors (stats m')
     = errors (stats m) + (match r with Ok _ => 0 | CiscoCommandError => 1 end)
     ∧ cache_hits (stats m') + cache_misses (stats m')
       = cache_hits (stats m) + cache_misses (stats m) + (if use_cache then 1 else 0)
     ∧ commands_executed (stats m') + cache_hits (stats m')
       = commands_executed (stats m) + cache_hits (stats m) + 1).
Proof.
  cbv zeta. unfold send_command.
  destruct (connected m) eqn:Hon; cbn [negb]; [|by repeat split].
  set (key := cache_key command m). clearbody key.
  assert (Hrest : ∀ m1 : CiscoManager conn,
            let m2 := _clean_buffer_and_wait (with_perf (add_command (stats m1)) m1) in
            let out :=
              match on_connection
                      (output ⇐ channel_send command;; _ ⇐ clear_buffer;; chan_ret output)
                      m2 with
              | (m3, None) => (with_perf (add_error (stats m3)) m3, CiscoCommandError)
              | (m3, Some output) =>
                  let '(m4, stored) :=
                    if use_cache && negb (String.eqb output "")
                    then cache_store key output now_set m3 else (m3, true) in
                  if stored then (m4, Ok (clean_output output))
                  else (with_perf (add_error (stats m4)) m4, CiscoCommandError)
              end in
            connected out.1 = connected m1
            ∧ errors (stats out.1)
              = errors (stats m1) + (match out.2 with Ok _ => 0 | CiscoCommandError => 1 end)
            ∧ cache_hits (stats out.1) = cache_hits (stats m1)
            ∧ cache_misses (stats out.1) = cache_misses (stats m1)
            ∧ commands_executed (stats out.1) = commands_executed (stats m1) + 1).
  { intros m1. cbv zeta.
    destruct (clean_buffer_frame (with_perf (add_command (stats m1)) m1)) as (Hs2 & Hc2 & _).
    set (m2 := _clean_buffer_and_wait _) in *.
    destruct (on_connection_frame
                (output ⇐ channel_send command;; _ ⇐ clear_buffer;; chan_ret output) m2)
      as (Hs3 & Hc3 & _).
    destruct (on_connection _ m2) as [m3 [output|]]; cbn [fst snd] in *.
    - destruct (use_cache && negb (String.eqb output "")).
      + destruct (cache_store_frame key output now_set m3) as (Hs4 & Hc4 & _).
        destruct (cache_store key output now_set m3) as [m4 [|]]; cbn [fst snd] in *;
          cbn [stats connected with_perf]; rewrite ?Hs4, ?Hc4, ?Hs3, ?Hc3, ?Hs2, ?Hc2;
          cbn; (split; [done|lia]).
      + cbn [fst snd]. rewrite Hs3, Hc3, Hs2, Hc2. cbn. split; [done|lia].
    - cbn [stats connected with_perf]. rewrite Hs3, Hc3, Hs2, Hc2. cbn. split; [done|lia]. }
  destruct use_cache.
  - destruct (cache_check_frame command now_get m) as (Hc & _ & He & Hx & Hhm).
    destruct (cache_check command now_get m) as [m1 [text|]]; cbn [fst snd] in *.
    + split; [congruence|]. split; [done|]. intros _. lia.
    + destruct (Hrest m1) as (H0 & H1 & H2 & H3 & H4). cbv zeta in H0, H1, H2, H3, H4.
      split; [congruence|]. split; [done|]. intros _.
      rewrite H1, H2, H3, H4. lia.
  - destruct (Hrest m) as (H0 & H1 & H2 & H3 & H4). cbv zeta in H0, H1, H2, H3, H4.
    split; [congruence|]. split; [done|]. intros _.
    rewrite H1, H2, H3, H4. lia.
Qed.

Lemma on_connection_perf {A} (run : chan conn A) s (m : CiscoManager conn) :
  on_connection run (with_perf s m)
  = (with_perf s (on_connection run m).1, (on_connection run m).2).
Proof.
  unfold on_connection. cbn [connection with_perf].
  destruct (connection m) as [c|]; [|done]. by destruct (run c).
Qed.

Lemma clean_buffer_perf s (m : CiscoManager conn) :
  _clean_buffer_and_wait (with_perf s m) = with_perf s (_clean_buffer_and_wait m).
Proof. unfold _clean_buffer_and_wait. by rewrite on_connection_perf. Qed.

Lemma add_cache_miss_add_command s :
  add_command (add_cache_miss s) = add_cache_miss (add_command s).
Proof. by destruct s. Qed.

Lemma add_cache_miss_add_error s :
  add_error (add_cache_miss s) = add_cache_miss (add_error s).
Proof. by destruct s. Qed.

(** X20. As the repository is wired, no cache is behind
    [cache_manager.command_cache].  On such a manager, when connected,
    [send_command] with [use_cache] does what it does without, whatever the
    clock: it goes to the channel, returns the same result and leaves the
    same manager, except that it has counted one cache miss; it never counts
    a cache hit. *)
Theorem send_command_without_cache_only_counts_a_miss command t1 t2 t3 t4
    (m : CiscoManager conn) :
  command_cache m = None →
  connected m = true →
  let cached := send_command command true t1 t2 m in
  let plain := send_command command false t3 t4 m in
  cached.2 = plain.2
  ∧ cached.1 = with_perf (add_cache_miss (stats plain.1)) plain.1
  ∧ cache_hits (stats cached.1) = cache_hits (stats m).
Proof.
  intros Hcc Hon.
  cbv zeta. unfold send_command. rewrite Hon. cbn [negb].
  unfold cache_check. rewrite Hcc.
  assert (Hcheck : (match cache_key command m, @None ThreadSafeCache with
                    | Some key, Some cc =>
                        let '(cc', cached) := Cache.get key t1 cc in
                        let m0 := with_command_cache cc' m in
                        match cached with
                        | Some text =>
                            if String.eqb text ""
                            then (with_perf (add_cache_miss (stats m0)) m0, None)
                            else (with_perf (add_cache_hit (stats m0)) m0, Some text)
                        | None => (with_perf (add_cache_miss (stats m0)) m0, None)
                        end
                    | _, _ => (with_perf (add_cache_miss (stats m)) m, None)
                    end) = (with_perf (add_cache_miss (stats m)) m, None))
    by (by destruct (cache_key command m)).
  rewrite Hcheck. clear Hcheck. cbv zeta. cbn [andb stats with_perf].
  change (with_perf ?s (with_perf ?s' m)) with (with_perf s m).
  rewrite add_cache_miss_add_command, !clean_buffer_perf, !on_connection_perf.
  destruct (clean_buffer_frame m) as (_ & _ & Hk2).
  set (m2 := _clean_buffer_and_wait m) in *.
  set (run := output ⇐ channel_send command;; _ ⇐ clear_buffer;; chan_ret output) in *.
  destruct (on_connection_frame run m2) as (_ & _ & Hk3).
  destruct (on_connection run m2) as [m3 [output|]]; cbn [fst snd] in *.
  - assert (Hstore : ∀ s, cache_store (cache_key command m) output t2 (with_perf s m3)
                          = (with_perf s m3, true)).
    { intros s. unfold cache_store. cbn [command_cache with_perf].
      by rewrite Hk3, Hk2, Hcc. }
    destruct (negb (String.eqb output "")); rewrite ?Hstore; cbn [fst snd stats with_perf];
      (split; [done|]); (split; [done|]); by destruct (stats m).
  - cbn [fst snd stats with_perf].
    split; [done|]. split; [by rewrite add_cache_miss_add_error|]. by destruct (stats m).
Qed.

Lemma on_connection_None {A} (run : chan conn A) (m : CiscoManager conn) :
  connection m = None → on_connection run m = (m, None).
Proof. intros Hc. unfold on_connection. by rewrite Hc. Qed.

Lemma on_connection_keeps_session {A} (run : chan conn A) (m : CiscoManager conn) :
  is_Some (connection (on_connection run m).1) ↔ is_Some (connection m).
Proof.
  unfold on_connection. destruct (connection m) as [c|] eqn:Hc; [|cbn; by rewrite Hc].
  destruct (run c) as [c' r]. cbn. split; intros _; by eexists.
Qed.

(** X23. [_send_config_command_safe] never raises and works on the
    connection only: the counters, the [connected] flag and the command
    cache are what they were, also when it returns [False], and a manager
    that has a session keeps one.  Without a session object it returns
    [False] and changes nothing.  When [send_config_set] succeeds, that one
    call is all the session sees and the answer is [True]. *)
Theorem send_config_command_safe_works_on_the_connection_only (commands : list string)
    (m : CiscoManager conn) :
  let out := _send_config_command_safe commands m in
  stats out.1 = stats m
  ∧ connected out.1 = connected m
  ∧ command_cache out.1 = command_cache m
  ∧ (is_Some (connection out.1) ↔ is_Some (connection m))
  ∧ (connection m = None → out = (m, false))
  ∧ (∀ c c', connection m = Some c →
             conn_send_config_set commands c = (c', true) →
             out = (with_connection c' m, true)).
Proof.
  cbv zeta.
  assert (Hframe : stats (_send_config_command_safe commands m).1 = stats m
                   ∧ connected (_send_config_command_safe commands m).1 = connected m
                   ∧ command_cache (_send_config_command_safe commands m).1 = command_cache m
                   ∧ (is_Some (connection (_send_config_command_safe commands m).1)
                      ↔ is_Some (connection m))).
  { unfold _send_config_command_safe.
    destruct (on_connection_frame (send_config_set commands) m) as (Hs1 & Hc1 & Hk1).
    pose proof (on_connection_keeps_session (send_config_set commands) m) as Hn1.
    destruct (on_connection (send_config_set commands) m) as [m1 [[]|]]; cbn [fst snd] in *;
      [done|].
    destruct (clean_buffer_frame m1) as (Hs2 & Hc2 & Hk2).
    pose proof (on_connection_keeps_session
                  (_ ⇐ clear_buffer;; _ ⇐ channel_send "";; clear_buffer) m1) as Hn2.
    fold (_clean_buffer_and_wait m1) in Hn2.
    set (m2 := _clean_buffer_and_wait m1) in *.
    set (manual := _ ⇐ channel_send "configure terminal";;
                   _ ⇐ send_each commands;; channel_send "end").
    destruct (on_connection_frame manual m2) as (Hs3 & Hc3 & Hk3).
    pose proof (on_connection_keeps_session manual m2) as Hn3.
    destruct (on_connection manual m2) as [m3 [r|]]; cbn [fst snd] in *.
    - destruct (clean_buffer_frame m3) as (Hs4 & Hc4 & Hk4).
      pose proof (on_connection_keeps_session
                    (_ ⇐ clear_buffer;; _ ⇐ channel_send "";; clear_buffer) m3) as Hn4.
      fold (_clean_buffer_and_wait m3) in Hn4.
      split; [congruence|]. split; [congruence|]. split; [congruence|].
      by rewrite Hn4, Hn3, Hn2.
    - set (emergency := _ ⇐ channel_send "end";; channel_send "exit").
      destruct (on_connection_frame emergency m3) as (Hs4 & Hc4 & Hk4).
      pose proof (on_connection_keeps_session emergency m3) as Hn4.
      split; [congruence|]. split; [congruence|]. split; [congruence|].
      by rewrite Hn4, Hn3, Hn2. }
  destruct Hframe as (Hs & Hc & Hk & Hn).
  split; [done|]. split; [done|]. split; [done|]. split; [done|]. split.
  - intros Hnone. unfold _send_config_command_safe, _clean_buffer_and_wait.
    repeat (rewrite (on_connection_None _ m Hnone); cbn [fst snd]). done.
  - intros c c' Hsome Hset. unfold _send_config_command_safe, on_connection at 1.
    rewrite Hsome. unfold send_config_set. by rewrite Hset.
Qed.

End channel.

Lemma send_command_without_cache_only_counts_a_miss_witness :
  let m := manager (text ["core1#show clock"; "  12:00:00 UTC "; "core1#"]) true None in
  let cached := @send_command session session_channel plain_codec "show clock" true 5 6 m in
  let plain := @send_command session session_channel plain_codec "show clock" false 0 0 m in
  command_cache m = None
  ∧ connected m = true
  ∧ cached.2 = plain.2
  ∧ cached.1 = with_perf (add_cache_miss (stats plain.1)) plain.1
  ∧ cache_hits (stats cached.1) = cache_hits (stats m).
Proof.
  intros m cached plain.
  assert (H1 : command_cache m = None) by reflexivity.
  assert (H2 : connected m = true) by reflexivity.
  split; [exact H1|]. split; [exact H2|].
  exact (@send_command_without_cache_only_counts_a_miss session session_channel plain_codec
           "show clock" 5 6 0 0 m H1 H2).
Defined.


End ExecutorMore.

(** ** The decorators *)

Module DecoratorsFacts.

Import Decorators.

Section retry.
Context {A E F : Type} `{!Sleeper F E}.

Lemma retry_loop_spec (func : nat → A + E) (n : nat) (delay backoff : F)
    (remaining attempt : nat) last slept :
  (attempt + remaining = n)%nat →
  let r := retry_loop func (Z.of_nat n) delay backoff remaining attempt last slept in
  match outcome r with
  | Gives a =>
      ∃ i, (attempt ≤ i < n)%nat ∧ func i = inl a
           ∧ (∀ j, (attempt ≤ j < i)%nat →
                   (∃ e, func j = inr e) ∧ sleep_backoff delay backoff j = None)
           ∧ calls r = S i
           ∧ waits r = slept ++ seq attempt (i - attempt)
  | Throws e =>
      (calls r = n
       ∧ (∀ j, (attempt ≤ j < n)%nat → ∃ e', func j = inr e')
       ∧ (∀ j, (attempt ≤ j)%nat → (j + 1 < n)%nat → sleep_backoff delay backoff j = None)
       ∧ match remaining with
         | O => last = Some e
         | S _ => func (n - 1)%nat = inr e
         end
       ∧ waits r = slept ++ seq attempt (remaining - 1))
      ∨ (∃ i, (attempt ≤ i)%nat ∧ (i + 1 < n)%nat
              ∧ (∀ j, (attempt ≤ j ≤ i)%nat → ∃ e', func j = inr e')
              ∧ (∀ j, (attempt ≤ j < i)%nat → sleep_backoff delay backoff j = None)
              ∧ sleep_backoff delay backoff i = Some e
              ∧ calls r = S i
              ∧ waits r = slept ++ seq attempt (i - attempt))
  | ThrowsTypeError =>
      remaining = O ∧ last = None ∧ calls r = attempt ∧ waits r = slept
  end.
Proof.
  revert attempt last slept.
  induction remaining as [|remaining IH]; intros attempt last slept Hn; cbv zeta.
  - cbn [retry_loop outcome calls waits]. destruct last as [e|]; [|done].
    left. split; [lia|]. split; [intros j ?; lia|]. split; [intros j ? ?; lia|].
    split; [done|]. cbn [seq]. by rewrite app_nil_r.
  - cbn [retry_loop]. destruct (func attempt) as [a|e] eqn:Hf.
    { cbn [outcome calls waits]. exists attempt.
      split; [lia|]. split; [done|]. split; [intros j ?; lia|]. split; [done|].
      rewrite Nat.sub_diag. cbn [seq]. by rewrite app_nil_r. }
    assert (Hstep : ∀ slept',
              ((attempt + 1 < n)%nat →
               sleep_backoff delay backoff attempt = None ∧ slept' = slept ++ [attempt]) →
              ((attempt + 1 = n)%nat → slept' = slept) →
              let r := retry_loop func (Z.of_nat n) delay backoff remaining (S attempt)
                                  (Some e) slept' in
              match outcome r with
              | Gives a =>
                  ∃ i, (attempt ≤ i < n)%nat ∧ func i = inl a
                       ∧ (∀ j, (attempt ≤ j < i)%nat →
                               (∃ e, func j = inr e) ∧ sleep_backoff delay backoff j = None)
                       ∧ calls r = S i
                       ∧ waits r = slept ++ seq attempt (i - attempt)
              | Throws e0 =>
                  (calls r = n
                   ∧ (∀ j, (attempt ≤ j < n)%nat → ∃ e', func j = inr e')
                   ∧ (∀ j, (attempt ≤ j)%nat → (j + 1 < n)%nat →
                           sleep_backoff delay backoff j = None)
                   ∧ func (n - 1)%nat = inr e0
                   ∧ waits r = slept ++ seq attempt (S remaining - 1))
                  ∨ (∃ i, (attempt ≤ i)%nat ∧ (i + 1 < n)%nat
                          ∧ (∀ j, (attempt ≤ j ≤ i)%nat → ∃ e', func j = inr e')
                          ∧ (∀ j, (attempt ≤ j < i)%nat →
                                  sleep_backoff delay backoff j = None)
                          ∧ sleep_backoff delay backoff i = Some e0
                          ∧ calls r = S i
                          ∧ waits r = slept ++ seq attempt (i - attempt))
              | ThrowsTypeError =>
                  S remaining = O ∧ last = None ∧ calls r = attempt ∧ waits r = slept
              end).
    { intros slept' Hmore Hlast. cbv zeta.
      specialize (IH (S attempt) (Some e) slept' ltac:(lia)). cbv zeta in IH.
      destruct (outcome (retry_loop _ _ _ _ _ _ _ _)) as [a|e0|].
      - destruct IH as (i & Hi & Hfi & Hbefore & Hcalls & Hwaits).
        destruct Hmore as [Hsleep ->]; [lia|].
        exists i. split; [lia|]. split; [done|]. split.
        { intros j Hj. destruct (decide (j = attempt)) as [->|].
          - split; [by exists e|done].
          - apply Hbefore. lia. }
        split; [done|]. rewrite Hwaits, <- app_assoc. f_equal.
        replace (i - attempt)%nat with (S (i - S attempt)) by lia. done.
      - destruct IH as [(Hcalls & Hall & Hsl & Hlast' & Hwaits)
                       |(i & Hi & Hin & Hall & Hsl & Hraise & Hcalls & Hwaits)].
        + left. split; [done|]. split.
          { intros j Hj. destruct (decide (j = attempt)) as [->|]; [by exists e|].
            apply Hall. lia. }
          split.
          { intros j Hj Hjn. destruct (decide (j = attempt)) as [->|].
            - by destruct Hmore.
            - apply Hsl; lia. }
          split.
          { destruct remaining; [|done].
            injection Hlast' as <-. by replace (n - 1)%nat with attempt by lia. }
          rewrite Hwaits. destruct remaining as [|remaining].
          * rewrite Hlast by lia. done.
          * destruct Hmore as [_ ->]; [lia|]. rewrite <- app_assoc. f_equal.
            replace (S (S remaining) - 1)%nat with (S (S remaining - 1)) by lia. done.
        + right. destruct Hmore as [Hsleep ->]; [lia|].
          exists i. split; [lia|]. split; [done|]. split.
          { intros j Hj. destruct (decide (j = attempt)) as [->|]; [by exists e|].
            apply Hall. lia. }
          split.
          { intros j Hj. destruct (decide (j = attempt)) as [->|]; [done|].
            apply Hsl. lia. }
          split; [done|]. split; [done|]. rewrite Hwaits, <- app_assoc. f_equal.
          replace (i - attempt)%nat with (S (i - S attempt)) by lia. done.
      - by destruct IH as (_ & ? & _). }
    destruct (Z.ltb_spec (Z.of_nat attempt) (Z.of_nat n - 1)) as [Hlt|Hge].
    + destruct (sleep_backoff delay backoff attempt) as [raised|] eqn:Hsleep.
      * cbn [outcome calls waits]. right. exists attempt.
        split; [lia|]. split; [lia|]. split.
        { intros j Hj. replace j with attempt by lia. by exists e. }
        split; [intros j ?; lia|]. split; [done|]. split; [done|].
        rewrite Nat.sub_diag. cbn [seq]. by rewrite app_nil_r.
      * apply Hstep; [done|lia].
    + apply Hstep; [lia|done].
Qed.

(** X25. The wrapper of [retry_on_failure] calls the function until it
    returns, at most [max_attempts] times, and between two attempts it
    computes the back-off and sleeps.  It returns the first value the
    function returns, after one call per failed attempt plus one and one
    completed sleep per failed attempt.  It ends with an exception in two
    ways: every attempt failed, and then it raises the exception of the last
    attempt, having slept after each attempt but the last; or the sleep
    after a failed attempt that is not the last raised (a negative [delay]
    makes [time.sleep] raise), and then that exception leaves the wrapper at
    once, with no further call.  With [max_attempts] zero or negative the
    function is never called and the wrapper ends with the TypeError of
    [raise None]. *)
Theorem retry_on_failure_calls_until_success (max_attempts : Z) (delay backoff : F)
    (func : nat → A + E) :
  let r := retry_on_failure max_attempts delay backoff func in
  match outcome r with
  | Gives a =>
      ∃ i, Z.of_nat i < max_attempts ∧ func i = inl a
           ∧ (∀ j, (j < i)%nat →
                   (∃ e, func j = inr e) ∧ sleep_backoff delay backoff j = None)
           ∧ calls r = S i
           ∧ waits r = seq 0 i
  | Throws e =>
      0 < max_attempts
      ∧ (((∀ j, Z.of_nat j < max_attempts → ∃ e', func j = inr e')
          ∧ (∀ j, Z.of_nat j < max_attempts - 1 → sleep_backoff delay backoff j = None)
          ∧ func (Z.to_nat max_attempts - 1)%nat = inr e
          ∧ Z.of_nat (calls r) = max_attempts
          ∧ waits r = seq 0 (Z.to_nat max_attempts - 1))
         ∨ (∃ i, Z.of_nat i < max_attempts - 1
                 ∧ (∀ j, (j ≤ i)%nat → ∃ e', func j = inr e')
                 ∧ (∀ j, (j < i)%nat → sleep_backoff delay backoff j = None)
                 ∧ sleep_backoff delay backoff i = Some e
                 ∧ calls r = S i
                 ∧ waits r = seq 0 i))
  | ThrowsTypeError =>
      max_attempts ≤ 0 ∧ calls r = O ∧ waits r = []
  end.
Proof.
  cbv zeta. unfold retry_on_failure.
  destruct (Z.leb_spec max_attempts 0) as [Hle|Hpos].
  - replace (Z.to_nat max_attempts) with O by lia. by cbn.
  - pose proof (retry_loop_spec func (Z.to_nat max_attempts) delay backoff
                  (Z.to_nat max_attempts) O None [] eq_refl) as Hspec.
    cbv zeta in Hspec. rewrite Z2Nat.id in Hspec by lia.
    destruct (outcome (retry_loop _ _ _ _ _ _ _ _)) as [a|e|].
    + destruct Hspec as (i & Hi & Hfi & Hbefore & Hcalls & Hwaits).
      exists i. split; [lia|]. split; [done|]. split.
      { intros j Hj. apply Hbefore. lia. }
      split; [done|]. rewrite Hwaits. by rewrite Nat.sub_0_r.
    + split; [done|].
      destruct Hspec as [(Hcalls & Hall & Hsl & Hlast & Hwaits)
                        |(i & _ & Hin & Hall & Hsl & Hraise & Hcalls & Hwaits)].
      * left. split.
        { intros j Hj. apply Hall. lia. }
        split.
        { intros j Hj. apply Hsl; lia. }
        destruct (Z.to_nat max_attempts) as [|k] eqn:Hk; [lia|].
        split; [done|]. split; [lia|done].
      * right. exists i. split; [lia|]. split.
        { intros j Hj. apply Hall. lia. }
        split.
        { intros j Hj. apply Hsl. lia. }
        split; [done|]. split; [done|]. rewrite Hwaits. by rewrite Nat.sub_0_r.
    + destruct Hspec as (? & _). lia.
Qed.

End retry.

(** Three attempts with [delay=1], [backoff_factor=2] on a function that
    fails twice, and the same with [delay=-1]: [time.sleep] raises after the
    first failed attempt and the function is not called again. *)
Example retry_on_failure_runs :
  let func (n : nat) : string + string :=
    if (n <? 2)%nat then inr "timeout" else inl "up" in
  @retry_on_failure string string Z int_sleeper 3 1 2 func = mkRetried (Gives "up") 3 [0; 1]%nat
  ∧ @retry_on_failure string string Z int_sleeper 2 1 2 func
    = mkRetried (Throws "timeout") 2 [0%nat]
  ∧ @retry_on_failure string string Z int_sleeper 3 (-1) 2 func
    = mkRetried (Throws "ValueError") 1 []
  ∧ @retry_on_failure string string Z int_sleeper 0 1 2 func
    = mkRetried ThrowsTypeError 0 [].
Proof. vm_compute. by repeat split. Qed.

Section cache_result.
Context {R : Type}.

Lemma clean_old_lookup ttl now (cache : gmap string (R * Z)) k :
  clean_old ttl now cache !! k
  = cache !! k ≫= λ item, if bool_decide (now - item.2 ≤ ttl) then Some item else None.
Proof.
  unfold clean_old. destruct (cache !! k) as [[v ts]|] eqn:Hk; cbn.
  - case_bool_decide as Hage.
    + apply map_lookup_filter_Some. split; [done|]. cbn. lia.
    + apply map_lookup_filter_None. right. intros item Hitem. cbn.
      rewrite Hk in Hitem. injection Hitem as <-. cbn. lia.
  - apply map_lookup_filter_None. by left.
Qed.

(** X26. One call of the wrapper of [cache_result].  It either serves the
    stored result, which it does exactly when the key has an entry younger
    than [ttl], and then the dict is left as it was; or it calls the
    function.  When the function returns, the result is stored under the
    key with the time of the call (and removed again at once when [ttl] is
    negative), every entry older than [ttl] is deleted and the others are
    kept, so that no entry older than [ttl] is left; when the function
    raises, the dict is left as it was. *)
Theorem cache_result_serves_or_refreshes (ttl : Z) (key : string) (func : option R)
    (now : Z) (cache : gmap string (R * Z)) :
  let out := cache_result ttl key func now cache in
  if out.2
  then
    ¬ (∃ v ts, cache !! key = Some (v, ts) ∧ now - ts < ttl)
    ∧ out.1.2 = func
    ∧ match func with
      | Some result =>
          out.1.1 !! key = (if bool_decide (0 ≤ ttl) then Some (result, now) else None)
          ∧ (∀ k, k ≠ key →
                  out.1.1 !! k
                  = cache !! k ≫= λ item,
                      if bool_decide (now - item.2 ≤ ttl) then Some item else None)
          ∧ (∀ k v ts, out.1.1 !! k = Some (v, ts) → now - ts ≤ ttl)
      | None => out.1.1 = cache
      end
  else
    ∃ v ts, cache !! key = Some (v, ts) ∧ now - ts < ttl
            ∧ out.1.2 = Some v ∧ out.1.1 = cache.
Proof.
  cbv zeta.
  assert (Hexec : ¬ (∃ v ts, cache !! key = Some (v, ts) ∧ now - ts < ttl) →
            let out := match func with
                       | Some result =>
                           (clean_old ttl now (<[key := (result, now)]> cache),
                            Some result, true)
                       | None => (cache, None, true)
                       end in
            out.2 = true
            ∧ ¬ (∃ v ts, cache !! key = Some (v, ts) ∧ now - ts < ttl)
            ∧ out.1.2 = func
            ∧ match func with
              | Some result =>
                  out.1.1 !! key
                  = (if bool_decide (0 ≤ ttl) then Some (result, now) else None)
                  ∧ (∀ k, k ≠ key →
                          out.1.1 !! k
                          = cache !! k ≫= λ item,
                              if bool_decide (now - item.2 ≤ ttl) then Some item else None)
                  ∧ (∀ k v ts, out.1.1 !! k = Some (v, ts) → now - ts ≤ ttl)
              | None => out.1.1 = cache
              end).
  { intros Hno. cbv zeta. destruct func as [result|]; cbn [fst snd]; [|done].
    split; [done|]. split; [done|]. split; [done|]. split.
    { rewrite clean_old_lookup, lookup_insert_eq. cbn.
      replace (now - now) with 0 by lia. done. }
    split.
    { intros k Hk. by rewrite clean_old_lookup, lookup_insert_ne. }
    intros k v ts. rewrite clean_old_lookup.
    destruct (<[key:=(result, now)]> cache !! k) as [[v' ts']|]; cbn; [|done].
    case_bool_decide; [|done]. by intros [= _ <-]. }
  unfold cache_result.
  destruct (cache !! key) as [[v ts]|] eqn:Hk.
  - destruct (Z.ltb_spec (now - ts) ttl) as [Hage|Hage].
    + cbn [fst snd]. by exists v, ts.
    + destruct Hexec as (Hcalled & Hrest).
      { intros (v' & ts' & [= _ <-] & ?). lia. }
      cbv zeta in Hcalled. rewrite Hcalled. exact Hrest.
  - destruct Hexec as (Hcalled & Hrest).
    { by intros (v' & ts' & ? & _). }
    cbv zeta in Hcalled. rewrite Hcalled. exact Hrest.
Qed.

(** X27. Two calls of the wrapper of [cache_result] with the same
    arguments, [ttl] not negative, the first of which called the function
    and got [result].  The second call returns [result] without calling the
    function exactly while the age of the entry is less than [ttl]; at age
    [ttl] and beyond it calls the function again.  With [ttl] zero a call
    that does not come before the first is never served from the dict. *)
Theorem cache_result_repeat_within_ttl (ttl : Z) (key : string) (result : R)
    (t1 t2 : Z) (cache : gmap string (R * Z)) (again : option R) :
  0 ≤ ttl →
  (cache_result ttl key (Some result) t1 cache).2 = true →
  let cache1 := (cache_result ttl key (Some result) t1 cache).1.1 in
  (t2 - t1 < ttl → cache_result ttl key again t2 cache1 = (cache1, Some result, false))
  ∧ (ttl ≤ t2 - t1 →
     (cache_result ttl key again t2 cache1).2 = true
     ∧ (cache_result ttl key again t2 cache1).1.2 = again).
Proof.
  intros Httl Hcalled. cbv zeta.
  assert (Hstored : (cache_result ttl key (Some result) t1 cache).1.1 !! key
                    = Some (result, t1)).
  { unfold cache_result in *.
    assert (Hc : clean_old ttl t1 (<[key := (result, t1)]> cache) !! key
                 = Some (result, t1)).
    { rewrite clean_old_lookup, lookup_insert_eq. cbn.
      replace (t1 - t1) with 0 by lia. by rewrite bool_decide_eq_true_2. }
    destruct (cache !! key) as [[v ts]|]; [|done].
    by destruct (t1 - ts <? ttl). }
  set (cache1 := (cache_result ttl key (Some result) t1 cache).1.1) in *.
  split.
  - intros Hage. unfold cache_result at 1. rewrite Hstored.
    by destruct (Z.ltb_spec (t2 - t1) ttl); [|lia].
  - intros Hage. unfold cache_result. rewrite Hstored.
    destruct (Z.ltb_spec (t2 - t1) ttl); [lia|]. by destruct again.
Qed.

End cache_result.

Lemma cache_result_repeat_within_ttl_witness :
  let cache : gmap string (string * Z) := {["f_()_{}" := ("old", 0)]} in
  0 ≤ 60
  ∧ (cache_result 60 "f_()_{}" (Some "new") 100 cache).2 = true
  ∧ (cache_result 60 "f_()_{}" (Some "other") 159
       (cache_result 60 "f_()_{}" (Some "new") 100 cache).1.1).1.2 = Some "new"
  ∧ (cache_result 60 "f_()_{}" (Some "other") 160
       (cache_result 60 "f_()_{}" (Some "new") 100 cache).1.1).1.2 = Some "other".
Proof.
  intros cache.
  assert (H1 : 0 ≤ 60) by (vm_compute; discriminate).
  assert (H2 : (cache_result 60 "f_()_{}" (Some "new") 100 cache).2 = true)
    by (vm_compute; reflexivity).
  pose proof (@cache_result_repeat_within_ttl string 60 "f_()_{}" "new" 100 159 cache
                (Some "other") H1 H2) as Hnear.
  pose proof (@cache_result_repeat_within_ttl string 60 "f_()_{}" "new" 100 160 cache
                (Some "other") H1 H2) as Hfar.
  cbv zeta in Hnear, Hfar.
  split; [exact H1|]. split; [exact H2|]. split.
  - rewrite (proj1 Hnear); [reflexivity|]. vm_compute. reflexivity.
  - apply (proj2 Hfar). vm_compute. discriminate.
Defined.

End DecoratorsFacts.

(** ** More on the parsers *)

Module ParserMore.

Import PyStr PyStrFacts Parser Words Parsed.

Lemma append_cons c a b : String c a +:+ b = String c (a +:+ b).
Proof. done. Qed.

Lemma contains_unfold sub s :
  contains sub s
  = String.prefix sub s || match s with "" => false | String _ s' => contains sub s' end.
Proof. by destruct s. Qed.

Lemma prefix_contains sub s : String.prefix sub s = true → contains sub s = true.
Proof. intros H. rewrite contains_unfold, H. done. Qed.

Lemma contains_tail sub c s : contains sub s = true → contains sub (String c s) = true.
Proof. intros H. rewrite contains_unfold, H. apply orb_true_r. Qed.

(** Whatever holds a text holds every end of that text. *)
Lemma contains_suffix a b s : contains (a +:+ b) s = true → contains b s = true.
Proof.
  induction s as [|c s IH].
  - destruct a as [|x a]; [done|]. rewrite append_cons. done.
  - rewrite contains_unfold. intros [Hp|Hc]%orb_true_iff.
    + clear IH. revert c s Hp. induction a as [|x a IHa]; intros c s Hp.
      * by apply prefix_contains.
      * rewrite append_cons in Hp. cbn [String.prefix] in Hp.
        destruct (ascii_dec x c); [|done].
        apply contains_tail. destruct s as [|c' s].
        -- destruct a, b; done.
        -- by apply IHa.
    + apply contains_tail. by apply IH.
Qed.

(** X28. The status chain gives 'connected' exactly to the lines that hold
    "line protocol is up", whatever else they say: the first test of the
    chain, "is up", is part of that text. *)
Theorem basic_status_connected_iff_protocol_up (line_lower : string) :
  basic_status line_lower = "connected"
  ↔ contains "line protocol is up" line_lower = true.
Proof.
  unfold basic_status. split.
  - destruct (contains "is up" line_lower); cbn [andb].
    + by destruct (contains "line protocol is up" line_lower).
    + by repeat case_match.
  - intros H. rewrite H, andb_true_r.
    by rewrite (contains_suffix "line protocol " "is up" line_lower H).
Qed.

(** *** Words *)

Lemma word_cons c w :
  is_space c = false → (w = "" ∨ word w = true) → word (String c w) = true.
Proof.
  intros Hc Hw. unfold word. cbn. rewrite Hc. cbn.
  destruct Hw as [->|Hw]; [done|]. unfold word in Hw. by apply andb_true_iff in Hw as [_ ?].
Qed.

Lemma split_ws_cons c s :
  split_ws (String c s)
  = if is_space c then split_ws s
    else match s with
         | "" => [String c ""]
         | String c' _ =>
             if is_space c' then String c "" :: split_ws s
             else match split_ws s with
                  | w :: ws => String c w :: ws
                  | [] => [String c ""]
                  end
         end.
Proof. done. Qed.

(** [str.split()] yields words. *)
Lemma split_ws_words s : Forall (λ w, word w = true) (split_ws s).
Proof.
  induction s as [|c s IH]; [constructor|]. rewrite split_ws_cons.
  destruct (is_space c) eqn:Hc; [done|].
  destruct s as [|c' s'].
  - constructor; [|constructor]. apply word_cons; [done|by left].
  - destruct (is_space c') eqn:Hc'.
    + constructor; [|done]. apply word_cons; [done|by left].
    + destruct (split_ws (String c' s')) as [|w ws].
      * constructor; [|constructor]. apply word_cons; [done|by left].
      * apply Forall_cons in IH as [Hw Hws]. constructor; [|done].
        apply word_cons; [done|by right].
Qed.

Lemma split_ws_space s : split_ws (String " " s) = split_ws s.
Proof. done. Qed.

Lemma word_head c w : word (String c w) = true → is_space c = false ∧ (w = "" ∨ word w = true).
Proof.
  unfold word. cbn. intros [Hc Hw]%andb_true_iff. split; [by destruct (is_space c)|].
  destruct w as [|c' w]; [by left|]. right. done.
Qed.

(** A word followed by a blank is the first word of the text. *)
Lemma split_ws_word_space w s :
  word w = true → split_ws (w +:+ String " " s) = w :: split_ws s.
Proof.
  induction w as [|c w IH]; [done|]. intros [Hc Hw]%word_head.
  rewrite append_cons, split_ws_cons, Hc.
  destruct Hw as [->|Hw].
  - done.
  - specialize (IH Hw). destruct w as [|c' w]; [done|].
    rewrite append_cons in *. apply word_head in Hw as [Hc' _].
    rewrite Hc', IH. done.
Qed.

Lemma split_ws_word w : word w = true → split_ws w = [w].
Proof.
  induction w as [|c w IH]; [done|]. intros [Hc Hw]%word_head.
  rewrite split_ws_cons, Hc. destruct Hw as [->|Hw]; [done|].
  specialize (IH Hw). destruct w as [|c' w]; [done|].
  apply word_head in Hw as [Hc' _]. by rewrite Hc', IH.
Qed.

(** Splitting what [' '.join] made of words gives the words back. *)
Lemma split_ws_join ws :
  Forall (λ w, word w = true) ws → split_ws (join " " ws) = ws.
Proof.
  induction 1 as [|w ws Hw Hws IH]; [done|].
  destruct ws as [|w' ws]; [by apply split_ws_word|].
  rewrite join_cons2. change (" " +:+ ?x) with (String " " x).
  by rewrite split_ws_word_space, IH.
Qed.

Lemma word_nonempty w : word w = true → w ≠ "".
Proof. by destruct w. Qed.

(** *** [parse_basic_interfaces] *)

Lemma basic_status_values l :
  basic_status l ∈ ["connected"; "up"; "notconnect"; "down"; "disabled"; "unknown"].
Proof. unfold basic_status. repeat case_match; set_solver. Qed.

Lemma basic_step_records (lines : list string) acc raw :
  raw ∈ lines →
  (∀ i r, acc !! i = Some r → ∃ raw, raw ∈ lines ∧ read_from raw i r) →
  ∀ i r, basic_step acc raw !! i = Some r → ∃ raw, raw ∈ lines ∧ read_from raw i r.
Proof.
  intros Hraw Hacc i r. unfold basic_step.
  destruct (interface_pattern (strip raw)) eqn:Hpat; [|apply Hacc].
  pose proof (split_ws_words (strip raw)) as Hwords.
  destruct (split_ws (strip raw)) as [|w0 [|w1 [|w2 rest]]] eqn:Hsplit; [apply Hacc..|].
  destruct (decide (i = w0)) as [->|Hne].
  - rewrite lookup_insert_eq. intros [= <-]. exists raw. split; [done|].
    unfold read_from. cbn [raw_line status vlan duplex speed type_ description].
    split; [done|]. split; [done|]. split; [by exists w1, w2, rest|].
    split; [by apply Forall_cons in Hwords as [? _]|].
    split; [done|]. split; [apply basic_status_values|]. done.
  - rewrite lookup_insert_ne by done. apply Hacc.
Qed.

(** X29. Every record that [parse_basic_interfaces] returns was read from
    a line of the output: its [raw_line] is that line stripped, the line
    passes one of the interface patterns and has at least three words, the
    key of the record is the first of them, the status is what the status
    chain makes of the line in lower case, one of six values, and the other
    fields are the fixed texts. *)
Theorem parse_basic_records_come_from_lines (output interface : string)
    (r : InterfaceRecord) :
  parse_basic_interfaces output !! interface = Some r →
  ∃ raw, raw ∈ split Executor.LF output ∧ read_from raw interface r.
Proof.
  unfold parse_basic_interfaces.
  assert (Hgen : ∀ (lines todo : list string) acc,
            todo ⊆ lines →
            (∀ i r, acc !! i = Some r → ∃ raw, raw ∈ lines ∧ read_from raw i r) →
            ∀ i r, foldl basic_step acc todo !! i = Some r →
                   ∃ raw, raw ∈ lines ∧ read_from raw i r).
  { intros lines todo. induction todo as [|raw todo IH]; intros acc Hsub Hacc; [done|].
    cbn [foldl]. apply IH; [intros x Hx; apply Hsub; by right|].
    apply basic_step_records; [apply Hsub; by left|done]. }
  apply (Hgen _ _ ∅); [done|]. intros i r'. by rewrite lookup_empty.
Qed.

(** *** [parse_mac_table] *)

Lemma mac_step_entries (lines : list string) acc raw :
  raw ∈ lines →
  Forall (λ e, ∃ raw, raw ∈ lines ∧ entry_of raw e) acc →
  Forall (λ e, ∃ raw, raw ∈ lines ∧ entry_of raw e) (MacTable.mac_step acc raw)
  ∧ (length (MacTable.mac_step acc raw) ≤ S (length acc))%nat.
Proof.
  intros Hraw Hacc. unfold MacTable.mac_step.
  destruct (String.eqb_spec (strip raw) "") as [|Hne]; cbn [orb]; [by split; [|lia]|].
  destruct (contains "Vlan" (strip raw)) eqn:Hv; cbn [orb]; [by split; [|lia]|].
  destruct (contains "---" (strip raw)) eqn:Hd; cbn [orb]; [by split; [|lia]|].
  destruct (contains "Mac Address" (strip raw)) eqn:Hm; [by split; [|lia]|].
  pose proof (split_ws_words (strip raw)) as Hwords.
  destruct (split_ws (strip raw)) as [|p0 [|p1 [|p2 [|p3 rest]]]] eqn:Hsplit;
    [by split; [|lia]..|].
  apply Forall_cons in Hwords as [H0 Hwords].
  apply Forall_cons in Hwords as [H1 Hwords].
  apply Forall_cons in Hwords as [H2 Hwords].
  split; [|rewrite length_app; cbn; lia].
  apply Forall_app. split; [done|]. constructor; [|constructor].
  exists raw. split; [done|]. unfold entry_of.
  cbn [MacTable.vlan MacTable.mac_address MacTable.type_ MacTable.ports].
  rewrite (split_ws_join (p3 :: rest) Hwords). by repeat split.
Qed.

(** X30. Every entry that [parse_mac_table] returns was read from a line
    of the output that, stripped, is not empty and holds none of "Vlan",
    "---" and "Mac Address": the first three words of the line are the
    entry's vlan, address and type, and [ports] is the rest of the words, at
    least one, joined by single blanks.  There are no more entries than
    lines. *)
Theorem parse_mac_table_entries_come_from_lines (output : string) :
  Forall (λ e, ∃ raw, raw ∈ split Executor.LF output ∧ entry_of raw e)
         (MacTable.parse_mac_table output)
  ∧ (length (MacTable.parse_mac_table output) ≤ length (split Executor.LF output))%nat.
Proof.
  unfold MacTable.parse_mac_table.
  assert (Hgen : ∀ (lines todo : list string) acc,
            todo ⊆ lines →
            Forall (λ e, ∃ raw, raw ∈ lines ∧ entry_of raw e) acc →
            Forall (λ e, ∃ raw, raw ∈ lines ∧ entry_of raw e)
                   (foldl MacTable.mac_step acc todo)
            ∧ (length (foldl MacTable.mac_step acc todo) ≤ length acc + length todo)%nat).
  { intros lines todo. induction todo as [|raw todo IH]; intros acc Hsub Hacc.
    - cbn. split; [done|lia].
    - cbn [foldl length].
      destruct (mac_step_entries lines acc raw) as [Hstep Hlen];
        [apply Hsub; by left|done|].
      destruct (IH (MacTable.mac_step acc raw)) as [Hall Hl];
        [intros x Hx; apply Hsub; by right|done|].
      split; [done|lia]. }
  destruct (Hgen (split Executor.LF output) (split Executor.LF output) []) as [Hall Hlen];
    [done|constructor|].
  split; [done|]. cbn in Hlen. lia.
Qed.

Lemma parse_basic_records_come_from_lines_witness :
  let output :=
    "GigabitEthernet1/0/1 is up, line protocol is up (connected)" +:+ String Executor.LF
    "  Hardware is Gigabit Ethernet" in
  let r := mkRecord "connected" "unknown" "unknown" "unknown" "Ethernet" ""
                    "GigabitEthernet1/0/1 is up, line protocol is up (connected)" in
  parse_basic_interfaces output !! "GigabitEthernet1/0/1" = Some r
  ∧ ∃ raw, raw ∈ split Executor.LF output ∧ read_from raw "GigabitEthernet1/0/1" r.
Proof.
  intros output r.
  assert (H : parse_basic_interfaces output !! "GigabitEthernet1/0/1" = Some r)
    by (vm_compute; reflexivity).
  split; [exact H|].
  exact (parse_basic_records_come_from_lines output "GigabitEthernet1/0/1" r H).
Defined.

(** A table as a switch prints it. *)
Example parse_mac_table_example :
  MacTable.parse_mac_table
    ("          Mac Address Table" +:+ String Executor.LF
     "-------------------------------------------" +:+ String Executor.LF
     "Vlan    Mac Address       Type        Ports" +:+ String Executor.LF
     "----    -----------       --------    -----" +:+ String Executor.LF
     "  10    0011.2233.4455    DYNAMIC     Gi1/0/1" +:+ String Executor.LF
     " All    0100.0ccc.cccc    STATIC      CPU" +:+ String Executor.LF
     "Total Mac Addresses for this criterion: 2")
  = [MacTable.mkMac "10" "0011.2233.4455" "DYNAMIC" "Gi1/0/1";
     MacTable.mkMac "All" "0100.0ccc.cccc" "STATIC" "CPU"].
Proof. vm_compute. reflexivity. Qed.

End ParserMore.

(** ** From interface identifiers to ranges *)

Module RangesMore.

Import PyStr PyStrFacts Ranges Words Numerals.

(** *** [replace] and [split] on an identifier *)

Lemma replace_go_no_G s :
  all_chars (λ c, negb (Ascii.eqb c "G")) s = true → replace_go "Gi" "" 0 s = s.
Proof.
  induction s as [|c s IH]; [done|]. cbn [all_chars].
  intros [Hc Hs]%andb_true_iff. cbn [replace_go String.prefix].
  destruct (ascii_dec "G" c) as [<-|_]; [done|]. by rewrite IH.
Qed.

Lemma prefix_Gi rest : String.prefix "Gi" (String "G" (String "i" rest)) = true.
Proof. by destruct rest. Qed.

Lemma replace_Gi rest :
  all_chars (λ c, negb (Ascii.eqb c "G")) rest = true →
  replace "Gi" "" ("Gi" +:+ rest) = rest.
Proof.
  intros Hrest. unfold replace.
  change ("Gi" +:+ rest) with (String "G" (String "i" rest)).
  cbn [replace_go]. rewrite prefix_Gi.
  change ("" +:+ ?x) with x. cbn [String.length Nat.sub replace_go].
  by apply replace_go_no_G.
Qed.

Lemma split_no_sep sep s :
  all_chars (λ c, negb (Ascii.eqb c sep)) s = true → split sep s = [s].
Proof.
  induction s as [|c s IH]; [done|]. cbn [all_chars split].
  intros [Hc Hs]%andb_true_iff. destruct (Ascii.eqb c sep); [done|]. by rewrite IH.
Qed.

Lemma split_app_sep sep a rest :
  all_chars (λ c, negb (Ascii.eqb c sep)) a = true →
  split sep (a +:+ String sep rest) = a :: split sep rest.
Proof.
  induction a as [|c a IH].
  - intros _. change ("" +:+ String sep rest) with (String sep rest).
    cbn [split]. by rewrite Ascii.eqb_refl.
  - cbn [all_chars]. intros [Hc Ha]%andb_true_iff.
    change (String c a +:+ String sep rest) with (String c (a +:+ String sep rest)).
    cbn [split]. destruct (Ascii.eqb c sep); [done|]. by rewrite IH.
Qed.

Lemma digits_plain s :
  all_chars is_digit s = true →
  all_chars (λ c, negb (Ascii.eqb c "G")) s = true
  ∧ all_chars (λ c, negb (Ascii.eqb c "/")) s = true.
Proof.
  intros Hs. split; apply (all_chars_impl is_digit); [|done| |done];
    intros c Hc; destruct (numeral_char_plain c (digit_numeral c Hc)) as (_ & HG & Hs');
    by rewrite ?HG, ?Hs'.
Qed.

Lemma numeral_plain s :
  all_chars numeral_char s = true →
  all_chars (λ c, negb (Ascii.eqb c "G")) s = true
  ∧ all_chars (λ c, negb (Ascii.eqb c "/")) s = true.
Proof.
  intros Hs. split; apply (all_chars_impl numeral_char); [|done| |done];
    intros c Hc; destruct (numeral_char_plain c Hc) as (_ & HG & Hs');
    by rewrite ?HG, ?Hs'.
Qed.

(** The identifier of port [p] in slot [a/b] is taken apart into the three
    parts it was written from. *)
Lemma gi_parts_identifier a b p :
  all_chars is_digit a = true → all_chars is_digit b = true →
  gi_parts ("Gi" +:+ a +:+ "/" +:+ b +:+ "/" +:+ str_int p) = Some (a, b, str_int p).
Proof.
  intros Ha Hb. unfold gi_parts.
  destruct (digits_plain a Ha) as [HaG Has], (digits_plain b Hb) as [HbG Hbs].
  destruct (numeral_plain _ (str_int_chars p)) as [HpG Hps].
  unfold startswith. change ("Gi" +:+ ?x) with (String "G" (String "i" x)) at 1.
  rewrite prefix_Gi. change (String "G" (String "i" ?x)) with ("Gi" +:+ x).
  rewrite replace_Gi.
  - change ("/" +:+ b +:+ ?x) with (String "/" (b +:+ x)).
    rewrite (split_app_sep "/" a) by done.
    change ("/" +:+ ?x) with (String "/" x).
    rewrite (split_app_sep "/" b) by done.
    by rewrite split_no_sep.
  - apply all_chars_app; [done|]. change ("/" +:+ b +:+ ?x) with (String "/" (b +:+ x)).
    cbn [all_chars]. apply andb_true_iff. split; [done|].
    apply all_chars_app; [done|]. change ("/" +:+ ?x) with (String "/" x).
    cbn [all_chars]. by apply andb_true_iff.
Qed.

Lemma group_append_same slot p qs :
  group_append slot p [(slot, qs)] = [(slot, qs ++ [p])].
Proof. cbn. by rewrite String.eqb_refl. Qed.

Lemma group_fold_one_slot a b ports qs :
  all_chars is_digit a = true → all_chars is_digit b = true →
  foldl group_step (Some [(a +:+ "/" +:+ b, qs)])
        ((λ p, "Gi" +:+ a +:+ "/" +:+ b +:+ "/" +:+ str_int p) <$> ports)
  = Some [(a +:+ "/" +:+ b, qs ++ ports)].
Proof.
  intros Ha Hb. revert qs. induction ports as [|p ports IH]; intros qs.
  - by rewrite app_nil_r.
  - cbn [fmap list_fmap foldl]. unfold group_step at 2. cbn [mbind option_bind].
    rewrite gi_parts_identifier, int_str_int by done. cbn [mbind option_bind].
    rewrite group_append_same. rewrite IH. by rewrite <- app_assoc.
Qed.

(** X24. From identifiers to ranges: for the ports of one slot, written
    as a switch writes them ("Gi", the two slot numbers and the port number,
    with slashes between), [_create_interface_ranges] returns what
    [_create_port_ranges] makes of the slot and the sorted port numbers,
    whatever the order and the repetitions of the input. *)
Theorem create_interface_ranges_of_one_slot (a b : string) (ports : list Z) :
  all_chars is_digit a = true →
  all_chars is_digit b = true →
  _create_interface_ranges
    ((λ p, "Gi" +:+ a +:+ "/" +:+ b +:+ "/" +:+ str_int p) <$> ports)
  = _create_port_ranges (a +:+ "/" +:+ b) (sort ports).
Proof.
  intros Ha Hb. unfold _create_interface_ranges.
  destruct ports as [|p ports]; [done|].
  cbn [fmap list_fmap foldl]. unfold group_step at 2. cbn [mbind option_bind].
  rewrite gi_parts_identifier, int_str_int by done. cbn [mbind option_bind group_append].
  rewrite group_fold_one_slot by done.
  cbn [mbind list_bind fst snd]. by rewrite app_nil_r.
Qed.

Lemma create_interface_ranges_of_one_slot_witness :
  all_chars is_digit "1" = true
  ∧ all_chars is_digit "0" = true
  ∧ _create_interface_ranges ["Gi1/0/7"; "Gi1/0/3"; "Gi1/0/5"; "Gi1/0/4"]
    = ["gi1/0/3-5"; "gi1/0/7"].
Proof.
  assert (H1 : all_chars is_digit "1" = true) by reflexivity.
  assert (H0 : all_chars is_digit "0" = true) by reflexivity.
  split; [exact H1|]. split; [exact H0|].
  exact (create_interface_ranges_of_one_slot "1" "0" [7; 3; 5; 4] H1 H0).
Defined.

End RangesMore.
